(** * soleurhelper.py: indicator engine, decision rule and tick loop

    A shallow embedding of [src/soleurhelper.py].  The Python code computes
    on IEEE-754 binary64 numbers ([float]); the embedding is written once
    over an interface of the arithmetic the source uses ([PyNum]) and is
    read at two instances: Rocq's primitive binary64 floats, which is the
    program as it runs, and the rationals [Q], which is the same code with
    no rounding, no overflow and no NaN.

    Python conventions kept by the model:
    - an uncaught exception ends the call: results live in [result],
      and in [outcome] where [min], [max], [int] or [time.sleep] can
      raise as well;
    - [x / y] raises [ZeroDivisionError] when [y == 0];
    - [l[i]] accepts a negative index and raises [IndexError] out of range;
    - [l[a:]] clips its bound instead of raising;
    - comparing a number with [None] raises [TypeError];
    - a period, a window length or a capacity is a count ([nat]). *)

From Stdlib Require Import String.
From Stdlib Require Import List ZArith Bool Arith Lia.
From Stdlib Require Import QArith Qpower Qround Lqa.
From Stdlib Require Import Floats Zpower.
Import ListNotations.
Close Scope Q_scope.
Open Scope nat_scope.

Set Implicit Arguments.

(* ================================================================== *)
(** ** Python run-time conventions *)

Inductive exn : Type :=
| ZeroDivisionError
| IndexError
| TypeError.

Inductive result (A : Type) : Type :=
| Ok (a : A)
| Raise (e : exn).

Arguments Ok {A} a.
Arguments Raise {A} e.

Definition bind {A B : Type} (m : result A) (k : A -> result B) : result B :=
  match m with
  | Ok a => k a
  | Raise e => Raise e
  end.

Notation "x <- m ;; k" := (bind m (fun x => k))
  (at level 61, m at next level, right associativity).
Notation "' pat <- m ;; k" := (bind m (fun x => match x with pat => k end))
  (at level 61, pat pattern, m at next level, right associativity).

Section PyList.
Variable A : Type.

(** [l[i]], negative [i] counting from the end. *)
Definition getitem (l : list A) (i : Z) : result A :=
  let n := Z.of_nat (length l) in
  let j := if (i <? 0)%Z then (i + n)%Z else i in
  if ((j <? 0) || (n <=? j))%Z then Raise IndexError
  else match nth_error l (Z.to_nat j) with
       | Some x => Ok x
       | None => Raise IndexError
       end.

(** [l[start:]]: a negative bound counts from the end, and every bound
    is clipped to [0 .. len(l)]. *)
Definition slice_from (start : Z) (l : list A) : list A :=
  let n := Z.of_nat (length l) in
  let s := if (start <? 0)%Z then Z.max 0 (start + n) else Z.min start n in
  skipn (Z.to_nat s) l.

(** [l.pop(0)] seen as the list that is left. *)
Definition pop0 (l : list A) : result (list A) :=
  match l with
  | [] => Raise IndexError
  | _ :: rest => Ok rest
  end.

(** [enumerate(l)]. *)
Definition enumerate (l : list A) : list (nat * A) :=
  combine (seq 0 (length l)) l.

(** The last [n] elements of [l] (all of [l] when it is shorter). *)
Definition lastn (n : nat) (l : list A) : list A :=
  skipn (length l - n) l.
End PyList.

(** [range(a, b)]. *)
Definition range (a b : Z) : list Z :=
  map (fun k => (a + Z.of_nat k)%Z) (seq 0 (Z.to_nat (b - a))).

(* ================================================================== *)
(** ** The arithmetic the source uses *)

Class PyNum (num : Type) : Type := {
  of_int : Z -> num;            (* an int operand or an integral literal *)
  add : num -> num -> num;
  sub : num -> num -> num;
  mul : num -> num -> num;
  quot : num -> num -> num;     (* the quotient by a divisor that is not 0 *)
  ltb : num -> num -> bool;
  eqb : num -> num -> bool
}.

(** The suggestion and the colour it is printed in. *)
Inductive action : Type := BUY | SELL | HOLD.
Inductive color : Type := GREEN | RED | YELLOW.

Definition action_eqb (a b : action) : bool :=
  match a, b with
  | BUY, BUY | SELL, SELL | HOLD, HOLD => true
  | _, _ => false
  end.

Section Indicators.
Context {num : Type} `{PyNum num}.

Definition gtb (x y : num) : bool := ltb y x.

(** [x / y] on numbers. *)
Definition truediv (x y : num) : result num :=
  if eqb y (of_int 0) then Raise ZeroDivisionError else Ok (quot x y).

(** [x / n] with [n] an int: the test for zero is on the int. *)
Definition truediv_int (x : num) (n : nat) : result num :=
  match n with
  | O => Raise ZeroDivisionError
  | S _ => Ok (quot x (of_int (Z.of_nat n)))
  end.

(** [sum(l)]: additions from the left, starting at the int [0] (on floats
    CPython 3.12 and later compensate the rounding error of the running
    sum; the two agree wherever the partial sums are exact). *)
Definition sum (l : list num) : num :=
  fold_left add l (of_int 0).

(* ---------------------------------------------------------------- *)
(** *** moving_average *)

Definition moving_average (prices : list num) (period : nat)
  : result (option num) :=
  if length prices <? period then Ok None
  else
    m <- truediv_int (sum (slice_from (- Z.of_nat period) prices)) period ;;
    Ok (Some m).

(* ---------------------------------------------------------------- *)
(** *** calculate_rsi *)

(** One turn of the loop body on the pair [(gains, losses)]. *)
Definition rsi_step (acc : num * num) (change : num) : num * num :=
  let '(gains, losses) := acc in
  if gtb change (of_int 0) then (add gains change, losses)
  else (gains, sub losses change).

(** [for i in idxs: change = prices[i] - prices[i-1]; ...]. *)
Fixpoint rsi_loop (prices : list num) (idxs : list Z) (acc : num * num)
  : result (num * num) :=
  match idxs with
  | [] => Ok acc
  | i :: rest =>
    a <- getitem prices i ;;
    b <- getitem prices (i - 1) ;;
    rsi_loop prices rest (rsi_step acc (sub a b))
  end.

(** What follows the loop. *)
Definition rsi_finish (acc : num * num) (period : nat)
  : result (option num) :=
  let '(gains, losses) := acc in
  avg_gain <- truediv_int gains period ;;
  avg_loss <- truediv_int losses period ;;
  if eqb avg_loss (of_int 0) then Ok (Some (of_int 100))
  else
    rs <- truediv avg_gain avg_loss ;;
    q <- truediv (of_int 100) (add (of_int 1) rs) ;;
    Ok (Some (sub (of_int 100) q)).

Definition calculate_rsi (prices : list num) (period : nat)
  : result (option num) :=
  if length prices <? period + 1 then Ok None
  else
    acc <- rsi_loop prices (range (- Z.of_nat period) 0)
             (of_int 0, of_int 0) ;;
    rsi_finish acc period.

(* ---------------------------------------------------------------- *)
(** *** calculate_macd and its inner ema *)

(** [k = 2.0 / (period + 1.0)]. *)
Definition smoothing (period : nat) : result num :=
  truediv (of_int 2) (add (of_int (Z.of_nat period)) (of_int 1)).

(** The loop of [ema] over [enumerate(series)], [out] being the list
    built so far. *)
Fixpoint ema_loop (k : num) (items : list (nat * num)) (out : list num)
  : result (list num) :=
  match items with
  | [] => Ok out
  | (i, v) :: rest =>
    if Nat.eqb i 0 then ema_loop k rest (out ++ [v])
    else
      prev <- getitem out (-1) ;;
      ema_loop k rest
        (out ++ [add (mul v k) (mul prev (sub (of_int 1) k))])
  end.

Definition ema (series : list num) (period : nat) : result (list num) :=
  k <- smoothing period ;;
  ema_loop k (enumerate series) [].

Definition calculate_macd (prices : list num) (fast slow signal : nat)
  : result (option num * option num) :=
  if length prices <? slow + signal then Ok (None, None)
  else
    ema_fast <- ema prices fast ;;
    ema_slow <- ema prices slow ;;
    let macd_line_series :=
      map (fun fs => sub (fst fs) (snd fs))
          (combine
             (slice_from (- Z.of_nat (length ema_slow)) ema_fast)
             ema_slow) in
    signal_line_series <- ema macd_line_series signal ;;
    m <- getitem macd_line_series (-1) ;;
    s <- getitem signal_line_series (-1) ;;
    Ok (Some m, Some s).

(* ---------------------------------------------------------------- *)
(** *** get_action *)

(** [x > y] and [x < y] where [y] may be [None]. *)
Definition gt_value (x : num) (y : option num) : result bool :=
  match y with
  | Some v => Ok (gtb x v)
  | None => Raise TypeError
  end.

Definition lt_value (x : num) (y : option num) : result bool :=
  match y with
  | Some v => Ok (ltb x v)
  | None => Raise TypeError
  end.

(** The tail of the BUY condition, after [price > ma20]. *)
Definition buy_rest (rsi14 macd macd_signal : option num) : bool :=
  match rsi14 with
  | None => false
  | Some r =>
    ltb r (of_int 35) &&
    match macd, macd_signal with
    | Some m, Some s => gtb m s
    | _, _ => false
    end
  end.

(** The tail of the SELL condition, after [price < ma20]. *)
Definition sell_rest (rsi14 macd macd_signal : option num) : bool :=
  match rsi14 with
  | None => false
  | Some r =>
    gtb r (of_int 65) &&
    match macd, macd_signal with
    | Some m, Some s => ltb m s
    | _, _ => false
    end
  end.

Definition get_action (price : num) (ma20 rsi14 macd macd_signal : option num)
  : result (action * color) :=
  above <- gt_value price ma20 ;;
  if above && buy_rest rsi14 macd macd_signal then Ok (BUY, GREEN)
  else
    below <- lt_value price ma20 ;;
    if below && sell_rest rsi14 macd macd_signal then Ok (SELL, RED)
    else Ok (HOLD, YELLOW).

(* ---------------------------------------------------------------- *)
(** *** soleur_helper: the data of the [while True] loop *)

Record config : Type := {
  symbol : string;
  interval : num;
  history : nat
}.

(** The two variables the loop owns. *)
Record state : Type := {
  prices : list num;
  last_action : option action
}.

(** What [get_spot_price] did: it returned a price, or raised an
    [Exception] (whose text is all the handler reads). *)
Inductive fetch : Type :=
| Fetched (price : num)
| FetchFailed (e : string).

(** What the loop writes to the terminal, and its sleeps. *)
Inductive output : Type :=
| PrintStarting (sym : string) (seconds : num)
| PrintFetchError (e : string)
| Sleep (seconds : num)
| ClearTerminal
| PrintCollecting (have need : nat)
| Bell
| Display (sym : string) (history_shown : list num) (a : action) (c : color)
          (ma20 rsi14 macd macd_signal : num).

(** [prices.append(price); if len(prices) > history: prices.pop(0)]. *)
Definition append_price (capacity : nat) (price : num) (buf : list num)
  : result (list num) :=
  let buf := buf ++ [price] in
  if capacity <? length buf then pop0 buf else Ok buf.

(** [action != last_action], [last_action] being [None] at the start. *)
Definition action_changed (a : action) (last : option action) : bool :=
  match last with
  | Some b => negb (action_eqb a b)
  | None => true
  end.

(** [prices = []; last_action = None]. *)
Definition initial : state := {| prices := []; last_action := None |}.

(** The buffer after the prices [vs] were appended in turn. *)
Fixpoint append_all (capacity : nat) (vs : list num) (buf : list num)
  : result (list num) :=
  match vs with
  | [] => Ok buf
  | v :: rest =>
    buf1 <- append_price capacity v buf ;;
    append_all capacity rest buf1
  end.

(** The prices the fetches of a run returned, oldest first. *)
Fixpoint fetched_prices (fs : list fetch) : list num :=
  match fs with
  | [] => []
  | Fetched p :: rest => p :: fetched_prices rest
  | FetchFailed _ :: rest => fetched_prices rest
  end.

(* ---------------------------------------------------------------- *)
(** *** The specification's vocabulary *)

(** The consecutive differences of a window, oldest first. *)
Fixpoint deltas (w : list num) : list num :=
  match w with
  | a :: (b :: _) as rest => sub b a :: deltas rest
  | _ => []
  end.

(** The [period] deltas over the most recent [period + 1] prices. *)
Definition window_deltas (prices : list num) (period : nat) : list num :=
  deltas (lastn (period + 1) prices).

(** [d >= 0]. *)
Definition nonneg (d : num) : bool := ltb (of_int 0) d || eqb d (of_int 0).

(** One step of the EMA recurrence:
    [value * k + previous_output * (1 - k)]. *)
Definition ema_step (k prev v : num) : num :=
  add (mul v k) (mul prev (sub (of_int 1) k)).

(** The EMA as the recurrence the specification gives: the outputs
    that follow the output [prev]. *)
Fixpoint ema_tail (k prev : num) (series : list num) : list num :=
  match series with
  | [] => []
  | v :: rest =>
    let o := ema_step k prev v in
    o :: ema_tail k o rest
  end.

(** ... seeded with the first value. *)
Definition ema_series (k : num) (series : list num) : list num :=
  match series with
  | [] => []
  | v :: rest => v :: ema_tail k v rest
  end.

(** A constant series of [v] that the recurrence of this period
    reproduces: [v*k + v*(1-k)] computes to [v] again. *)
Definition ema_keeps (period : nat) (v : num) : Prop :=
  exists k, smoothing period = Ok k /\ ema_step k v v = v.

End Indicators.

Arguments config num : clear implicits.
Arguments state num : clear implicits.
Arguments fetch num : clear implicits.
Arguments output num : clear implicits.

(* ================================================================== *)
(** ** The two readings of the arithmetic *)

(** The binary64 number nearest to an int (ties to even), as Python
    converts an int operand (an int beyond the float range, which Python
    refuses with [OverflowError], is infinite here). *)
Definition float_of_int (z : Z) : float :=
  SF2Prim (binary_normalize prec emax z 0 false).

(** Python's [float]: IEEE-754 binary64, round to nearest even. *)
#[export] Instance binary64 : PyNum float := {|
  of_int := float_of_int;
  add := PrimFloat.add;
  sub := PrimFloat.sub;
  mul := PrimFloat.mul;
  quot := PrimFloat.div;
  ltb := PrimFloat.ltb;
  eqb := PrimFloat.eqb
|}.

(** The same operations on rationals: no rounding. *)
#[export] Instance exact : PyNum Q := {|
  of_int := inject_Z;
  add := Qplus;
  sub := Qminus;
  mul := Qmult;
  quot := Qdiv;
  ltb := fun x y => negb (Qle_bool y x);
  eqb := Qeq_bool
|}.

(* ================================================================== *)
(** ** The mean the specification speaks of *)

(** The arithmetic mean of rationals: their sum over their number. *)
Definition arithmetic_mean (l : list Q) : Q :=
  (fold_right Qplus 0 l / inject_Z (Z.of_nat (length l)))%Q.

(** The rational that a finite binary64 number is. *)
Definition float_value (x : float) : option Q :=
  match Prim2SF x with
  | S754_zero _ => Some 0%Q
  | S754_finite s m e =>
    Some ((if s then -1 else 1) * inject_Z (Zpos m) * Qpower 2 e)%Q
  | S754_infinity _ | S754_nan => None
  end.

Fixpoint float_values (l : list float) : option (list Q) :=
  match l with
  | [] => Some []
  | x :: rest =>
    match float_value x, float_values rest with
    | Some v, Some vs => Some (v :: vs)
    | _, _ => None
    end
  end.

(** The binary64 number [m] is the arithmetic mean of the numbers of
    [l], all of them finite. *)
Definition is_mean_of (m : float) (l : list float) : Prop :=
  exists v vs, float_value m = Some v /\ float_values l = Some vs
               /\ (v == arithmetic_mean vs)%Q.

(* ================================================================== *)
(** ** Vocabulary for the rounding of binary64 *)

Section RoundingVocabulary.
Local Open Scope Q_scope.

(** [2^e] as a rational. *)
Definition pow2 (e : Z) : Q := (2 ^ e)%Q.

(** The record [mrs] at exponent [e] is the truncation of [x]. *)
Definition shr_inv (x : Q) (mrs : shr_record) (e : Z) : Prop :=
  (0 <= shr_m mrs)%Z
  /\ inject_Z (shr_m mrs) * pow2 e <= x
  /\ x < inject_Z (shr_m mrs + 1) * pow2 e
  /\ (shr_r mrs || shr_s mrs = true -> inject_Z (shr_m mrs) * pow2 e < x).

(** A mantissa at the exponent the format gives it. *)
Definition canonical (m : positive) (e : Z) : Prop :=
  fexp prec emax (Z.pos (digits2_pos m) + e) = e.

(** The positive rational [m * 2^e]. *)
Definition value (m : positive) (e : Z) : Q :=
  (inject_Z (Z.pos m) * pow2 e)%Q.

(** The results of [binary_round_aux] on a mantissa that is not
    negative. *)
Definition signed (s : bool) (r : spec_float) : Prop :=
  match r with
  | S754_zero s' | S754_infinity s' | S754_finite s' _ _ => s' = s
  | S754_nan => False
  end.

(** Not negative and not NaN; positive; not positive and not NaN. *)
Definition sf_nonneg (r : spec_float) : Prop :=
  match r with
  | S754_zero _ | S754_finite false _ _ | S754_infinity false => True
  | _ => False
  end.

Definition sf_pos (r : spec_float) : Prop :=
  match r with
  | S754_finite false _ _ | S754_infinity false => True
  | _ => False
  end.

Definition sf_nonpos (r : spec_float) : Prop :=
  match r with
  | S754_zero _ | S754_finite true _ _ | S754_infinity true => True
  | _ => False
  end.

(** Zero or finite. *)
Definition sf_finite (r : spec_float) : Prop :=
  match r with
  | S754_zero _ | S754_finite _ _ _ => True
  | _ => False
  end.
End RoundingVocabulary.

(* ================================================================== *)
(** ** Price series used below *)

(** The 35 prices 100, 101, ..., 134. *)
Definition linear_prices : list float :=
  map (fun k => float_of_int (100 + Z.of_nat k)) (seq 0 35).

(** Fifteen prices with one loss of 0.5 and one gain of about 1e18. *)
Definition rounding_prices : list float :=
  ([1; 0.5] ++ repeat 1e18 13)%float.

(** Fifteen prices that alternate between 1 and 2^1023. *)
Definition overflow_prices : list float :=
  (flat_map (fun _ => [1; 0x1p1023]) (seq 0 7) ++ [1])%float.

(** Two prices whose sum is beyond the binary64 range. *)
#[warnings="-inexact-float"]
Definition huge_prices : list float := [1e308; 1e308]%float.

(** Four prices whose sum absorbs an addend: [2^53 + 1] rounds to
    [2^53]. *)
Definition absorbed_prices : list float := [0x1p53; 1; 1; 2]%float.

(** The price 100.2 thirty-five times. *)
#[warnings="-inexact-float"]
Definition flat_prices : list float := repeat 100.2%float 35.

(** A run of the loop in binary64: one failed fetch, then the prices
    100, 101, ..., 134. *)
Definition sample_config : config float :=
  {| symbol := "SOLEUR"; interval := 0.5%float; history := 60 |}.

Definition small_config : config float :=
  {| symbol := "SOLEUR"; interval := 0.5%float; history := 2 |}.

Definition sample_fetches : list (fetch float) :=
  FetchFailed "timeout" :: map (@Fetched float) linear_prices.

(** The same configuration with an interval of -1 second. *)
Definition negative_config : config float :=
  {| symbol := "SOLEUR"; interval := (-1)%float; history := 60 |}.

(** The default configuration, its interval read as the rational 1/2. *)
Definition exact_config : config Q :=
  {| symbol := "SOLEUR"; interval := (1 # 2)%Q; history := 60 |}.


(* ================================================================== *)
(** ** The terminal side: sparkline and display *)

(** What the display code can raise: the exceptions above, and those of
    [min], [max] and [int]. *)
Inductive failure : Type :=
| Builtin (e : exn)
| ValueError
| OverflowError.

Inductive outcome (A : Type) : Type :=
| Returns (a : A)
| Fails (f : failure).

Arguments Returns {A} a.
Arguments Fails {A} f.

Definition and_then {A B : Type} (m : outcome A) (k : A -> outcome B)
  : outcome B :=
  match m with
  | Returns a => k a
  | Fails f => Fails f
  end.

Notation "x <~ m ;; k" := (and_then m (fun x => k))
  (at level 61, m at next level, right associativity).
Notation "' pat <~ m ;; k" :=
  (and_then m (fun x => match x with pat => k end))
  (at level 61, pat pattern, m at next level, right associativity).

Definition lift {A : Type} (r : result A) : outcome A :=
  match r with
  | Ok a => Returns a
  | Raise e => Fails (Builtin e)
  end.

(** [int(x)]: the integer part, towards zero. *)
Class PyTrunc (num : Type) : Type := {
  to_int : num -> outcome Z
}.

(** [int] of a float: [ValueError] on NaN, [OverflowError] on an
    infinity, else the mantissa shifted by the exponent, with the sign. *)
Definition float_to_int (x : float) : outcome Z :=
  match Prim2SF x with
  | S754_nan => Fails ValueError
  | S754_infinity _ => Fails OverflowError
  | S754_zero _ => Returns 0%Z
  | S754_finite s m e =>
    let magnitude :=
      match e with
      | Z0 => Zpos m
      | Zpos n => Z.shiftl (Zpos m) (Zpos n)
      | Zneg n => Z.shiftr (Zpos m) (Zpos n)
      end in
    Returns (if s then Z.opp magnitude else magnitude)
  end.

#[export] Instance binary64_trunc : PyTrunc float := {|
  to_int := float_to_int
|}.

#[export] Instance exact_trunc : PyTrunc Q := {|
  to_int := fun q => Returns (Z.quot (Qnum q) (Zpos (Qden q)))
|}.

(** The eight glyphs of [chars], as code points U+2581 .. U+2588. *)
Definition chars : list N :=
  [0x2581; 0x2582; 0x2583; 0x2584; 0x2585; 0x2586; 0x2587; 0x2588]%N.

(** A line [display] prints; the number formats are left to the fields. *)
Inductive line (num : Type) : Type :=
| LineHeader (sym : string)
| LineHistory (glyphs : list N)
| LinePrice (latest : num)
| LineMA20 (v : num)
| LineRSI14 (v : num)
| LineMACD (m s : num)
| LineSuggestion (c : color) (a : action).

Arguments LineHeader {num} sym.
Arguments LineHistory {num} glyphs.
Arguments LinePrice {num} latest.
Arguments LineMA20 {num} v.
Arguments LineRSI14 {num} v.
Arguments LineMACD {num} m s.
Arguments LineSuggestion {num} c a.

Section Terminal.
Context {num : Type} `{PyNum num} `{PyTrunc num}.

(** [min(l)]: the first element, replaced by each later one that is
    [<] it; [ValueError] on no element. *)
Definition py_min (l : list num) : outcome num :=
  match l with
  | [] => Fails ValueError
  | x :: rest =>
    Returns (fold_left (fun cur item => if ltb item cur then item else cur)
                       rest x)
  end.

(** [max(l)], with [>]. *)
Definition py_max (l : list num) : outcome num :=
  match l with
  | [] => Fails ValueError
  | x :: rest =>
    Returns (fold_left (fun cur item => if gtb item cur then item else cur)
                       rest x)
  end.

(** [chars[int((p - lo) / (hi - lo) * (len(chars) - 1))]]. *)
Definition glyph (lo hi p : num) : outcome N :=
  q <~ lift (truediv (sub p lo) (sub hi lo)) ;;
  idx <~ to_int (mul q (of_int (Z.of_nat (length chars) - 1))) ;;
  lift (getitem chars idx).

(** The loop of [sparkline]. *)
Fixpoint sparkline_loop (lo hi : num) (prices : list num)
  : outcome (list N) :=
  match prices with
  | [] => Returns []
  | p :: rest =>
    g <~ glyph lo hi p ;;
    out <~ sparkline_loop lo hi rest ;;
    Returns (g :: out)
  end.

Definition sparkline (prices : list num) : outcome (list N) :=
  lo <~ py_min prices ;;
  hi <~ py_max prices ;;
  if eqb hi lo then Returns (repeat 0x2581%N (length prices))
  else sparkline_loop lo hi prices.

(** The lines for the indicators that are present. *)
Definition indicator_lines (ma20 rsi14 macd macd_signal : option num)
  : list (line num) :=
  (match ma20 with Some v => [LineMA20 v] | None => [] end)
    ++ (match rsi14 with Some v => [LineRSI14 v] | None => [] end)
    ++ (match macd, macd_signal with
        | Some m, Some s => [LineMACD m s]
        | _, _ => []
        end).

(** [display]: the lines it printed, and the exception that ended it,
    if one did. *)
Definition display (sym : string) (prices : list num) (a : action)
  (c : color) (ma20 rsi14 macd macd_signal : option num)
  : list (line num) * option failure :=
  match getitem prices (-1) with
  | Raise e => ([], Some (Builtin e))
  | Ok latest =>
    match sparkline prices with
    | Fails f => ([LineHeader sym], Some f)
    | Returns glyphs =>
      ([LineHeader sym; LineHistory glyphs; LinePrice latest]
         ++ indicator_lines ma20 rsi14 macd macd_signal
         ++ [LineSuggestion c a],
       None)
    end
  end.
End Terminal.

(* ================================================================== *)
(** ** soleur_helper: one turn of the [while True] loop *)

Section Loop.
Context {num : Type} `{PyNum num} `{PyTrunc num}.

(** [time.sleep(seconds)] (CPython 3.11): the length is converted to
    nanoseconds, rounding away from zero.  NaN is refused with
    [ValueError], a length beyond 2^63 nanoseconds with [OverflowError],
    a negative one with [ValueError], as is one of exactly 2^63
    nanoseconds, which wraps around.  The operating system's own refusal
    of a sleep of centuries depends on the machine's clock and is left
    out. *)
Definition sleep (seconds : num) : outcome unit :=
  if negb (eqb seconds seconds) then Fails ValueError
  else
    let ns := mul seconds (of_int (10 ^ 9)) in
    if ltb ns (of_int (- 2 ^ 63)) || ltb (of_int (2 ^ 63)) ns
    then Fails OverflowError
    else if ltb seconds (of_int 0) || eqb ns (of_int (2 ^ 63))
    then Fails ValueError
    else Returns tt.

(** The body of the loop on what [get_spot_price] did.  An exception of
    the handler, of an indicator, of [display] or of [time.sleep] is not
    caught and ends the program. *)
Definition tick (cfg : config num) (f : fetch num) (st : state num)
  : outcome (state num * list (output num)) :=
  match f with
  | FetchFailed e =>
    _ <~ sleep (interval cfg) ;;
    Returns (st, [PrintFetchError e; Sleep (interval cfg)])
  | Fetched price =>
    buf <~ lift (append_price (history cfg) price (prices st)) ;;
    ma20 <~ lift (moving_average buf 20) ;;
    rsi14 <~ lift (calculate_rsi buf 14) ;;
    '(macd, macd_sig) <~ lift (calculate_macd buf 12 26 9) ;;
    match ma20, rsi14, macd, macd_sig with
    | Some ma, Some rsi, Some m, Some s =>
      '(act, col) <~ lift (get_action price ma20 rsi14 macd macd_sig) ;;
      let changed := action_changed act (last_action st) in
      match display (symbol cfg) buf act col ma20 rsi14 macd macd_sig with
      | (_, Some f) => Fails f
      | (_, None) =>
        _ <~ sleep (interval cfg) ;;
        Returns
          ({| prices := buf;
              last_action := if changed then Some act else last_action st |},
           (if changed then [Bell] else [])
             ++ [ClearTerminal;
                 Display (symbol cfg) buf act col ma rsi m s;
                 Sleep (interval cfg)])
      end
    | _, _, _, _ =>
      _ <~ sleep (interval cfg) ;;
      Returns ({| prices := buf; last_action := last_action st |},
               [ClearTerminal;
                PrintCollecting (length buf) (Nat.max (26 + 9) 20);
                Sleep (interval cfg)])
    end
  end.

(** The loop over the outcomes of its first fetches. *)
Fixpoint run (cfg : config num) (fs : list (fetch num)) (st : state num)
  : outcome (state num * list (output num)) :=
  match fs with
  | [] => Returns (st, [])
  | f :: rest =>
    '(st1, o1) <~ tick cfg f st ;;
    '(st2, o2) <~ run cfg rest st1 ;;
    Returns (st2, o1 ++ o2)
  end.

(** [soleur_helper(symbol, interval, history)] up to the end of the
    turns whose fetches are [fs]: the loop itself never returns. *)
Definition soleur_helper (cfg : config num) (fs : list (fetch num))
  : outcome (state num * list (output num)) :=
  '(st, out) <~ run cfg fs initial ;;
  Returns (st, PrintStarting (symbol cfg) (interval cfg) :: out).

(** What a turn whose fetch failed writes. *)
Definition retry_output (cfg : config num) (e : string)
  : list (output num) :=
  [PrintFetchError e; Sleep (interval cfg)].
End Loop.

(* ================================================================== *)
(** ** Vocabulary for the properties of the loop *)

(** The colour that goes with a suggestion. *)
Definition color_of (a : action) : color :=
  match a with
  | BUY => GREEN
  | SELL => RED
  | HOLD => YELLOW
  end.

(** Without rounding: the bar a price gets between [lo] and [hi], and
    the glyph of a bar. *)
Definition level (lo hi p : Q) : Z := Qfloor ((p - lo) / (hi - lo) * 7)%Q.
Definition glyph_at (i : Z) : N := (0x2581 + Z.to_N i)%N.

(** Without rounding: the sum of the gains of a list of deltas, and of
    its losses. *)
Definition total_gain (ds : list Q) : Q :=
  fold_right (fun d acc => if Qle_bool d 0 then acc else (d + acc)%Q) 0%Q ds.
Definition total_loss (ds : list Q) : Q :=
  fold_right (fun d acc => if Qle_bool d 0 then (acc - d)%Q else acc) 0%Q ds.

Section DisplaySound.
Context {num : Type} `{PyNum num}.

(** A [Display] that shows what the loop computed: the history has at
    least 35 and at most [history] prices, the three indicators are
    those of that history, and the suggestion is [get_action] at its
    newest price. *)
Definition display_sound (cfg : config num) (o : output num) : Prop :=
  match o with
  | Display sym b a c ma rsi m s =>
    sym = symbol cfg
    /\ 26 + 9 <= length b <= history cfg
    /\ moving_average b 20 = Ok (Some ma)
    /\ calculate_rsi b 14 = Ok (Some rsi)
    /\ calculate_macd b 12 26 9 = Ok (Some m, Some s)
    /\ exists price, getitem b (-1) = Ok price
                     /\ get_action price (Some ma) (Some rsi) (Some m) (Some s)
                        = Ok (a, c)
  | _ => True
  end.
End DisplaySound.

Section Traces.
Context {num : Type}.

(** The suggestions a run displayed, oldest first. *)
Fixpoint shown (out : list (output num)) : list action :=
  match out with
  | [] => []
  | Display _ _ a _ _ _ _ _ :: rest => a :: shown rest
  | _ :: rest => shown rest
  end.

(** The sleeps of a run, and its bells. *)
Fixpoint sleeps (out : list (output num)) : list num :=
  match out with
  | [] => []
  | Sleep t :: rest => t :: sleeps rest
  | _ :: rest => sleeps rest
  end.

Fixpoint bells (out : list (output num)) : nat :=
  match out with
  | [] => 0
  | Bell :: rest => S (bells rest)
  | _ :: rest => bells rest
  end.

(** How often a list of suggestions departs from the one before,
    starting after [last]. *)
Fixpoint changes (last : option action) (l : list action) : nat :=
  match l with
  | [] => 0
  | a :: rest =>
    (match last with
     | Some b => if action_eqb a b then 0 else 1
     | None => 1
     end) + changes (Some a) rest
  end.
End Traces.

(* ================================================================== *)
(** ** Python lists: indexing and slicing *)

Section PyListFacts.
Variable A : Type.
Implicit Types (l w : list A) (n k : nat).

Lemma bind_ok (B C : Type) (m : result B) (f : B -> result C) (c : C) :
  bind m f = Ok c -> exists b, m = Ok b /\ f b = Ok c.
Proof.
  destruct m as [b|e]; simpl; intros E; [eauto | discriminate].
Qed.

Lemma lastn_length n l : length (lastn n l) = Nat.min n (length l).
Proof. unfold lastn. rewrite length_skipn. lia. Qed.

Lemma lastn_all n l : length l <= n -> lastn n l = l.
Proof.
  intros Hn. unfold lastn.
  replace (length l - n) with 0 by lia. reflexivity.
Qed.

Lemma lastn_app n l w : n <= length w -> lastn n (l ++ w) = lastn n w.
Proof.
  intros Hn. unfold lastn. rewrite length_app.
  replace (length l + length w - n) with (length l + (length w - n)) by lia.
  rewrite skipn_app.
  replace (length l + (length w - n) - length l) with (length w - n) by lia.
  rewrite skipn_all2 by lia. reflexivity.
Qed.

Lemma lastn_split n l : exists pre, l = pre ++ lastn n l.
Proof.
  exists (firstn (length l - n) l). unfold lastn.
  symmetry. apply firstn_skipn.
Qed.

Lemma lastn_lastn_app n l w : lastn n (lastn n l ++ w) = lastn n (l ++ w).
Proof.
  destruct (Nat.le_gt_cases (length l) n) as [Hle|Hgt].
  - rewrite (lastn_all l Hle). reflexivity.
  - destruct (lastn_split n l) as [pre Hpre].
    rewrite Hpre at 2. rewrite <- app_assoc.
    apply eq_sym, lastn_app.
    rewrite length_app, lastn_length. lia.
Qed.

Lemma lastn_idem n l : lastn n (lastn n l) = lastn n l.
Proof. apply lastn_all. rewrite lastn_length. lia. Qed.

Lemma skipn_nth_error k l x :
  nth_error l k = Some x -> skipn k l = x :: skipn (S k) l.
Proof.
  revert l. induction k as [|k IH]; intros [|y l] E; simpl in E;
    try discriminate.
  - injection E as ->. reflexivity.
  - simpl. rewrite (IH l E). reflexivity.
Qed.

(** [l[-k]] is the head of the last [k] elements. *)
Lemma getitem_from_end k l :
  0 < k <= length l ->
  exists x, getitem l (- Z.of_nat k) = Ok x
            /\ lastn k l = x :: lastn (k - 1) l.
Proof.
  intros [Hk Hl]. unfold getitem, lastn.
  destruct (nth_error l (length l - k)) as [x|] eqn:E.
  2:{ apply nth_error_None in E. lia. }
  exists x. split.
  - replace (- Z.of_nat k <? 0)%Z with true by (symmetry; apply Z.ltb_lt; lia).
    replace (- Z.of_nat k + Z.of_nat (length l) <? 0)%Z with false
      by (symmetry; apply Z.ltb_ge; lia).
    replace (Z.of_nat (length l) <=? - Z.of_nat k + Z.of_nat (length l))%Z
      with false by (symmetry; apply Z.leb_gt; lia).
    simpl.
    replace (Z.to_nat (- Z.of_nat k + Z.of_nat (length l)))
      with (length l - k) by lia.
    rewrite E. reflexivity.
  - rewrite (skipn_nth_error _ _ E). f_equal. f_equal. lia.
Qed.

Lemma getitem_last l x : getitem (l ++ [x]) (-1) = Ok x.
Proof.
  destruct (@getitem_from_end 1 (l ++ [x])) as [y [Hy Hl]].
  { rewrite length_app. simpl. lia. }
  change (- Z.of_nat 1)%Z with (-1)%Z in Hy. rewrite Hy. f_equal.
  rewrite lastn_app in Hl by (simpl; lia).
  unfold lastn in Hl. simpl in Hl. congruence.
Qed.

(** [l[-n:]] is the last [n] elements, for [n] that is not [0]. *)
Lemma slice_from_neg n l : 0 < n -> slice_from (- Z.of_nat n) l = lastn n l.
Proof.
  intros Hn. unfold slice_from, lastn.
  replace (- Z.of_nat n <? 0)%Z with true by (symmetry; apply Z.ltb_lt; lia).
  f_equal. lia.
Qed.

(** [l[-0:]] is [l[0:]], the whole list. *)
Lemma slice_from_zero l : slice_from 0 l = l.
Proof.
  unfold slice_from. simpl.
  replace (Z.to_nat (Z.min 0 (Z.of_nat (length l)))) with 0 by lia.
  reflexivity.
Qed.

Lemma slice_from_whole l : slice_from (- Z.of_nat (length l)) l = l.
Proof.
  destruct l as [|a l]; [reflexivity|].
  rewrite slice_from_neg by (simpl; lia). apply lastn_all. lia.
Qed.

Lemma getitem_last_in l :
  0 < length l -> exists x, getitem l (-1) = Ok x /\ In x l.
Proof.
  intros Hl. destruct (@getitem_from_end 1 l) as [x [Hx E]]; [lia|].
  exists x. split; [exact Hx|].
  destruct (lastn_split 1 l) as [pre Hpre]. rewrite Hpre, E.
  apply in_or_app. right. now left.
Qed.

Lemma pop0_app l x : pop0 (l ++ [x]) = Ok (tl (l ++ [x])).
Proof. destruct l; reflexivity. Qed.
End PyListFacts.

Lemma range_neg_succ (m : nat) :
  range (- Z.of_nat (S m)) 0
  = (- Z.of_nat (S m))%Z :: range (- Z.of_nat m) 0.
Proof.
  unfold range.
  replace (Z.to_nat (0 - - Z.of_nat (S m))) with (S m) by lia.
  replace (Z.to_nat (0 - - Z.of_nat m)) with m by lia.
  rewrite <- cons_seq, <- seq_shift, map_cons, map_map.
  f_equal. apply map_ext. intros k. lia.
Qed.

(* ================================================================== *)
(** ** The indicators, for every reading of the arithmetic *)

Section IndicatorFacts.
Context {num : Type} `{PyNum num}.
Implicit Types (prices series w : list num) (period : nat).

Lemma lastn_one prices :
  1 <= length prices -> exists x, lastn 1 prices = [x].
Proof.
  intros Hl. destruct (@getitem_from_end num 1 prices) as [x [_ E]]; [lia|].
  exists x. rewrite E. unfold lastn. simpl.
  rewrite Nat.sub_0_r, skipn_all. reflexivity.
Qed.

(** The loop of [calculate_rsi] reads the deltas of the window, oldest
    first, and never indexes out of range. *)
Lemma rsi_loop_window period : forall prices acc,
  period + 1 <= length prices ->
  rsi_loop prices (range (- Z.of_nat period) 0) acc
  = Ok (fold_left rsi_step (window_deltas prices period) acc).
Proof.
  induction period as [|m IH]; intros prices acc Hl.
  - destruct (lastn_one prices) as [x E]; [lia|].
    unfold window_deltas. simpl. rewrite E. reflexivity.
  - rewrite range_neg_succ. cbn [rsi_loop].
    destruct (@getitem_from_end num (S m) prices) as [a [Ha Ea]]; [lia|].
    destruct (@getitem_from_end num (S (S m)) prices) as [b [Hb Eb]]; [lia|].
    rewrite Ha. cbn [bind].
    replace (- Z.of_nat (S m) - 1)%Z with (- Z.of_nat (S (S m)))%Z by lia.
    rewrite Hb. cbn [bind].
    rewrite IH by lia. f_equal.
    unfold window_deltas.
    replace (S m + 1) with (S (S m)) by lia.
    replace (m + 1) with (S m) by lia.
    rewrite Eb. cbn [Nat.sub]. rewrite Ea. reflexivity.
Qed.

Lemma calculate_rsi_window prices period :
  period + 1 <= length prices ->
  calculate_rsi prices period
  = rsi_finish
      (fold_left rsi_step (window_deltas prices period) (of_int 0, of_int 0))
      period.
Proof.
  intros Hl. unfold calculate_rsi.
  replace (length prices <? period + 1) with false
    by (symmetry; apply Nat.ltb_ge; lia).
  rewrite rsi_loop_window by lia. reflexivity.
Qed.

Lemma calculate_rsi_short prices period :
  length prices <= period -> calculate_rsi prices period = Ok None.
Proof.
  intros Hl. unfold calculate_rsi.
  replace (length prices <? period + 1) with true
    by (symmetry; apply Nat.ltb_lt; lia).
  reflexivity.
Qed.

Lemma rsi_finish_present acc period : rsi_finish acc period <> Ok None.
Proof.
  unfold rsi_finish. destruct acc as [gains losses].
  destruct period as [|p]; simpl; [discriminate|].
  destruct (eqb _ _); [discriminate|].
  unfold truediv.
  destruct (eqb (quot losses _) _); simpl; [discriminate|].
  destruct (eqb (add _ _) _); simpl; discriminate.
Qed.

Lemma calculate_rsi_absent_iff prices period :
  calculate_rsi prices period = Ok None <-> length prices <= period.
Proof.
  split; [|apply calculate_rsi_short].
  intros E. destruct (Nat.le_gt_cases (length prices) period) as [|Hgt];
    [assumption|].
  rewrite calculate_rsi_window in E by lia.
  now apply rsi_finish_present in E.
Qed.

Lemma window_deltas_lastn prices period :
  window_deltas (lastn (period + 1) prices) period
  = window_deltas prices period.
Proof. unfold window_deltas. now rewrite lastn_idem. Qed.

(* ---------------------------------------------------------------- *)

Lemma ema_loop_tail k : forall series out prev,
  ema_loop k (combine (seq (length (out ++ [prev])) (length series)) series)
           (out ++ [prev])
  = Ok ((out ++ [prev]) ++ ema_tail k prev series).
Proof.
  induction series as [|v rest IH]; intros out prev.
  - simpl. now rewrite app_nil_r.
  - cbn [length seq combine ema_loop ema_tail].
    replace (Nat.eqb (length (out ++ [prev])) 0) with false
      by (rewrite length_app; simpl; symmetry; apply Nat.eqb_neq; lia).
    rewrite getitem_last. cbn [bind].
    fold (ema_step k prev v).
    replace (S (length (out ++ [prev])))
      with (length ((out ++ [prev]) ++ [ema_step k prev v]))
      by (rewrite (length_app (out ++ [prev])); simpl; lia).
    rewrite IH. now rewrite <- app_assoc.
Qed.

(** The loop of [ema] computes the recurrence, and its [out[-1]] is
    always in range. *)
Lemma ema_loop_series k series :
  ema_loop k (enumerate series) [] = Ok (ema_series k series).
Proof.
  destruct series as [|v rest]; [reflexivity|].
  unfold enumerate. cbn [length seq combine ema_loop Nat.eqb].
  exact (ema_loop_tail k rest [] v).
Qed.

Lemma ema_ok series period k :
  smoothing period = Ok k -> ema series period = Ok (ema_series k series).
Proof. intros E. unfold ema. rewrite E. apply ema_loop_series. Qed.

Lemma ema_raise series period e :
  smoothing period = Raise e -> ema series period = Raise e.
Proof. intros E. unfold ema. now rewrite E. Qed.

Lemma ema_tail_length k : forall series prev,
  length (ema_tail k prev series) = length series.
Proof. induction series; intros; simpl; auto. Qed.

Lemma ema_series_length k series :
  length (ema_series k series) = length series.
Proof. destruct series; simpl; [|rewrite ema_tail_length]; reflexivity. Qed.

Lemma ema_tail_nth k : forall series prev i v p,
  nth_error series i = Some v ->
  nth_error (prev :: ema_tail k prev series) i = Some p ->
  nth_error (ema_tail k prev series) i = Some (ema_step k p v).
Proof.
  induction series as [|x rest IH]; intros prev [|i] v p Ev Ep;
    simpl in Ev; try discriminate.
  - injection Ev as ->. simpl in Ep. injection Ep as ->. reflexivity.
  - cbn [ema_tail nth_error] in *. now apply IH.
Qed.

(** Each output after the first is one step from the output before. *)
Lemma ema_series_step k series i v p :
  nth_error series (S i) = Some v ->
  nth_error (ema_series k series) i = Some p ->
  nth_error (ema_series k series) (S i) = Some (ema_step k p v).
Proof.
  destruct series as [|x rest]; [discriminate|].
  cbn [ema_series]. intros Ev Ep. simpl in Ev.
  change (nth_error (ema_tail k x rest) i = Some (ema_step k p v)).
  now apply ema_tail_nth.
Qed.

End IndicatorFacts.

(* ================================================================== *)
(** ** Moving average, EMA and the RSI window *)

Section IndicatorClaims.
Context {num : Type} `{PyNum num}.
Implicit Types (prices series : list num) (period : nat).

Lemma moving_average_short prices period :
  length prices < period -> moving_average prices period = Ok None.
Proof.
  intros Hl. unfold moving_average.
  now replace (length prices <? period) with true
    by (symmetry; apply Nat.ltb_lt; lia).
Qed.

Lemma moving_average_window prices period :
  period <= length prices ->
  moving_average prices period
  = (m <- truediv_int (sum (lastn period prices)) period ;; Ok (Some m)).
Proof.
  intros Hl. unfold moving_average.
  replace (length prices <? period) with false
    by (symmetry; apply Nat.ltb_ge; lia).
  destruct period as [|p]; [reflexivity|].
  now rewrite slice_from_neg by lia.
Qed.

Lemma moving_average_present prices period :
  0 < period <= length prices ->
  moving_average prices period
  = Ok (Some (quot (fold_left add (lastn period prices) (of_int 0))
                   (of_int (Z.of_nat period)))).
Proof.
  intros [Hp Hl]. rewrite moving_average_window by assumption.
  destruct period as [|p]; [lia|]. reflexivity.
Qed.

(** C6: on a series that is not empty, [ema] returns a sequence as long
    as its input, whose first element is the first input and whose
    element at each later position [i] is
    [input[i]*k + output[i-1]*(1-k)] with [k = 2/(period+1)]; on one
    element it returns that element.  ([k] exists unless
    [period + 1.0 == 0], which no count reaches; the division would
    then raise.) *)
Theorem C6_ema_recurrence series period :
  series <> [] ->
  if eqb (add (of_int (Z.of_nat period)) (of_int 1)) (of_int 0)
  then ema series period = Raise ZeroDivisionError
  else
    let k := quot (of_int 2) (add (of_int (Z.of_nat period)) (of_int 1)) in
    exists out,
      ema series period = Ok out
      /\ length out = length series
      /\ nth_error out 0 = nth_error series 0
      /\ (forall i v p,
            nth_error series (S i) = Some v ->
            nth_error out i = Some p ->
            nth_error out (S i)
            = Some (add (mul v k) (mul p (sub (of_int 1) k))))
      /\ (forall x, series = [x] -> out = [x]).
Proof.
  intros Hne.
  destruct (eqb _ _) eqn:E.
  - apply ema_raise. unfold smoothing, truediv. now rewrite E.
  - intros k. exists (ema_series k series).
    split; [apply ema_ok; unfold smoothing, truediv; now rewrite E|].
    split; [apply ema_series_length|].
    split; [destruct series; [contradiction|reflexivity]|].
    split; [intros i v p; apply ema_series_step|].
    intros x ->. reflexivity.
Qed.

(** C10: with at least [period + 1] prices, [calculate_rsi] reads only
    the last [period + 1] of them: it returns the same on
    [prices[-(period+1):]]. *)
Theorem C10_rsi_reads_window prices period :
  period + 1 <= length prices ->
  calculate_rsi prices period
  = calculate_rsi (slice_from (- Z.of_nat (period + 1)) prices) period.
Proof.
  intros Hl. rewrite slice_from_neg by lia.
  rewrite (calculate_rsi_window prices) by assumption.
  rewrite (calculate_rsi_window (lastn (period + 1) prices))
    by (rewrite lastn_length; lia).
  now rewrite window_deltas_lastn.
Qed.

End IndicatorClaims.

(* ================================================================== *)
(** ** The loop: rolling buffer and fetch failures *)

Section LoopClaims.
Context {num : Type} `{PyNum num} `{PyTrunc num}.
Implicit Types (buf vs : list num) (cfg : config num) (st : state num)
  (fs : list (fetch num)).

Lemma and_then_returns (B C : Type) (m : outcome B) (f : B -> outcome C)
  (c : C) :
  and_then m f = Returns c -> exists b, m = Returns b /\ f b = Returns c.
Proof. destruct m as [b|e]; simpl; [eauto|discriminate]. Qed.

Lemma lift_returns (B : Type) (r : result B) (b : B) :
  lift r = Returns b -> r = Ok b.
Proof. destruct r; simpl; congruence. Qed.

(** While the buffer is within its capacity, [pop(0)] finds an element
    and the append step keeps the most recent [capacity] prices. *)
Lemma append_price_ok capacity price buf :
  length buf <= capacity ->
  append_price capacity price buf = Ok (lastn capacity (buf ++ [price])).
Proof.
  intros Hl. unfold append_price.
  destruct (capacity <? length (buf ++ [price])) eqn:E.
  - apply Nat.ltb_lt in E. rewrite length_app in E. simpl in E.
    rewrite pop0_app. f_equal. unfold lastn.
    rewrite length_app. simpl.
    replace (length buf + 1 - capacity) with 1 by lia.
    now destruct (buf ++ [price]).
  - apply Nat.ltb_ge in E. now rewrite lastn_all.
Qed.

Lemma append_all_ok capacity vs : forall buf,
  length buf <= capacity ->
  append_all capacity vs buf = Ok (lastn capacity (buf ++ vs)).
Proof.
  induction vs as [|v rest IH]; intros buf Hl.
  - simpl. now rewrite app_nil_r, lastn_all.
  - cbn [append_all]. rewrite append_price_ok by assumption. cbn [bind].
    rewrite IH by (rewrite lastn_length; lia).
    rewrite lastn_lastn_app, <- app_assoc. reflexivity.
Qed.

(** A turn returns only if its [time.sleep] did. *)
Lemma tick_sleeps cfg f st st' out :
  tick cfg f st = Returns (st', out) -> sleep (interval cfg) = Returns tt.
Proof.
  assert (S : forall (C : Type) (k : unit -> outcome C) (c : C),
             (_ <~ sleep (interval cfg) ;; k tt) = Returns c ->
             sleep (interval cfg) = Returns tt).
  { intros C k c E. now destruct (sleep (interval cfg)) as [[]|]. }
  destruct f as [price|e]; cbn [tick]; intros E.
  - apply and_then_returns in E. destruct E as [buf [_ E]].
    apply and_then_returns in E. destruct E as [ma [_ E]].
    apply and_then_returns in E. destruct E as [rsi [_ E]].
    apply and_then_returns in E. destruct E as [[m sg] [_ E]].
    destruct ma, rsi, m, sg;
      try (exact (S _ (fun _ => Returns _) _ E)).
    apply and_then_returns in E. destruct E as [[act col] [_ E]].
    destruct (display _ _ _ _ _ _ _ _) as [ls [fl|]]; [discriminate|].
    exact (S _ (fun _ => Returns _) _ E).
  - exact (S _ (fun _ => Returns _) _ E).
Qed.

(** A turn changes the buffer by the append step only. *)
Lemma tick_prices cfg f st st' out :
  tick cfg f st = Returns (st', out) ->
  match f with
  | Fetched price =>
    append_price (history cfg) price (prices st) = Ok (prices st')
  | FetchFailed _ => st' = st
  end.
Proof.
  intros E. pose proof (tick_sleeps _ _ _ E) as Hs. revert E.
  destruct f as [price|e]; cbn [tick]; rewrite ?Hs; cbn [and_then];
    intros E; [|congruence].
  destruct (append_price _ _ _) as [buf|]; [|discriminate].
  cbn [lift and_then] in E.
  destruct (moving_average buf 20) as [ma|]; [|discriminate].
  destruct (calculate_rsi buf 14) as [rsi|]; [|discriminate].
  destruct (calculate_macd buf 12 26 9) as [[m sg]|]; [|discriminate].
  cbn [lift and_then] in E.
  destruct ma, rsi, m, sg; rewrite ?Hs in E; cbn [and_then] in E;
    try (injection E as <- _; reflexivity).
  destruct (get_action _ _ _ _ _) as [[act col]|]; [|discriminate].
  cbn [lift and_then] in E.
  destruct (display _ _ _ _ _ _ _ _) as [ls [fl|]]; [discriminate|].
  cbn [and_then] in E. injection E as <- _. reflexivity.
Qed.

Lemma run_prices cfg fs : forall st st' out,
  length (prices st) <= history cfg ->
  run cfg fs st = Returns (st', out) ->
  prices st' = lastn (history cfg) (prices st ++ fetched_prices fs).
Proof.
  induction fs as [|f rest IH]; intros st st' out Hl E.
  - simpl in E. injection E as <- _. simpl.
    now rewrite app_nil_r, lastn_all.
  - cbn [run] in E.
    apply and_then_returns in E. destruct E as [[st1 o1] [E1 E]].
    apply and_then_returns in E. destruct E as [[st2 o2] [E2 E]].
    injection E as <- _.
    apply tick_prices in E1. destruct f as [price|e].
    + rewrite append_price_ok in E1 by assumption. injection E1 as E1.
      rewrite (IH _ _ _ ltac:(rewrite <- E1, lastn_length; lia) E2).
      rewrite <- E1, lastn_lastn_app, <- app_assoc. reflexivity.
    + subst st1. exact (IH _ _ _ Hl E2).
Qed.

Lemma run_app cfg fs1 : forall fs2 st,
  run cfg (fs1 ++ fs2) st
  = ('(st1, o1) <~ run cfg fs1 st ;;
     '(st2, o2) <~ run cfg fs2 st1 ;;
     Returns (st2, o1 ++ o2)).
Proof.
  induction fs1 as [|f rest IH]; intros fs2 st.
  - simpl. destruct (run cfg fs2 st) as [[st2 o2]|]; reflexivity.
  - cbn [app run]. destruct (tick cfg f st) as [[st1 o1]|]; [|reflexivity].
    cbn [and_then]. rewrite IH.
    destruct (run cfg rest st1) as [[st2 o2]|]; [|reflexivity].
    cbn [and_then].
    destruct (run cfg fs2 st2) as [[st3 o3]|]; [|reflexivity].
    cbn [and_then]. now rewrite app_assoc.
Qed.

Lemma run_failures cfg st (es : list string) :
  sleep (interval cfg) = Returns tt ->
  run cfg (map (@FetchFailed num) es) st
  = Returns (st, flat_map (retry_output cfg) es).
Proof.
  intros Hs. induction es as [|e rest IH]; [reflexivity|].
  cbn [map run tick]. rewrite Hs. cbn [and_then]. rewrite IH. reflexivity.
Qed.

(** C8: the buffer, empty at the start and changed by the append step
    alone, never holds more than its capacity and drops the oldest
    price first: after the prices [vs] it holds the last [capacity] of
    them in their order, so after [capacity + 1] prices all but the
    first; and so does the buffer of the loop after any run. *)
Theorem C8_rolling_buffer cfg vs fs :
  append_all (history cfg) vs [] = Ok (lastn (history cfg) vs)
  /\ length (lastn (history cfg) vs) <= history cfg
  /\ (length vs = history cfg + 1 ->
      append_all (history cfg) vs [] = Ok (tl vs))
  /\ (forall st' out,
        soleur_helper cfg fs = Returns (st', out) ->
        prices st' = lastn (history cfg) (fetched_prices fs)
        /\ length (prices st') <= history cfg).
Proof.
  split; [rewrite append_all_ok by (simpl; lia); reflexivity|].
  split; [rewrite lastn_length; lia|].
  split.
  - intros Hl.
    rewrite append_all_ok by (simpl; lia).
    simpl. unfold lastn. rewrite Hl.
    replace (history cfg + 1 - history cfg) with 1 by lia.
    now destruct vs.
  - intros st' out E. unfold soleur_helper in E.
    apply and_then_returns in E. destruct E as [[st1 o1] [E E1]].
    injection E1 as <- _.
    apply run_prices in E; [|simpl; lia]. simpl in E.
    split; [assumption|]. rewrite E, lastn_length. lia.
Qed.

(** C9: with an interval that [time.sleep] accepts, a turn whose fetch
    raised, whatever the exception, leaves the buffer and the previous
    action as they were, reports the error and sleeps for the interval;
    the loop goes on, after any number of failures in a row.  With an
    interval that [time.sleep] refuses, its exception is raised inside
    the handler and the first failed fetch ends the program. *)
Theorem C9_fetch_failure_retries cfg st (es : list string) fs :
  (sleep (interval cfg) = Returns tt ->
   (forall e, tick cfg (FetchFailed e) st = Returns (st, retry_output cfg e))
   /\ run cfg (map (@FetchFailed num) es) st
      = Returns (st, flat_map (retry_output cfg) es)
   /\ run cfg (map (@FetchFailed num) es ++ fs) st
      = ('(st', out) <~ run cfg fs st ;;
         Returns (st', flat_map (retry_output cfg) es ++ out)))
  /\ (forall x, sleep (interval cfg) = Fails x ->
      forall e, tick cfg (FetchFailed e) st = Fails x
                /\ run cfg (FetchFailed e :: fs) st = Fails x).
Proof.
  split.
  - intros Hs.
    split; [intros e; cbn [tick]; now rewrite Hs|].
    split; [now apply run_failures|].
    rewrite run_app, run_failures by assumption. reflexivity.
  - intros x Hs e. cbn [run tick]. now rewrite Hs.
Qed.

End LoopClaims.

Section Binary64Loop.
Local Open Scope float_scope.

(** C9 as the specification words it fails for an interval that
    [time.sleep] refuses: with an interval of -1 the handler of a failed
    fetch prints its message and then raises [ValueError] from
    [time.sleep], outside any [try]; the turn does not return and the
    loop does not retry. *)
Lemma C9_refused_interval_fatal :
  sleep (interval negative_config) = Fails ValueError
  /\ tick negative_config (FetchFailed "timeout") initial = Fails ValueError
  /\ ~ (tick negative_config (FetchFailed "timeout") initial
        = Returns (initial, retry_output negative_config "timeout"))
  /\ forall fs, soleur_helper negative_config (FetchFailed "timeout" :: fs)
                = Fails ValueError.
Proof.
  assert (Hs : sleep (interval negative_config) = Fails ValueError)
    by (vm_compute; reflexivity).
  assert (Ht : tick negative_config (FetchFailed "timeout") initial
               = Fails ValueError)
    by (cbn [tick]; now rewrite Hs).
  split; [exact Hs|]. split; [exact Ht|].
  split; [rewrite Ht; discriminate|].
  intros fs. unfold soleur_helper. cbn [run]. now rewrite Ht.
Qed.
End Binary64Loop.

(* ================================================================== *)
(** ** The decision rule *)

Section DecisionFacts.
Context {num : Type} `{PyNum num}.

(** [price > ma20] is evaluated first, and [ma20] has no [None] test. *)
Lemma get_action_ma20_absent (price : num) rsi14 macd macd_signal :
  get_action price None rsi14 macd macd_signal = Raise TypeError.
Proof. reflexivity. Qed.

Lemma buy_rest_absent (rsi14 macd macd_signal : option num) :
  rsi14 = None \/ macd = None \/ macd_signal = None ->
  buy_rest rsi14 macd macd_signal = false.
Proof.
  intros Habs. unfold buy_rest.
  destruct rsi14, macd, macd_signal; try reflexivity;
    try apply andb_false_r.
  destruct Habs as [E|[E|E]]; discriminate.
Qed.

Lemma sell_rest_absent (rsi14 macd macd_signal : option num) :
  rsi14 = None \/ macd = None \/ macd_signal = None ->
  sell_rest rsi14 macd macd_signal = false.
Proof.
  intros Habs. unfold sell_rest.
  destruct rsi14, macd, macd_signal; try reflexivity;
    try apply andb_false_r.
  destruct Habs as [E|[E|E]]; discriminate.
Qed.

(** With [ma20] present, any other absent indicator gives HOLD. *)
Lemma get_action_other_absent (price ma : num) rsi14 macd macd_signal :
  rsi14 = None \/ macd = None \/ macd_signal = None ->
  get_action price (Some ma) rsi14 macd macd_signal = Ok (HOLD, YELLOW).
Proof.
  intros Habs. unfold get_action. cbn [gt_value lt_value bind].
  rewrite (buy_rest_absent Habs), (sell_rest_absent Habs).
  now rewrite !andb_false_r.
Qed.

(** The rule on four present indicators, in the order of its tests. *)
Lemma get_action_present (price ma rsi m s : num) :
  get_action price (Some ma) (Some rsi) (Some m) (Some s)
  = if gtb price ma && (ltb rsi (of_int 35) && gtb m s)
    then Ok (BUY, GREEN)
    else if ltb price ma && (gtb rsi (of_int 65) && ltb m s)
         then Ok (SELL, RED)
         else Ok (HOLD, YELLOW).
Proof. reflexivity. Qed.
End DecisionFacts.

(* ================================================================== *)
(** ** Facts of binary64 arithmetic *)

Section Binary64.
Local Open Scope float_scope.

(** Two floats that [==] tells apart are different. *)
Lemma float_neq (x y : float) : (x =? y) = false -> (x =? x) = true -> x <> y.
Proof. intros Hxy Hxx E. rewrite <- E in Hxy. congruence. Qed.

Lemma SFcompare_swap (x y : spec_float) :
  SFcompare y x = option_map CompOpp (SFcompare x y).
Proof.
  destruct x as [sx|sx| |sx mx ex], y as [sy|sy| |sy my ey];
    try reflexivity;
    try (destruct sx; reflexivity);
    try (destruct sy; reflexivity);
    try (destruct sx, sy; reflexivity).
  simpl. f_equal.
  rewrite (Z.compare_antisym ey ex).
  pose proof (Pos.compare_cont_antisym mx my Eq) as Hm. simpl in Hm.
  destruct sx, sy; try reflexivity;
    destruct (ey ?= ex)%Z; simpl; try reflexivity;
    rewrite <- Hm, ?CompOpp_involutive; reflexivity.
Qed.

(** [<] on floats is asymmetric (and false on NaN). *)
Lemma float_ltb_asym (x y : float) : (x <? y) = true -> (y <? x) = false.
Proof.
  rewrite !FloatAxioms.ltb_spec. unfold SFltb.
  rewrite (SFcompare_swap (Prim2SF x) (Prim2SF y)).
  now destruct (SFcompare (Prim2SF x) (Prim2SF y)) as [[| |]|].
Qed.

(** A float that [== 0] is one of the two zeros. *)
Lemma float_eqb_zero (d : float) :
  (d =? 0) = true -> exists s, Prim2SF d = S754_zero s.
Proof.
  rewrite FloatAxioms.eqb_spec. unfold SFeqb.
  change (Prim2SF 0) with (S754_zero false).
  destruct (Prim2SF d) as [s|s| |s m e]; simpl; try discriminate.
  - eauto.
  - destruct s; discriminate.
  - destruct s; discriminate.
Qed.

(** [0.0 - d] is [0.0] for [d == 0]. *)
Lemma float_zero_sub (d : float) : (d =? 0) = true -> 0 - d = 0.
Proof.
  intros E. destruct (float_eqb_zero E) as [s Hs].
  apply Prim2SF_inj. rewrite FloatAxioms.sub_spec, Hs.
  now destruct s.
Qed.

(** [0.0 / y] is [0.0] for [y > 0]. *)
Lemma float_zero_div (y : float) : (0 <? y) = true -> 0 / y = 0.
Proof.
  rewrite FloatAxioms.ltb_spec. unfold SFltb.
  change (Prim2SF 0) with (S754_zero false). intros E.
  apply Prim2SF_inj. rewrite FloatAxioms.div_spec.
  change (Prim2SF 0) with (S754_zero false).
  destruct (Prim2SF y) as [s|s| |s m e]; simpl in E; try discriminate;
    destruct s; try discriminate; reflexivity.
Qed.
End Binary64.

(* ================================================================== *)
(** ** MACD: absence, and constant series *)

Section MacdFacts.
Context {num : Type} `{PyNum num}.
Implicit Types (prices series : list num) (fast slow signal : nat).

Lemma calculate_macd_short prices fast slow signal :
  length prices < slow + signal ->
  calculate_macd prices fast slow signal = Ok (None, None).
Proof.
  intros Hl. unfold calculate_macd.
  now replace (length prices <? slow + signal) with true
    by (symmetry; apply Nat.ltb_lt; lia).
Qed.

Lemma calculate_macd_absent_iff prices fast slow signal :
  calculate_macd prices fast slow signal = Ok (None, None)
  <-> length prices < slow + signal.
Proof.
  split; [|apply calculate_macd_short].
  intros E.
  destruct (Nat.lt_ge_cases (length prices) (slow + signal)) as [|Hge];
    [assumption|exfalso].
  unfold calculate_macd in E.
  replace (length prices <? slow + signal) with false in E
    by (symmetry; apply Nat.ltb_ge; lia).
  repeat (apply bind_ok in E; destruct E as [? [_ E]]).
  discriminate.
Qed.

Lemma getitem_last_repeat (z : num) n :
  0 < n -> getitem (repeat z n) (-1) = Ok z.
Proof.
  destruct n as [|m]; [lia|]. intros _.
  rewrite <- (getitem_last (repeat z m) z). f_equal.
  apply repeat_cons.
Qed.

Lemma ema_tail_constant k v n :
  ema_step k v v = v -> ema_tail k v (repeat v n) = repeat v n.
Proof.
  intros Hv. induction n as [|n IH]; [reflexivity|].
  cbn [repeat ema_tail]. rewrite Hv, IH. reflexivity.
Qed.

Lemma ema_constant period v n :
  ema_keeps period v -> ema (repeat v n) period = Ok (repeat v n).
Proof.
  intros [k [Hk Hv]]. unfold ema. rewrite Hk. cbn [bind].
  rewrite ema_loop_series. f_equal.
  destruct n as [|n]; [reflexivity|].
  cbn [repeat ema_series]. now rewrite ema_tail_constant.
Qed.

Lemma macd_line_constant (v : num) n :
  map (fun fs => sub (fst fs) (snd fs)) (combine (repeat v n) (repeat v n))
  = repeat (sub v v) n.
Proof. induction n as [|n IH]; simpl; [|rewrite IH]; reflexivity. Qed.

(** On a constant series that both EMAs reproduce, the MACD line is
    the series of [v - v], and so is its signal line when the third
    EMA reproduces that value. *)
Lemma calculate_macd_constant v n fast slow signal :
  0 < n -> slow + signal <= n ->
  ema_keeps fast v -> ema_keeps slow v -> ema_keeps signal (sub v v) ->
  calculate_macd (repeat v n) fast slow signal
  = Ok (Some (sub v v), Some (sub v v)).
Proof.
  intros Hn Hl Hf Hs Hg. unfold calculate_macd.
  rewrite repeat_length.
  replace (n <? slow + signal) with false
    by (symmetry; apply Nat.ltb_ge; lia).
  rewrite (ema_constant n Hf), (ema_constant n Hs). cbn [bind].
  rewrite slice_from_whole, macd_line_constant.
  rewrite (ema_constant n Hg). cbn [bind].
  rewrite !getitem_last_repeat by assumption. reflexivity.
Qed.
End MacdFacts.

(* ================================================================== *)
(** ** The indicators computed without rounding *)

Section Exact.
Local Open Scope Q_scope.
Implicit Types (v c k : Q).

Lemma exact_of_nat_nonneg (p : nat) : 0 <= inject_Z (Z.of_nat p).
Proof. unfold Qle. simpl. lia. Qed.

Lemma exact_of_nat_pos (p : nat) : 0 < inject_Z (Z.of_nat (S p)).
Proof. unfold Qlt. simpl. lia. Qed.

(** The comparisons of the source are the order of the rationals. *)
Lemma exact_ltb (x y : Q) : ltb x y = true <-> x < y.
Proof.
  cbn [ltb exact]. rewrite negb_true_iff.
  split.
  - intros E. apply Qnot_le_lt. intros Hle.
    apply Qle_bool_iff in Hle. congruence.
  - intros Hlt. destruct (Qle_bool y x) eqn:E; [|reflexivity].
    apply Qle_bool_iff in E. lra.
Qed.

Lemma exact_eqb (x y : Q) : eqb x y = true <-> x == y.
Proof. apply Qeq_bool_iff. Qed.

Lemma exact_nonneg (d : Q) : nonneg d = true <-> 0 <= d.
Proof.
  unfold nonneg. rewrite orb_true_iff, exact_ltb, exact_eqb.
  change (of_int 0) with 0. lra.
Qed.

(** [period + 1] is never 0: every smoothing factor exists. *)
Lemma exact_smoothing (p : nat) :
  smoothing (num:=Q) p = Ok (2 / (inject_Z (Z.of_nat p) + 1)).
Proof.
  unfold smoothing, truediv.
  destruct (eqb _ _) eqn:E; [|reflexivity].
  apply exact_eqb in E. cbn [add of_int exact] in E.
  pose proof (exact_of_nat_nonneg p).
  change (inject_Z 1) with 1 in E. change (inject_Z 0) with 0 in E. lra.
Qed.

(** A step between two values equal to [c] gives [c]: the weights [k]
    and [1 - k] add up to 1. *)
Lemma exact_ema_step k prev v c :
  prev == c -> v == c -> ema_step k prev v == c.
Proof.
  intros Hp Hv. unfold ema_step. cbn [add mul sub of_int exact].
  rewrite Hp, Hv. change (inject_Z 1) with 1. ring.
Qed.

Lemma exact_ema_tail k c : forall series prev,
  prev == c -> Forall (fun x => x == c) series ->
  Forall (fun x => x == c) (ema_tail k prev series).
Proof.
  induction series as [|v rest IH]; intros prev Hp Hs; [constructor|].
  inversion Hs as [|? ? Hv Hrest]; subst.
  cbn [ema_tail]. constructor.
  - now apply exact_ema_step.
  - apply IH; [now apply exact_ema_step|assumption].
Qed.

Lemma exact_ema_series k c series :
  Forall (fun x => x == c) series ->
  Forall (fun x => x == c) (ema_series k series).
Proof.
  intros Hs. destruct series as [|v rest]; [constructor|].
  inversion Hs; subst. cbn [ema_series]. constructor; [assumption|].
  now apply exact_ema_tail.
Qed.

Lemma exact_macd_line c : forall (a b : list Q),
  Forall (fun x => x == c) a -> Forall (fun x => x == c) b ->
  Forall (fun x => x == 0)
         (map (fun fs => sub (fst fs) (snd fs)) (combine a b)).
Proof.
  induction a as [|x a IH]; intros [|y b] Ha Hb; try constructor.
  - inversion Ha; inversion Hb; subst. cbn [fst snd sub exact]. lra.
  - inversion Ha; inversion Hb; subst. now apply IH.
Qed.

Lemma exact_ema (series : list Q) (period : nat) :
  ema series period
  = Ok (ema_series (2 / (inject_Z (Z.of_nat period) + 1)) series).
Proof. unfold ema. rewrite exact_smoothing. apply ema_loop_series. Qed.

(** On a constant series both EMAs stay at the constant, the MACD line
    at 0, and so does its signal line. *)
Lemma exact_macd_constant v (n fast slow signal : nat) :
  (0 < n)%nat -> (slow + signal <= n)%nat ->
  exists m s,
    calculate_macd (repeat v n) fast slow signal = Ok (Some m, Some s)
    /\ m == 0 /\ s == 0.
Proof.
  intros Hn Hl. unfold calculate_macd.
  rewrite repeat_length.
  replace (n <? slow + signal)%nat with false
    by (symmetry; apply Nat.ltb_ge; lia).
  rewrite !exact_ema. cbn [bind].
  set (F := ema_series (2 / (inject_Z (Z.of_nat fast) + 1)) (repeat v n)).
  set (S := ema_series (2 / (inject_Z (Z.of_nat slow) + 1)) (repeat v n)).
  assert (HF : Forall (fun x => x == v) F).
  { apply exact_ema_series, Forall_forall. intros x Hx.
    apply repeat_spec in Hx. now subst. }
  assert (HS : Forall (fun x => x == v) S).
  { apply exact_ema_series, Forall_forall. intros x Hx.
    apply repeat_spec in Hx. now subst. }
  assert (LF : length F = n)
    by (unfold F; now rewrite ema_series_length, repeat_length).
  assert (LS : length S = n)
    by (unfold S; now rewrite ema_series_length, repeat_length).
  rewrite LS, <- LF, slice_from_whole.
  set (L := map _ (combine F S)).
  assert (HL : Forall (fun x => x == 0) L)
    by (apply exact_macd_line with (c := v); assumption).
  assert (LL : length L = n)
    by (unfold L; rewrite length_map, length_combine; lia).
  rewrite exact_ema. cbn [bind].
  set (G := ema_series _ L).
  assert (HG : Forall (fun x => x == 0) G) by (now apply exact_ema_series).
  assert (LG : length G = n) by (unfold G; now rewrite ema_series_length).
  destruct (@getitem_last_in Q L) as [m [Hm Im]]; [lia|].
  destruct (@getitem_last_in Q G) as [s [Hs Is]]; [lia|].
  rewrite Hm, Hs. cbn [bind]. exists m, s.
  rewrite Forall_forall in HL, HG. auto.
Qed.

(** A turn of the loop keeps [gains] and [losses] non-negative, and
    leaves [losses] as it was exactly on a delta that is [>= 0]. *)
Lemma exact_rsi_step (g l d : Q) :
  0 <= g -> 0 <= l ->
  0 <= fst (rsi_step (g, l) d)
  /\ l <= snd (rsi_step (g, l) d)
  /\ (snd (rsi_step (g, l) d) == l <-> nonneg d = true).
Proof.
  intros Hg Hl. rewrite exact_nonneg. unfold rsi_step, gtb.
  destruct (ltb (of_int 0) d) eqn:E.
  - apply exact_ltb in E. change (of_int 0) with 0 in E.
    cbn [fst snd add exact]. lra.
  - assert (Hd : d <= 0).
    { apply Qnot_lt_le. intros Hlt. apply exact_ltb in Hlt.
      change (of_int 0) with 0 in E. congruence. }
    cbn [fst snd sub exact]. lra.
Qed.

Lemma exact_rsi_fold : forall (ds : list Q) (g l : Q),
  0 <= g -> 0 <= l ->
  0 <= fst (fold_left rsi_step ds (g, l))
  /\ l <= snd (fold_left rsi_step ds (g, l))
  /\ (snd (fold_left rsi_step ds (g, l)) == l
      <-> Forall (fun d => nonneg d = true) ds).
Proof.
  induction ds as [|d rest IH]; intros g l Hg Hl.
  - simpl. repeat split; try lra; auto.
  - cbn [fold_left].
    destruct (@exact_rsi_step g l d Hg Hl) as [Hg1 [Hl1 Hd]].
    destruct (rsi_step (g, l) d) as [g1 l1]. cbn [fst snd] in *.
    destruct (IH g1 l1 Hg1 ltac:(lra)) as [Hg2 [Hl2 Hr]].
    repeat split; try lra.
    + intros E. constructor; [apply Hd|apply Hr]; lra.
    + intros Hall. inversion Hall as [|? ? Hd' Hr']; subst.
      apply Hd in Hd'. apply Hr in Hr'. lra.
Qed.

(** From non-negative sums the result is within [0, 100], and 100 only
    when there was no loss. *)
Lemma exact_rsi_finish (g l : Q) (p : nat) :
  0 <= g -> 0 <= l ->
  exists r, rsi_finish (g, l) (S p) = Ok (Some r)
            /\ 0 <= r <= 100 /\ (r == 100 <-> l == 0).
Proof.
  intros Hg Hl. unfold rsi_finish, truediv_int. cbn [bind].
  pose proof (exact_of_nat_pos p) as HP.
  set (P := of_int (Z.of_nat (S p))) in *. change (0 < P) in HP.
  cbn [quot exact].
  assert (Hl' : l == (l / P) * P) by (field; lra).
  destruct (eqb (l / P) (of_int 0)) eqn:E.
  - exists 100. split; [reflexivity|]. split; [lra|].
    apply exact_eqb in E. change (of_int 0) with 0 in E.
    split; [intros _; rewrite Hl', E; ring|reflexivity].
  - assert (Hne : ~ l / P == 0).
    { intros Hz. apply exact_eqb in Hz. change (of_int 0) with 0 in E.
      congruence. }
    assert (Hlpos : 0 < l).
    { apply Qnot_le_lt. intros Hle. apply Hne.
      assert (l == 0) as -> by lra. field. lra. }
    assert (Hal : 0 < l / P) by (apply Qlt_shift_div_l; lra).
    assert (Hag : 0 <= g / P) by (apply Qle_shift_div_l; lra).
    unfold truediv. rewrite E. cbn [bind quot add sub exact of_int].
    set (rs := (g / P) / (l / P)).
    assert (Hrs : 0 <= rs) by (apply Qle_shift_div_l; lra).
    change (inject_Z 1) with 1. change (inject_Z 100) with 100.
    change (inject_Z 0) with 0.
    destruct (eqb (1 + rs) 0) eqn:E1.
    { apply exact_eqb in E1. lra. }
    cbn [bind].
    assert (Hq : 0 < 100 / (1 + rs)) by (apply Qlt_shift_div_l; lra).
    assert (Hq' : 100 / (1 + rs) <= 100) by (apply Qle_shift_div_r; lra).
    eexists. split; [reflexivity|].
    split; [lra|]. split; intros; lra.
Qed.

Lemma exact_rsi (prices : list Q) (period : nat) :
  (0 < period < length prices)%nat ->
  exists r, calculate_rsi prices period = Ok (Some r)
            /\ 0 <= r <= 100
            /\ (r == 100
                <-> Forall (fun d => nonneg d = true)
                           (window_deltas prices period)).
Proof.
  intros [Hp Hl]. rewrite calculate_rsi_window by lia.
  destruct (@exact_rsi_fold (window_deltas prices period) 0 0)
    as [Hg [Hls Hall]]; try lra.
  change (of_int 0) with 0.
  destruct (fold_left rsi_step (window_deltas prices period) (0, 0))
    as [g l]. cbn [fst snd] in *.
  destruct period as [|p]; [lia|].
  destruct (@exact_rsi_finish g l p Hg Hls) as [r [Er [Hr Hiff]]].
  exists r. split; [exact Er|]. split; [exact Hr|].
  rewrite Hiff. exact Hall.
Qed.
Lemma exact_sum_right : forall (l : list Q) (acc : Q),
  fold_left Qplus l acc == acc + fold_right Qplus 0 l.
Proof.
  induction l as [|x l IH]; intros acc; simpl; [ring|].
  rewrite IH. ring.
Qed.

Lemma exact_moving_average_mean (prices : list Q) (period : nat) :
  (0 < period <= length prices)%nat ->
  exists m, moving_average prices period = Ok (Some m)
            /\ m == arithmetic_mean (lastn period prices).
Proof.
  intros Hp. rewrite moving_average_present by assumption.
  eexists. split; [reflexivity|].
  unfold arithmetic_mean. rewrite lastn_length, Nat.min_l by lia.
  cbn [quot add of_int exact].
  rewrite exact_sum_right. change (inject_Z 0) with 0.
  now rewrite Qplus_0_l.
Qed.
End Exact.

(* ================================================================== *)
(** ** Binary64: rounding keeps the order *)

Section Pow2.
Local Open Scope Q_scope.


Lemma pow2_pos e : 0 < pow2 e.
Proof. apply Qpower_0_lt. reflexivity. Qed.

Lemma pow2_add a b : pow2 (a + b) == pow2 a * pow2 b.
Proof. apply Qpower_plus. discriminate. Qed.

Lemma pow2_succ e : pow2 (e + 1) == 2 * pow2 e.
Proof. rewrite pow2_add. change (pow2 1) with 2. ring. Qed.

Lemma pow2_le a b : (a <= b)%Z -> pow2 a <= pow2 b.
Proof. intros Hab. apply Qpower_le_compat_l; [assumption|discriminate]. Qed.

Lemma pow2_lt a b : (a < b)%Z -> pow2 a < pow2 b.
Proof. intros Hab. apply Qpower_lt_compat_l; [assumption|reflexivity]. Qed.

Lemma pow2_lt_inv a b : pow2 a < pow2 b -> (a < b)%Z.
Proof. intros Hab. apply (Qpower_lt_compat_l_inv 2); [assumption|reflexivity]. Qed.

Lemma pow2_Z n : (0 <= n)%Z -> inject_Z (2 ^ n) == pow2 n.
Proof. intros Hn. now rewrite Zpower_Qpower. Qed.

Lemma inject_Z_lt_inv a b : inject_Z a < inject_Z b -> (a < b)%Z.
Proof. now rewrite <- Zlt_Qlt. Qed.

Lemma inject_Z_le_inv a b : inject_Z a <= inject_Z b -> (a <= b)%Z.
Proof. now rewrite <- Zle_Qle. Qed.
End Pow2.

Section Digits.

Lemma digits2_size p : digits2_pos p = Pos.size p.
Proof. induction p; simpl; congruence. Qed.

Lemma digits_bounds (p : positive) :
  (2 ^ (Z.pos (digits2_pos p) - 1) <= Z.pos p < 2 ^ Z.pos (digits2_pos p))%Z.
Proof.
  rewrite digits2_size.
  pose proof (Pos.size_gt p) as Hgt. pose proof (Pos.size_le p) as Hle.
  split.
  - assert (H2 : (2 ^ Z.pos (Pos.size p) <= 2 * Z.pos p)%Z).
    { change (2 * Z.pos p)%Z with (Z.pos p~0).
      rewrite <- Pos2Z.inj_pow. now apply Pos2Z.pos_le_pos. }
    replace (Z.pos (Pos.size p)) with (Z.pos (Pos.size p) - 1 + 1)%Z in H2
      by lia.
    rewrite Z.pow_add_r in H2 by lia. lia.
  - rewrite <- Pos2Z.inj_pow. now apply Pos2Z.pos_lt_pos.
Qed.

Lemma digits_pow2 (p : positive) :
  (pow2 (Z.pos (digits2_pos p) - 1) <= inject_Z (Z.pos p)
   /\ inject_Z (Z.pos p) < pow2 (Z.pos (digits2_pos p)))%Q.
Proof.
  destruct (digits_bounds p) as [L U].
  rewrite <- !pow2_Z by lia. split.
  - now rewrite <- Zle_Qle.
  - now rewrite <- Zlt_Qlt.
Qed.
End Digits.

Section Shr.
Local Open Scope Q_scope.


Lemma shr_1_inv x mrs e : shr_inv x mrs e -> shr_inv x (shr_1 mrs) (e + 1).
Proof.
  destruct mrs as [m r s]. unfold shr_inv. cbn [shr_m shr_r shr_s].
  intros [H0 [Hlo [Hhi Hst]]].
  pose proof (pow2_pos e) as Ht. pose proof (pow2_succ e) as Hs.
  rewrite inject_Z_plus in Hhi. change (inject_Z 1) with 1 in Hhi.
  destruct m as [|[p|p|]|p]; try lia; cbn [shr_1 shr_m shr_r shr_s].
  - (* 0 *)
    rewrite Hs. change (inject_Z (0 + 1)) with 1. change (inject_Z 0) with 0 in *.
    repeat split; try lia; try lra.
    intros Hrs. specialize (Hst Hrs). lra.
  - (* 2p+1 *)
    rewrite Hs, inject_Z_plus. change (inject_Z 1) with 1.
    change (Z.pos p~1) with (2 * Z.pos p + 1)%Z in *.
    rewrite inject_Z_plus, inject_Z_mult in Hlo, Hhi, Hst.
    change (inject_Z 1) with 1 in *. change (inject_Z 2) with 2 in *.
    repeat split; try lia; try nra.
  - (* 2p *)
    rewrite Hs, inject_Z_plus. change (inject_Z 1) with 1.
    change (Z.pos p~0) with (2 * Z.pos p)%Z in *.
    rewrite inject_Z_mult in Hlo, Hhi, Hst.
    change (inject_Z 2) with 2 in *.
    repeat split; try lia; try nra.
    cbn [orb]. intros Hrs. specialize (Hst Hrs). nra.
  - (* 1 *)
    rewrite Hs. change (inject_Z (0 + 1)) with 1. change (inject_Z 0) with 0.
    change (inject_Z 1) with 1 in *.
    repeat split; try lia; try nra.
Qed.

Lemma iter_shr_inv x p : forall mrs e,
  shr_inv x mrs e -> shr_inv x (iter_pos shr_1 p mrs) (e + Z.pos p).
Proof.
  induction p as [p IH|p IH|]; intros mrs e H; cbn [iter_pos].
  - replace (e + Z.pos p~1)%Z with (e + 1 + Z.pos p + Z.pos p)%Z by lia.
    apply IH, IH, shr_1_inv, H.
  - replace (e + Z.pos p~0)%Z with (e + Z.pos p + Z.pos p)%Z by lia.
    apply IH, IH, H.
  - apply shr_1_inv, H.
Qed.

Lemma shr_1_m mrs1 mrs2 :
  shr_m mrs1 = shr_m mrs2 -> shr_m (shr_1 mrs1) = shr_m (shr_1 mrs2).
Proof.
  destruct mrs1 as [m1 r1 s1], mrs2 as [m2 r2 s2]. cbn [shr_m].
  intros ->. destruct m2 as [|[p|p|]|[p|p|]]; reflexivity.
Qed.

Lemma iter_shr_m p : forall mrs1 mrs2,
  shr_m mrs1 = shr_m mrs2 ->
  shr_m (iter_pos shr_1 p mrs1) = shr_m (iter_pos shr_1 p mrs2).
Proof.
  induction p as [p IH|p IH|]; intros mrs1 mrs2 H; cbn [iter_pos].
  - apply IH, IH, shr_1_m, H.
  - apply IH, IH, H.
  - apply shr_1_m, H.
Qed.
End Shr.

Section Round.
Local Open Scope Q_scope.



Lemma fexp_eq e : fexp prec emax e = Z.max (e - 53) (-1074).
Proof. reflexivity. Qed.

Lemma value_pos m e : 0 < value m e.
Proof.
  unfold value. apply Qmult_lt_0_compat; [reflexivity|apply pow2_pos].
Qed.

Lemma canonical_emin m e : canonical m e -> (-1074 <= e)%Z.
Proof. unfold canonical. rewrite fexp_eq. lia. Qed.

Lemma canonical_digits m e :
  canonical m e -> (Z.pos (digits2_pos m) <= 53)%Z.
Proof. unfold canonical. rewrite fexp_eq. lia. Qed.

Lemma canonical_lt m e : canonical m e -> value m e < pow2 (53 + e).
Proof.
  intros Hc. apply canonical_digits in Hc.
  destruct (digits_pow2 m) as [_ U].
  pose proof (pow2_le Hc) as H53.
  rewrite pow2_add. unfold value. pose proof (pow2_pos e). nra.
Qed.

Lemma canonical_normal m e :
  canonical m e -> (-1074 < e)%Z -> pow2 (52 + e) <= value m e.
Proof.
  intros Hc He. unfold canonical in Hc. rewrite fexp_eq in Hc.
  assert (Hd : Z.pos (digits2_pos m) = 53%Z) by lia.
  destruct (digits_pow2 m) as [L _]. rewrite Hd in L.
  rewrite pow2_add. unfold value. pose proof (pow2_pos e).
  change (53 - 1)%Z with 52%Z in L. nra.
Qed.

(** The exponent of the truncation of a number below a canonical one. *)
Lemma fexp_below (m : Z) e mF eF :
  (0 <= m)%Z -> canonical mF eF -> (e <= eF)%Z ->
  inject_Z m * pow2 e <= value mF eF ->
  (fexp prec emax (Zdigits2 m + e) <= eF)%Z.
Proof.
  intros Hm Hc He Hle. pose proof (canonical_emin Hc) as Hmin.
  destruct m as [|p|p]; [|clear Hm|lia].
  - cbn [Zdigits2]. rewrite fexp_eq. lia.
  - cbn [Zdigits2].
    destruct (digits_pow2 p) as [L _].
    pose proof (canonical_lt Hc) as U.
    assert (Hlt : pow2 (Z.pos (digits2_pos p) - 1 + e) < pow2 (53 + eF)).
    { rewrite pow2_add. pose proof (pow2_pos e). nra. }
    apply pow2_lt_inv in Hlt. rewrite fexp_eq. lia.
Qed.

Lemma value_aligned mF eF e' :
  (e' <= eF)%Z ->
  value mF eF == inject_Z (Z.pos mF * 2 ^ (eF - e')) * pow2 e'.
Proof.
  intros He. unfold value. rewrite inject_Z_mult, pow2_Z by lia.
  replace eF with ((eF - e') + e')%Z at 1 by lia.
  rewrite pow2_add. ring.
Qed.

Lemma grid_upper (m' : Z) e' mF eF :
  (e' <= eF)%Z -> inject_Z m' * pow2 e' < value mF eF ->
  inject_Z (m' + 1) * pow2 e' <= value mF eF.
Proof.
  intros He Hlt. rewrite (value_aligned mF He) in *.
  pose proof (pow2_pos e') as Ht.
  assert (Hz : (m' < Z.pos mF * 2 ^ (eF - e'))%Z).
  { apply inject_Z_lt_inv. nra. }
  assert (Hz' : inject_Z (m' + 1) <= inject_Z (Z.pos mF * 2 ^ (eF - e')))
    by (rewrite <- Zle_Qle; lia).
  nra.
Qed.

Lemma grid_lower (m' : Z) e' mF eF :
  (e' <= eF)%Z -> value mF eF < inject_Z (m' + 1) * pow2 e' ->
  value mF eF <= inject_Z m' * pow2 e'.
Proof.
  intros He Hlt. rewrite (value_aligned mF He) in *.
  pose proof (pow2_pos e') as Ht.
  assert (Hz : (Z.pos mF * 2 ^ (eF - e') < m' + 1)%Z).
  { apply inject_Z_lt_inv. nra. }
  assert (Hz' : inject_Z (Z.pos mF * 2 ^ (eF - e')) <= inject_Z m')
    by (rewrite <- Zle_Qle; lia).
  nra.
Qed.

Lemma shr_m_of_loc m l : shr_m (shr_record_of_loc m l) = m.
Proof. destruct l as [|[]]; reflexivity. Qed.

Lemma shr_fexp_inv x m e l mrs' e' :
  shr_inv x (shr_record_of_loc m l) e ->
  shr_fexp prec emax m e l = (mrs', e') ->
  shr_inv x mrs' e'
  /\ e' = Z.max e (fexp prec emax (Zdigits2 m + e))
  /\ (e' = e -> mrs' = shr_record_of_loc m l).
Proof.
  intros I. unfold shr_fexp, shr.
  destruct (fexp prec emax (Zdigits2 m + e) - e)%Z as [|p|p] eqn:En;
    intros E; injection E as <- <-.
  - split; [exact I|]. split; [lia|reflexivity].
  - rewrite <- En. replace (e + (fexp prec emax (Zdigits2 m + e) - e))%Z
      with (e + Z.pos p)%Z by lia.
    split; [now apply iter_shr_inv|]. split; lia.
  - split; [exact I|]. split; [lia|reflexivity].
Qed.

(** When the shift stays in the normal range the leading bit is kept. *)
Lemma shr_fexp_top (p : positive) e l mrs' e' :
  shr_fexp prec emax (Z.pos p) e l = (mrs', e') ->
  (e' <= Z.pos (digits2_pos p) - 1 + e)%Z ->
  pow2 (Z.pos (digits2_pos p) - 1 + e) <= inject_Z (shr_m mrs') * pow2 e'.
Proof.
  intros E He'.
  destruct (shr_fexp prec emax (Z.pos p) e loc_Exact) as [mrs0 e0] eqn:E0.
  assert (I0 : shr_inv (value p e) (shr_record_of_loc (Z.pos p) loc_Exact) e).
  { unfold shr_inv, value. cbn [shr_record_of_loc shr_m shr_r shr_s orb].
    pose proof (pow2_pos e). rewrite inject_Z_plus.
    change (inject_Z 1) with 1.
    repeat split; try lia; try lra; try discriminate. }
  destruct (@shr_fexp_inv _ _ _ _ _ _ I0 E0) as [[_ [_ [U _]]] [He0 _]].
  assert (Hm : shr_m mrs0 = shr_m mrs' /\ e0 = e').
  { revert E E0. unfold shr_fexp, shr.
    destruct (fexp prec emax (Zdigits2 (Z.pos p) + e) - e)%Z as [|q|q];
      intros E E0; injection E as <- <-; injection E0 as <- <-.
    - now rewrite !shr_m_of_loc.
    - split; [|reflexivity]. apply iter_shr_m. now rewrite !shr_m_of_loc.
    - now rewrite !shr_m_of_loc. }
  destruct Hm as [Hm ->]. rewrite Hm in U.
  destruct (digits_pow2 p) as [L _].
  set (k := (Z.pos (digits2_pos p) - 1 + e - e')%Z).
  assert (Hk : (0 <= k)%Z) by (unfold k; lia).
  assert (Hpk : pow2 (Z.pos (digits2_pos p) - 1 + e)
                == inject_Z (2 ^ k) * pow2 e').
  { rewrite pow2_Z by assumption. rewrite <- pow2_add. unfold k.
    now replace (Z.pos (digits2_pos p) - 1 + e - e' + e')%Z
      with (Z.pos (digits2_pos p) - 1 + e)%Z by lia. }
  pose proof (pow2_pos e') as Ht. pose proof (pow2_pos e) as Hte.
  assert (Hx : pow2 (Z.pos (digits2_pos p) - 1 + e) <= value p e).
  { rewrite pow2_add. unfold value. nra. }
  assert (Hz : (2 ^ k < shr_m mrs' + 1)%Z).
  { apply inject_Z_lt_inv. rewrite Hpk in Hx. nra. }
  assert (Hz' : inject_Z (2 ^ k) <= inject_Z (shr_m mrs'))
    by (rewrite <- Zle_Qle; lia).
  rewrite Hpk. nra.
Qed.

Lemma rne_cases mrs :
  let m'' := round_nearest_even (shr_m mrs) (loc_of_shr_record mrs) in
  m'' = shr_m mrs
  \/ (m'' = (shr_m mrs + 1)%Z /\ shr_r mrs || shr_s mrs = true).
Proof.
  destruct mrs as [m [|] [|]]; cbn; try (now left); try (now right).
  destruct (Z.even m); [now left|now right].
Qed.

Lemma exact_inv (m : Z) e :
  (0 <= m)%Z ->
  shr_inv (inject_Z m * pow2 e) (shr_record_of_loc m loc_Exact) e.
Proof.
  intros Hm. unfold shr_inv. cbn [shr_record_of_loc shr_m shr_r shr_s orb].
  pose proof (pow2_pos e). rewrite inject_Z_plus. change (inject_Z 1) with 1.
  repeat split; try lia; try lra; try discriminate.
Qed.
End Round.

Section Bounds.
Local Open Scope Q_scope.


Lemma loc_inv_any (m : Z) e l :
  (0 <= m)%Z ->
  shr_inv ((inject_Z m + (1 # 2)) * pow2 e) (shr_record_of_loc m l) e.
Proof.
  intros Hm. unfold shr_inv. rewrite shr_m_of_loc.
  pose proof (pow2_pos e). rewrite inject_Z_plus. change (inject_Z 1) with 1.
  repeat split; try lia; try nra.
Qed.

Lemma bra_signed s (mx : Z) ex lx :
  (0 <= mx)%Z -> signed s (binary_round_aux prec emax s mx ex lx).
Proof.
  intros Hm. unfold binary_round_aux.
  destruct (shr_fexp prec emax mx ex lx) as [mrs' e'] eqn:E1.
  destruct (@shr_fexp_inv _ _ _ _ _ _ (loc_inv_any ex lx Hm) E1)
    as [[H0 _] _].
  set (m'' := round_nearest_even (shr_m mrs') (loc_of_shr_record mrs')).
  assert (H0' : (0 <= m'')%Z).
  { destruct (rne_cases mrs') as [E|[E _]]; fold m'' in E; lia. }
  destruct (shr_fexp prec emax m'' e' loc_Exact) as [mrs'' e''] eqn:E2.
  destruct (@shr_fexp_inv _ _ _ _ _ _ (exact_inv e' H0') E2) as [[H1 _] _].
  destruct (shr_m mrs'') as [|m3|m3]; [reflexivity| |lia].
  destruct (e'' <=? emax - prec)%Z; reflexivity.
Qed.

Lemma bra_upper x (mx : Z) ex lx mF eF :
  shr_inv x (shr_record_of_loc mx lx) ex ->
  canonical mF eF -> (eF <= emax - prec)%Z ->
  (ex <= eF)%Z -> x <= value mF eF ->
  binary_round_aux prec emax false mx ex lx = S754_zero false
  \/ exists m3 e3,
       binary_round_aux prec emax false mx ex lx = S754_finite false m3 e3
       /\ value m3 e3 <= value mF eF.
Proof.
  intros I Hc Hmax He Hx. unfold binary_round_aux.
  pose proof (canonical_emin Hc) as Hmin.
  destruct (shr_fexp prec emax mx ex lx) as [mrs' e'] eqn:E1.
  destruct (@shr_fexp_inv _ _ _ _ _ _ I E1) as [I1 [He' _]].
  assert (Hmx : (0 <= mx)%Z /\ inject_Z mx * pow2 ex <= x).
  { destruct I as [H0 [Hlo _]]. rewrite shr_m_of_loc in H0, Hlo. now split. }
  destruct Hmx as [Hmx Hlo].
  assert (HeF : (e' <= eF)%Z).
  { pose proof (@fexp_below mx ex mF eF Hmx Hc He ltac:(lra)). lia. }
  set (m'' := round_nearest_even (shr_m mrs') (loc_of_shr_record mrs')).
  destruct I1 as [H0 [Hlo1 [Hhi1 Hst1]]].
  assert (HV : (0 <= m'')%Z /\ inject_Z m'' * pow2 e' <= value mF eF).
  { destruct (rne_cases mrs') as [E|[E Hin]]; fold m'' in E; rewrite E.
    - split; [lia|lra].
    - split; [lia|]. apply grid_upper; [assumption|].
      specialize (Hst1 Hin). lra. }
  destruct HV as [H0' HV].
  destruct (shr_fexp prec emax m'' e' loc_Exact) as [mrs'' e''] eqn:E2.
  destruct (@shr_fexp_inv _ _ _ _ _ _ (exact_inv e' H0') E2)
    as [[H2 [Hlo2 _]] [He'' _]].
  assert (HeF' : (e'' <= eF)%Z).
  { pose proof (@fexp_below m'' e' mF eF H0' Hc HeF HV). lia. }
  destruct (shr_m mrs'') as [|m3|m3]; [now left| |lia].
  right. exists m3, e''.
  replace (e'' <=? emax - prec)%Z with true
    by (symmetry; apply Z.leb_le; lia).
  split; [reflexivity|]. unfold value at 1. lra.
Qed.

(** One truncation keeps a canonical lower bound. *)
Lemma shr_fexp_lower x (m : Z) e l mrs' e' mF eF :
  shr_inv x (shr_record_of_loc m l) e ->
  shr_fexp prec emax m e l = (mrs', e') ->
  canonical mF eF -> value mF eF <= x ->
  (e' <= eF)%Z \/ (e < e')%Z ->
  value mF eF <= inject_Z (shr_m mrs') * pow2 e'.
Proof.
  intros I E Hc Hx Hcase.
  pose proof (canonical_emin Hc) as Hmin.
  destruct (@shr_fexp_inv _ _ _ _ _ _ I E) as [[H0 [_ [Hhi _]]] [He' _]].
  destruct (Z_le_gt_dec e' eF) as [Hle|Hgt].
  - apply grid_lower; [assumption|lra].
  - destruct Hcase as [Hle|Hsh]; [lia|].
    assert (Hm : (0 <= m)%Z)
      by (destruct I as [Hm _]; now rewrite shr_m_of_loc in Hm).
    destruct m as [|p|p]; [|clear Hm|lia].
    + cbn [Zdigits2] in He'. rewrite fexp_eq in He'. lia.
    + cbn [Zdigits2] in He'. rewrite fexp_eq in He'.
      assert (Hn : e' = (Z.pos (digits2_pos p) + e - 53)%Z) by lia.
      pose proof (@shr_fexp_top p e l mrs' e' E ltac:(lia)) as Htop.
      pose proof (canonical_lt Hc) as U.
      assert (Hp : pow2 (53 + eF) <= pow2 (Z.pos (digits2_pos p) - 1 + e))
        by (apply pow2_le; lia).
      lra.
Qed.

Lemma bra_lower x (mx : Z) ex lx mF eF :
  shr_inv x (shr_record_of_loc mx lx) ex ->
  canonical mF eF -> (ex <= eF)%Z -> value mF eF <= x ->
  binary_round_aux prec emax false mx ex lx = S754_infinity false
  \/ exists m3 e3,
       binary_round_aux prec emax false mx ex lx = S754_finite false m3 e3
       /\ value mF eF <= value m3 e3.
Proof.
  intros I Hc He Hx. unfold binary_round_aux.
  pose proof (value_pos mF eF) as HF.
  destruct (shr_fexp prec emax mx ex lx) as [mrs' e'] eqn:E1.
  destruct (@shr_fexp_inv _ _ _ _ _ _ I E1) as [I1 [He' _]].
  assert (L1 : value mF eF <= inject_Z (shr_m mrs') * pow2 e').
  { apply (@shr_fexp_lower x mx ex lx mrs' e' mF eF I E1 Hc Hx). lia. }
  set (m'' := round_nearest_even (shr_m mrs') (loc_of_shr_record mrs')).
  destruct I1 as [H0 _].
  assert (HV : (0 <= m'')%Z /\ value mF eF <= inject_Z m'' * pow2 e').
  { pose proof (pow2_pos e') as Ht.
    destruct (rne_cases mrs') as [E|[E _]]; fold m'' in E; rewrite E.
    - split; [lia|lra].
    - split; [lia|]. rewrite inject_Z_plus. change (inject_Z 1) with 1. nra. }
  destruct HV as [H0' HV].
  destruct (shr_fexp prec emax m'' e' loc_Exact) as [mrs'' e''] eqn:E2.
  destruct (@shr_fexp_inv _ _ _ _ _ _ (exact_inv e' H0') E2)
    as [[H2 _] [He'' Hsame]].
  assert (L2 : value mF eF <= inject_Z (shr_m mrs'') * pow2 e'').
  { destruct (Z.eq_dec e'' e') as [Heq|Hne].
    - rewrite (Hsame Heq), shr_m_of_loc, Heq. exact HV.
    - apply (@shr_fexp_lower _ m'' e' loc_Exact mrs'' e'' mF eF
               (exact_inv e' H0') E2 Hc HV). lia. }
  destruct (shr_m mrs'') as [|m3|m3]; [|clear H2|lia].
  - change (inject_Z 0) with 0 in L2. lra.
  - destruct (e'' <=? emax - prec)%Z; [right|now left].
    exists m3, e''. split; [reflexivity|exact L2].
Qed.

(** The order of canonical numbers is the order of their values. *)
Lemma canonical_leb m1 e1 m2 e2 :
  canonical m1 e1 -> canonical m2 e2 ->
  value m1 e1 <= value m2 e2 ->
  SFleb (S754_finite false m1 e1) (S754_finite false m2 e2) = true.
Proof.
  intros C1 C2 Hle. unfold SFleb, SFcompare.
  destruct (e1 ?= e2)%Z eqn:Ec.
  - apply Z.compare_eq in Ec. subst e2.
    assert (Hm : (Z.pos m1 <= Z.pos m2)%Z).
    { apply inject_Z_le_inv. unfold value in Hle.
      pose proof (pow2_pos e1). nra. }
    change (Pos.compare_cont Eq m1 m2) with (m1 ?= m2)%positive.
    destruct (m1 ?= m2)%positive eqn:Em; try reflexivity.
    apply Pos.compare_gt_iff in Em. lia.
  - reflexivity.
  - apply Z.compare_gt_iff in Ec.
    pose proof (canonical_emin C2).
    pose proof (@canonical_normal m1 e1 C1 ltac:(lia)) as L.
    pose proof (canonical_lt C2) as U.
    assert (pow2 (53 + e2) <= pow2 (52 + e1)) by (apply pow2_le; lia).
    lra.
Qed.

Lemma valid_canonical s m e :
  valid_binary (S754_finite s m e) = true ->
  canonical m e /\ (e <= emax - prec)%Z.
Proof.
  cbn [SpecFloat.valid_binary]. unfold bounded, canonical_mantissa.
  intros H. apply andb_prop in H. destruct H as [H1 H2].
  apply Z.eqb_eq in H1. apply Z.leb_le in H2. now split.
Qed.
End Bounds.

Section Operations.
Local Open Scope Q_scope.

Lemma shl_align_spec m e e0 :
  snd (shl_align m e e0) = Z.min e e0
  /\ value (fst (shl_align m e e0)) (snd (shl_align m e e0)) == value m e.
Proof.
  unfold shl_align. destruct (e0 - e)%Z as [|d|d] eqn:Ed; cbn [fst snd].
  - split; [lia|reflexivity].
  - split; [lia|reflexivity].
  - split; [lia|]. unfold value.
    change (Pos.iter xO m d) with (shift_pos d m).
    rewrite shift_pos_correct, Z.pow_pos_fold, inject_Z_mult.
    rewrite pow2_Z by lia.
    assert (Hp : pow2 e == pow2 (Z.pos d) * pow2 e0).
    { rewrite <- pow2_add. now replace (Z.pos d + e0)%Z with e by lia. }
    rewrite Hp. ring.
Qed.

(** [binary_normalize] on a positive mantissa rounds its value. *)
Lemma binary_normalize_pos (p : positive) e :
  exists mz ez,
    binary_normalize prec emax (Z.pos p) e false
    = binary_round_aux prec emax false (Z.pos mz) ez loc_Exact
    /\ value mz ez == value p e /\ (ez <= e)%Z.
Proof.
  cbn [binary_normalize]. unfold binary_round.
  pose proof (shl_align_spec p e
                (fexp prec emax (Z.pos (digits2_pos p) + e))) as [He Hv].
  destruct (shl_align p e (fexp prec emax (Z.pos (digits2_pos p) + e)))
    as [mz ez]. cbn [fst snd] in *.
  exists mz, ez. split; [reflexivity|]. split; [exact Hv|lia].
Qed.

Lemma binary_normalize_neg (p : positive) e :
  signed true (binary_normalize prec emax (Z.neg p) e false).
Proof.
  cbn [binary_normalize]. unfold binary_round.
  destruct (shl_align p e (fexp prec emax (Z.pos (digits2_pos p) + e)))
    as [mz ez].
  apply bra_signed. lia.
Qed.

(** The mantissas of two numbers at their common exponent. *)
Lemma aligned mx ex my ey :
  let ez := Z.min ex ey in
  inject_Z (Z.pos (fst (shl_align mx ex ez))) * pow2 ez == value mx ex
  /\ inject_Z (Z.pos (fst (shl_align my ey ez))) * pow2 ez == value my ey.
Proof.
  intros ez.
  destruct (shl_align_spec mx ex ez) as [E1 V1].
  destruct (shl_align_spec my ey ez) as [E2 V2].
  unfold value in V1, V2 at 1.
  replace (snd (shl_align mx ex ez)) with ez in V1 by (unfold ez in *; lia).
  replace (snd (shl_align my ey ez)) with ez in V2 by (unfold ez in *; lia).
  now split.
Qed.

Lemma add_pos_spec mx ex my ey :
  exists mz ez,
    SFadd prec emax (S754_finite false mx ex) (S754_finite false my ey)
    = binary_round_aux prec emax false (Z.pos mz) ez loc_Exact
    /\ value mz ez == value mx ex + value my ey
    /\ (ez <= Z.min ex ey)%Z.
Proof.
  cbn [SFadd cond_Zopp]. destruct (aligned mx ex my ey) as [V1 V2].
  set (a := fst (shl_align mx ex (Z.min ex ey))) in *.
  set (b := fst (shl_align my ey (Z.min ex ey))) in *.
  change (Z.pos a + Z.pos b)%Z with (Z.pos (a + b)).
  destruct (binary_normalize_pos (a + b) (Z.min ex ey))
    as [mz [ez [E [V He]]]].
  exists mz, ez. split; [exact E|]. split; [|exact He].
  rewrite V. unfold value at 1. rewrite Pos2Z.inj_add, inject_Z_plus. lra.
Qed.

Lemma sub_pos_spec mx ex my ey :
  value my ey <= value mx ex ->
  SFsub prec emax (S754_finite false mx ex) (S754_finite false my ey)
  = S754_zero false
  \/ exists mz ez,
       SFsub prec emax (S754_finite false mx ex) (S754_finite false my ey)
       = binary_round_aux prec emax false (Z.pos mz) ez loc_Exact
       /\ value mz ez == value mx ex - value my ey
       /\ (ez <= Z.min ex ey)%Z.
Proof.
  intros Hle. cbn [SFsub cond_Zopp]. destruct (aligned mx ex my ey) as [V1 V2].
  set (a := fst (shl_align mx ex (Z.min ex ey))) in *.
  set (b := fst (shl_align my ey (Z.min ex ey))) in *.
  pose proof (pow2_pos (Z.min ex ey)) as Ht.
  assert (Hab : (Z.pos b <= Z.pos a)%Z) by (apply inject_Z_le_inv; nra).
  destruct (Z.pos a - Z.pos b)%Z as [|p|p] eqn:Ed; [now left| |lia].
  right.
  destruct (binary_normalize_pos p (Z.min ex ey)) as [mz [ez [E [V He]]]].
  exists mz, ez. split; [exact E|]. split; [|exact He].
  rewrite V. unfold value at 1. rewrite <- Ed.
  unfold Z.sub. rewrite inject_Z_plus, inject_Z_opp. lra.
Qed.

Lemma sub_finite_signed mx ex my ey sx sy :
  SFsub prec emax (S754_finite sx mx ex) (S754_finite sy my ey) <> S754_nan.
Proof.
  cbn [SFsub].
  set (M := (cond_Zopp sx _ - cond_Zopp sy _)%Z).
  destruct M as [|p|p].
  - discriminate.
  - destruct (binary_normalize_pos p (Z.min ex ey)) as [mz [ez [E _]]].
    rewrite E. pose proof (@bra_signed false (Z.pos mz) ez loc_Exact
                             ltac:(lia)) as S.
    intros En. now rewrite En in S.
  - pose proof (binary_normalize_neg p (Z.min ex ey)) as S.
    intros En. now rewrite En in S.
Qed.

Lemma new_location_inexact nb k :
  new_location nb k <> loc_Exact -> k <> 0%Z.
Proof.
  unfold new_location, new_location_even, new_location_odd.
  intros H ->. now destruct (Z.even nb).
Qed.

Lemma div_pos_spec mx ex my ey :
  exists q lz,
    let ez := Z.min (fexp prec emax (Z.pos (digits2_pos mx) + ex
                                     - (Z.pos (digits2_pos my) + ey)))
                    (ex - ey) in
    SFdiv prec emax (S754_finite false mx ex) (S754_finite false my ey)
    = binary_round_aux prec emax false q ez lz
    /\ shr_inv (value mx ex / value my ey) (shr_record_of_loc q lz) ez.
Proof.
  cbn [SFdiv xorb]. unfold SFdiv_core_binary. cbn [Zdigits2].
  set (ez := Z.min _ (ex - ey)).
  set (s := (ex - ey - ez)%Z).
  assert (Hs : (0 <= s)%Z) by (unfold s, ez; lia).
  set (m' := match s with
             | 0%Z => Z.pos mx
             | Z.pos _ => Z.shiftl (Z.pos mx) s
             | Z.neg _ => 0%Z
             end).
  assert (Hm' : m' = (Z.pos mx * 2 ^ s)%Z).
  { unfold m'. destruct s as [|p|p]; [lia| |lia].
    apply Z.shiftl_mul_pow2. lia. }
  pose proof (Z_div_mod m' (Z.pos my) ltac:(lia)) as Hdiv.
  destruct (Z.div_eucl m' (Z.pos my)) as [q r].
  destruct Hdiv as [Eq Hr].
  exists q, (new_location (Z.pos my) r). split; [reflexivity|].
  assert (Hq : (0 <= q)%Z) by nia.
  pose proof (pow2_pos ez) as Ht. pose proof (pow2_pos ey) as Hty.
  pose proof (pow2_pos ex) as Htx.
  assert (Hy : 0 < inject_Z (Z.pos my)) by reflexivity.
  assert (Hx : value mx ex / value my ey
               == (inject_Z q + inject_Z r / inject_Z (Z.pos my)) * pow2 ez).
  { unfold value.
    assert (E2 : inject_Z (Z.pos mx) * pow2 s
                 == inject_Z (Z.pos my) * inject_Z q + inject_Z r).
    { rewrite <- pow2_Z, <- !inject_Z_mult, <- inject_Z_plus by assumption.
      now rewrite <- Eq, Hm'. }
    assert (E3 : pow2 ex == pow2 s * pow2 ey * pow2 ez).
    { rewrite <- !pow2_add. unfold s.
      now replace (ex - ey - ez + ey + ez)%Z with ex by lia. }
    rewrite E3.
    transitivity (inject_Z (Z.pos mx) * pow2 s / inject_Z (Z.pos my)
                  * pow2 ez).
    - field. split; lra.
    - rewrite E2. field. lra. }
  assert (Hr0 : 0 <= inject_Z r / inject_Z (Z.pos my) < 1).
  { split.
    - apply Qle_shift_div_l; [assumption|].
      rewrite Qmult_0_l. change 0 with (inject_Z 0). rewrite <- Zle_Qle. lia.
    - apply Qlt_shift_div_r; [assumption|].
      rewrite Qmult_1_l. rewrite <- Zlt_Qlt. lia. }
  unfold shr_inv. rewrite shr_m_of_loc. rewrite Hx.
  rewrite inject_Z_plus. change (inject_Z 1) with 1.
  split; [exact Hq|]. split; [nra|]. split; [nra|].
  intros Hin.
  assert (Hne : r <> 0%Z).
  { apply (@new_location_inexact (Z.pos my)).
    intros El. rewrite El in Hin. discriminate. }
  assert (0 < inject_Z r / inject_Z (Z.pos my)).
  { apply Qlt_shift_div_l; [assumption|].
    rewrite Qmult_0_l. change 0 with (inject_Z 0). rewrite <- Zlt_Qlt. lia. }
  nra.
Qed.
End Operations.

Section Signs.
Local Open Scope Q_scope.





Lemma signed_nonneg r : signed false r -> sf_nonneg r.
Proof. destruct r as [s|s| |s m e]; cbn; try tauto; now intros ->. Qed.

Lemma ltb_zero_pos c : SFltb (S754_zero false) c = true -> sf_pos c.
Proof. destruct c as [s|[|]| |[|] m e]; cbn; try discriminate; tauto. Qed.

Lemma not_pos_nonpos c :
  c <> S754_nan -> SFltb (S754_zero false) c = false -> sf_nonpos c.
Proof.
  destruct c as [s|[|]| |[|] m e]; cbn; try discriminate; try tauto.
Qed.

Lemma sub_finite_not_nan a b :
  sf_finite a -> sf_finite b -> SFsub prec emax a b <> S754_nan.
Proof.
  destruct a as [sa|sa| |sa ma ea], b as [sb|sb| |sb mb eb]; cbn [sf_finite];
    try tauto; intros _ _.
  - cbn. destruct sa, sb; discriminate.
  - discriminate.
  - discriminate.
  - apply sub_finite_signed.
Qed.

Lemma add_nonneg a c :
  sf_nonneg a -> sf_pos c -> sf_nonneg (SFadd prec emax a c).
Proof.
  destruct a as [sa|[|]| |[|] ma ea], c as [sc|[|]| |[|] mc ec];
    cbn [sf_nonneg sf_pos]; try tauto; intros _ _; try exact I.
  destruct (add_pos_spec ma ea mc ec) as [mz [ez [E _]]]. rewrite E.
  apply signed_nonneg, bra_signed. lia.
Qed.

Lemma sub_nonneg a c :
  sf_nonneg a -> sf_nonpos c -> sf_nonneg (SFsub prec emax a c).
Proof.
  destruct a as [sa|[|]| |[|] ma ea], c as [sc|[|]| |[|] mc ec];
    cbn [sf_nonneg sf_nonpos]; try tauto; intros _ _; try exact I.
  - cbn. destruct sa, sc; exact I.
  - cbn [SFsub cond_Zopp].
    set (a := fst (shl_align ma ea (Z.min ea ec))).
    set (b := fst (shl_align mc ec (Z.min ea ec))).
    change (Z.pos a - - Z.pos b)%Z with (Z.pos (a + b)).
    destruct (binary_normalize_pos (a + b) (Z.min ea ec)) as [mz [ez [E _]]].
    rewrite E. apply signed_nonneg, bra_signed. lia.
Qed.

Lemma div_nonneg a mb eb :
  sf_nonneg a ->
  sf_nonneg (SFdiv prec emax a (S754_finite false mb eb))
  /\ (a = S754_infinity false ->
      SFdiv prec emax a (S754_finite false mb eb) = S754_infinity false).
Proof.
  destruct a as [sa|[|]| |[|] ma ea]; cbn [sf_nonneg];
    try contradiction; intros _.
  - split; [exact I|discriminate].
  - split; [exact I|reflexivity].
  - split; [|discriminate].
    destruct (div_pos_spec ma ea mb eb) as [q [lz [E [Hq _]]]].
    rewrite E. rewrite shr_m_of_loc in Hq.
    now apply signed_nonneg, bra_signed.
Qed.

(** [x + y >= x] for [y > 0]. *)
Lemma add_ge mF eF mr er :
  canonical mF eF ->
  SFadd prec emax (S754_finite false mF eF) (S754_finite false mr er)
  = S754_infinity false
  \/ exists m e,
       SFadd prec emax (S754_finite false mF eF) (S754_finite false mr er)
       = S754_finite false m e
       /\ value mF eF <= value m e.
Proof.
  intros Hc. destruct (add_pos_spec mF eF mr er) as [mz [ez [E [V He]]]].
  rewrite E. apply (@bra_lower (value mz ez)); [|assumption|lia|].
  - apply exact_inv. lia.
  - rewrite V. pose proof (value_pos mr er). lra.
Qed.

Lemma value_ge_1 m e : 1 <= value m e -> (1 <= Z.pos (digits2_pos m) + e)%Z.
Proof.
  intros H. destruct (digits_pow2 m) as [_ U].
  assert (Hlt : pow2 0 < pow2 (Z.pos (digits2_pos m) + e)).
  { rewrite pow2_add. change (pow2 0) with 1. unfold value in H.
    pose proof (pow2_pos e). nra. }
  apply pow2_lt_inv in Hlt. lia.
Qed.

(** [x / y <= x] for [y >= 1]. *)
Lemma div_le mF eF my ey :
  canonical mF eF -> (eF <= emax - prec)%Z -> 1 <= value my ey ->
  SFdiv prec emax (S754_finite false mF eF) (S754_finite false my ey)
  = S754_zero false
  \/ exists m e,
       SFdiv prec emax (S754_finite false mF eF) (S754_finite false my ey)
       = S754_finite false m e
       /\ value m e <= value mF eF.
Proof.
  intros Hc Hmax Hy. destruct (div_pos_spec mF eF my ey) as [q [lz [E I]]].
  cbv zeta in E, I. rewrite E.
  apply (@bra_upper _ _ _ _ mF eF I Hc Hmax).
  - pose proof (value_ge_1 Hy) as Hd. unfold canonical in Hc.
    rewrite fexp_eq in *. lia.
  - pose proof (value_pos mF eF). pose proof (value_pos my ey).
    apply Qle_shift_div_r; [assumption|]. nra.
Qed.

(** [x - y <= x] for [0 < y <= x]. *)
Lemma sub_le mF eF mz ez :
  canonical mF eF -> (eF <= emax - prec)%Z -> value mz ez <= value mF eF ->
  SFsub prec emax (S754_finite false mF eF) (S754_finite false mz ez)
  = S754_zero false
  \/ exists m e,
       SFsub prec emax (S754_finite false mF eF) (S754_finite false mz ez)
       = S754_finite false m e
       /\ value m e <= value mF eF.
Proof.
  intros Hc Hmax Hz.
  destruct (sub_pos_spec Hz) as [E|[m [e [E [V He]]]]];
    [now left|]. rewrite E.
  apply (@bra_upper (value m e) _ _ _ mF eF); try assumption; [|lia|].
  - apply exact_inv. lia.
  - rewrite V. pose proof (value_pos mz ez). lra.
Qed.
End Signs.

Section FloatCounts.
Local Open Scope Q_scope.

Lemma float_of_int_spec (n : Z) :
  (0 <= n < 2 ^ 63)%Z ->
  Prim2SF (float_of_int n) = binary_normalize prec emax n 0 false.
Proof.
  intros Hn. unfold float_of_int.
  pose proof (of_uint63_spec (Uint63.of_Z n)) as E.
  rewrite Uint63.of_Z_spec, Z.mod_small in E by exact Hn.
  rewrite <- E. now rewrite SF2Prim_Prim2SF.
Qed.

Lemma canonical_one e : (-1074 <= e)%Z -> canonical 4503599627370496 e.
Proof.
  intros He. unfold canonical.
  change (Z.pos (digits2_pos 4503599627370496)) with 53%Z.
  rewrite fexp_eq. lia.
Qed.

Lemma value_one e : value 4503599627370496 e == pow2 (52 + e).
Proof.
  unfold value. rewrite pow2_add. change (pow2 52) with (inject_Z (2 ^ 52)).
  reflexivity.
Qed.

(** A count from 1 to below 2^63 converts to a finite number that is
    at least 1. *)
Lemma float_of_count (p : positive) :
  (Z.pos p < 2 ^ 63)%Z ->
  exists m e, Prim2SF (float_of_int (Z.pos p)) = S754_finite false m e
              /\ 1 <= value m e.
Proof.
  intros Hp. rewrite float_of_int_spec by lia.
  cbn [binary_normalize]. unfold binary_round.
  pose proof (shl_align_spec p 0
                (fexp prec emax (Z.pos (digits2_pos p) + 0))) as [He Hv].
  destruct (shl_align p 0 (fexp prec emax (Z.pos (digits2_pos p) + 0)))
    as [mz ez]. cbn [fst snd] in *.
  rewrite fexp_eq in He.
  set (d := Z.pos (digits2_pos p)) in *.
  assert (Hd : (1 <= d)%Z) by (unfold d; lia).
  destruct (digits_pow2 p) as [L U]. fold d in L, U.
  assert (Hval : value p 0 == inject_Z (Z.pos p)).
  { unfold value. change (pow2 0) with 1. ring. }
  assert (I : shr_inv (value mz ez)
                (shr_record_of_loc (Z.pos mz) loc_Exact) ez)
    by (apply exact_inv; lia).
  assert (C1 : canonical 4503599627370496 (d - 53))
    by (apply canonical_one; lia).
  assert (C2 : canonical 4503599627370496 11)
    by (apply canonical_one; lia).
  assert (He1 : (ez <= d - 53)%Z) by lia.
  assert (He2 : (ez <= 11)%Z) by lia.
  assert (Hmax : (11 <= emax - prec)%Z) by (cbv; discriminate).
  assert (Hlo : value 4503599627370496 (d - 53) <= value mz ez).
  { rewrite value_one, Hv, Hval.
    now replace (52 + (d - 53))%Z with (d - 1)%Z by lia. }
  assert (Hhi : value mz ez <= value 4503599627370496 11).
  { rewrite value_one, Hv, Hval.
    change (pow2 (52 + 11)) with (inject_Z (2 ^ 63)).
    rewrite <- Zle_Qle. lia. }
  destruct (@bra_lower _ _ _ _ _ _ I C1 He1 Hlo) as [E|[m [e [E Hm]]]].
  - destruct (@bra_upper _ _ _ _ _ _ I C2 Hmax He2 Hhi) as [E'|[m' [e' [E' _]]]];
      rewrite E in E'; discriminate.
  - exists m, e. split; [exact E|].
    rewrite value_one in Hm.
    assert (pow2 0 <= pow2 (52 + (d - 53))) by (apply pow2_le; lia).
    change (pow2 0) with 1 in *. lra.
Qed.
End FloatCounts.

Section FloatRsi.
Local Open Scope float_scope.

Lemma float_canonical (x : float) s m e :
  Prim2SF x = S754_finite s m e -> canonical m e /\ (e <= emax - prec)%Z.
Proof.
  intros E. apply (@valid_canonical s). rewrite <- E. apply Prim2SF_valid.
Qed.

Lemma float_eqb_zero_false (a : float) :
  sf_nonneg (Prim2SF a) -> (a =? 0) = false -> sf_pos (Prim2SF a).
Proof.
  rewrite FloatAxioms.eqb_spec. unfold SFeqb.
  change (Prim2SF 0) with (S754_zero false).
  destruct (Prim2SF a) as [s|[|]| |[|] m e]; cbn; try tauto; discriminate.
Qed.

Lemma float_pos_eqb_zero (a : float) :
  sf_pos (Prim2SF a) -> (a =? 0) = false.
Proof.
  rewrite FloatAxioms.eqb_spec. unfold SFeqb.
  change (Prim2SF 0) with (S754_zero false).
  destruct (Prim2SF a) as [s|[|]| |[|] m e]; cbn; tauto.
Qed.

(** The quotient of a sum by the period. *)
Lemma float_average (x pf : float) mp ep :
  Prim2SF pf = S754_finite false mp ep -> (1 <= value mp ep)%Q ->
  sf_nonneg (Prim2SF x) ->
  sf_nonneg (Prim2SF (x / pf))
  /\ (Prim2SF x = S754_infinity false
      <-> Prim2SF (x / pf) = S754_infinity false).
Proof.
  intros Hp H1 Hx. rewrite FloatAxioms.div_spec, Hp.
  destruct (@div_nonneg _ mp ep Hx) as [Hnn Hinf].
  split; [exact Hnn|]. split; [exact Hinf|].
  destruct (Prim2SF x) as [s|[|]| |[|] m e] eqn:Ex; cbn in Hx; try tauto;
    try (cbn; discriminate).
  destruct (float_canonical _ Ex) as [Hc Hmax].
  destruct (div_le Hc Hmax H1) as [E|[m' [e' [E _]]]];
    unfold SF64div; rewrite E; discriminate.
Qed.

(** [1.0 + rs] for [rs >= 0]: at least 1, or infinite. *)
Lemma float_one_plus (rs : float) :
  sf_nonneg (Prim2SF rs) ->
  Prim2SF (1 + rs) = S754_infinity false
  \/ exists m e, Prim2SF (1 + rs) = S754_finite false m e
                 /\ (1 <= value m e)%Q.
Proof.
  intros Hrs. rewrite FloatAxioms.add_spec.
  change (Prim2SF 1) with (S754_finite false 4503599627370496 (-52)).
  assert (V1 : (value 4503599627370496 (-52) == 1)%Q) by reflexivity.
  destruct (Prim2SF rs) as [s|[|]| |[|] m e]; cbn in Hrs;
    try contradiction.
  - right. eexists. eexists. split; [reflexivity|]. now rewrite V1.
  - left. reflexivity.
  - unfold SF64add.
    assert (C1 : canonical 4503599627370496 (-52)) by reflexivity.
    destruct (@add_ge 4503599627370496 (-52) m e C1)
      as [E|[m' [e' [E Hm]]]].
    + left. exact E.
    + right. exists m', e'. split; [exact E|]. now rewrite <- V1.
Qed.

(** [100.0 / y] for [y >= 1] or infinite: from 0 to 100. *)
Lemma float_hundred_over (y : float) :
  Prim2SF y = S754_infinity false
  \/ (exists m e, Prim2SF y = S754_finite false m e /\ (1 <= value m e)%Q) ->
  Prim2SF (100 / y) = S754_zero false
  \/ exists m e, Prim2SF (100 / y) = S754_finite false m e
                 /\ (value m e <= value 7036874417766400 (-46))%Q.
Proof.
  intros Hy. rewrite FloatAxioms.div_spec.
  change (Prim2SF 100) with (S754_finite false 7036874417766400 (-46)).
  destruct Hy as [->|[m [e [-> H1]]]]; [left; reflexivity|].
  unfold SF64div. apply div_le; [reflexivity|cbv; discriminate|exact H1].
Qed.

(** [100.0 - z] for [z] from 0 to 100: from 0 to 100. *)
Lemma float_hundred_minus (z : float) :
  Prim2SF z = S754_zero false
  \/ (exists m e, Prim2SF z = S754_finite false m e
                  /\ (value m e <= value 7036874417766400 (-46))%Q) ->
  (0 <=? 100 - z) = true /\ (100 - z <=? 100) = true.
Proof.
  intros Hz. rewrite !FloatAxioms.leb_spec.
  pose proof (FloatAxioms.sub_spec 100 z) as Hs. unfold SF64sub in Hs.
  change (Prim2SF 100) with (S754_finite false 7036874417766400 (-46)) in *.
  change (Prim2SF 0) with (S754_zero false).
  assert (C : canonical 7036874417766400 (-46)) by reflexivity.
  destruct Hz as [Ez|[m [e [Ez Hle]]]]; rewrite Ez in Hs.
  - rewrite Hs. split; reflexivity.
  - destruct (@sub_le 7036874417766400 (-46) m e C ltac:(cbv; discriminate)
                Hle) as [E|[m' [e' [E Hm]]]]; rewrite E in Hs.
    + rewrite Hs. split; reflexivity.
    + destruct (float_canonical _ Hs) as [C' _]. rewrite Hs.
      split; [reflexivity|]. now apply canonical_leb.
Qed.
End FloatRsi.

Section FloatRsiRange.
Local Open Scope float_scope.

Lemma float_value_finite (p : float) :
  float_value p <> None -> sf_finite (Prim2SF p).
Proof.
  unfold float_value. destruct (Prim2SF p); cbn; tauto.
Qed.

Lemma float_infinity (x : float) :
  Prim2SF x = S754_infinity false <-> x = infinity.
Proof.
  split; [|now intros ->].
  intros E. now apply Prim2SF_inj.
Qed.

Lemma float_deltas_not_nan : forall w : list float,
  Forall (fun p => float_value p <> None) w ->
  Forall (fun d => Prim2SF d <> S754_nan) (deltas w).
Proof.
  induction w as [|a w IH]; intros Hw; [constructor|].
  destruct w as [|b rest]; [constructor|].
  inversion Hw as [|? ? Ha Hrest]; subst.
  cbn [deltas]. constructor; [|now apply IH].
  inversion Hrest as [|? ? Hb _]; subst.
  cbn [sub binary64]. rewrite FloatAxioms.sub_spec.
  apply sub_finite_not_nan; now apply float_value_finite.
Qed.

Lemma float_rsi_step_nonneg (g l d : float) :
  Prim2SF d <> S754_nan ->
  sf_nonneg (Prim2SF g) -> sf_nonneg (Prim2SF l) ->
  sf_nonneg (Prim2SF (fst (rsi_step (g, l) d)))
  /\ sf_nonneg (Prim2SF (snd (rsi_step (g, l) d))).
Proof.
  intros Hd Hg Hl. unfold rsi_step, gtb.
  cbn [ltb of_int add sub binary64]. change (float_of_int 0) with 0.
  destruct (0 <? d) eqn:E; cbn [fst snd];
    rewrite FloatAxioms.ltb_spec in E;
    change (Prim2SF 0) with (S754_zero false) in E.
  - split; [|exact Hl]. rewrite FloatAxioms.add_spec.
    apply add_nonneg; [exact Hg|now apply ltb_zero_pos].
  - split; [exact Hg|]. rewrite FloatAxioms.sub_spec.
    apply sub_nonneg; [exact Hl|now apply not_pos_nonpos].
Qed.

Lemma float_rsi_fold_nonneg : forall (ds : list float) (g l : float),
  Forall (fun d => Prim2SF d <> S754_nan) ds ->
  sf_nonneg (Prim2SF g) -> sf_nonneg (Prim2SF l) ->
  sf_nonneg (Prim2SF (fst (fold_left rsi_step ds (g, l))))
  /\ sf_nonneg (Prim2SF (snd (fold_left rsi_step ds (g, l)))).
Proof.
  induction ds as [|d ds IH]; intros g l Hds Hg Hl; [now split|].
  inversion Hds as [|? ? Hd Hrest]; subst. cbn [fold_left].
  destruct (@float_rsi_step_nonneg g l d Hd Hg Hl) as [Hg' Hl'].
  destruct (rsi_step (g, l) d) as [g' l']. now apply IH.
Qed.

Lemma sf_div_nonneg a b :
  sf_nonneg a -> sf_pos b ->
  ~ (a = S754_infinity false /\ b = S754_infinity false) ->
  sf_nonneg (SFdiv prec emax a b).
Proof.
  intros Ha Hb Hn.
  destruct b as [sb|[|]| |[|] mb eb]; cbn in Hb; try contradiction.
  - destruct a as [sa|[|]| |[|] ma ea]; cbn in Ha; try contradiction;
      try exact I.
    now destruct Hn.
  - now apply div_nonneg.
Qed.

(** What follows the loop, on sums that are not negative. *)
Lemma float_rsi_finish (g l : float) (n : nat) :
  (Z.of_nat (S n) < 2 ^ 63)%Z ->
  sf_nonneg (Prim2SF g) -> sf_nonneg (Prim2SF l) ->
  (~ (g = infinity /\ l = infinity) ->
   exists r, rsi_finish (g, l) (S n) = Ok (Some r)
             /\ (0 <=? r) = true /\ (r <=? 100) = true)
  /\ (g = infinity -> l = infinity ->
      rsi_finish (g, l) (S n) = Ok (Some nan)).
Proof.
  intros Hn Hg Hl.
  assert (Hpf : exists mp ep,
             Prim2SF (float_of_int (Z.of_nat (S n)))
             = S754_finite false mp ep /\ (1 <= value mp ep)%Q).
  { cbn [Z.of_nat] in *. now apply float_of_count. }
  destruct Hpf as [mp [ep [Hp H1]]].
  unfold rsi_finish, truediv_int, truediv.
  cbn [bind quot eqb of_int add sub binary64].
  change (float_of_int 0) with 0. change (float_of_int 1) with 1.
  change (float_of_int 100) with 100.
  set (pf := float_of_int (Z.of_nat (S n))) in *.
  destruct (@float_average g _ _ _ Hp H1 Hg) as [Hag Hgi].
  destruct (@float_average l _ _ _ Hp H1 Hl) as [Hal Hli].
  split.
  - intros Hboth.
    destruct (l / pf =? 0) eqn:Ez.
    { exists 100. split; [reflexivity|]. split; reflexivity. }
    cbn [bind].
    pose proof (@float_eqb_zero_false _ Hal Ez) as Hpos.
    assert (Hrs : sf_nonneg (Prim2SF (g / pf / (l / pf)))).
    { rewrite FloatAxioms.div_spec. apply sf_div_nonneg; try assumption.
      intros [Eg El]. apply Hboth.
      split; apply float_infinity; [now apply Hgi|now apply Hli]. }
    pose proof (@float_one_plus _ Hrs) as Hy.
    assert (Hy0 : (1 + g / pf / (l / pf) =? 0) = false).
    { apply float_pos_eqb_zero.
      destruct Hy as [->|[m [e [-> _]]]]; exact I. }
    rewrite Hy0. cbn [bind].
    pose proof (@float_hundred_over _ Hy) as Hz.
    eexists. split; [reflexivity|].
    now apply float_hundred_minus.
  - intros -> ->.
    assert (Eg : infinity / pf = infinity)
      by (apply float_infinity, Hgi; reflexivity).
    rewrite Eg. reflexivity.
Qed.

(** In binary64, on finite prices, the result lies in [0, 100] unless
    the sums of the gains and of the losses are both infinite, and then
    it is NaN. *)
Lemma float_rsi_range (prices : list float) (period : nat) (g l : float) :
  (0 < period < length prices)%nat -> (Z.of_nat period < 2 ^ 63)%Z ->
  Forall (fun p => float_value p <> None) (lastn (period + 1) prices) ->
  fold_left rsi_step (window_deltas prices period) (0, 0) = (g, l) ->
  (~ (g = infinity /\ l = infinity) ->
   exists r, calculate_rsi prices period = Ok (Some r)
             /\ (0 <=? r) = true /\ (r <=? 100) = true)
  /\ (g = infinity -> l = infinity ->
      calculate_rsi prices period = Ok (Some nan)).
Proof.
  intros [Hp Hl] Hn Hfin Hfold. rewrite calculate_rsi_window by lia.
  cbn [of_int binary64]. change (float_of_int 0) with 0. rewrite Hfold.
  pose proof (@float_rsi_fold_nonneg (window_deltas prices period) 0 0
                (float_deltas_not_nan Hfin) I I) as Hnn.
  rewrite Hfold in Hnn. cbn [fst snd] in Hnn. destruct Hnn as [Hg Hlo].
  destruct period as [|n]; [lia|].
  now apply float_rsi_finish.
Qed.
End FloatRsiRange.

(* ================================================================== *)
(** ** RSI and MACD on binary64 *)

Section Binary64Indicators.
Local Open Scope float_scope.

(** Deltas that are all [>= 0] leave [losses] at [0.0]. *)
Lemma float_rsi_fold_no_loss : forall (ds : list float) (g : float),
  Forall (fun d => nonneg d = true) ds ->
  snd (fold_left rsi_step ds (g, 0)) = 0.
Proof.
  induction ds as [|d rest IH]; intros g Hall; [reflexivity|].
  inversion Hall as [|? ? Hd Hrest]; subst.
  cbn [fold_left]. unfold rsi_step at 2, gtb.
  unfold nonneg in Hd. cbn [ltb eqb of_int sub binary64] in *.
  change (float_of_int 0) with 0 in *.
  destruct (0 <? d); [now apply IH|].
  cbn [orb] in Hd. rewrite (float_zero_sub Hd). now apply IH.
Qed.

(** With no loss in the window the function returns 100.0 exactly. *)
Lemma float_rsi_saturates (prices : list float) (period : nat) :
  (0 < period < length prices)%nat ->
  (0 <? float_of_int (Z.of_nat period)) = true ->
  Forall (fun d => nonneg d = true) (window_deltas prices period) ->
  calculate_rsi prices period = Ok (Some 100).
Proof.
  intros [Hp Hl] Hpos Hall. rewrite calculate_rsi_window by lia.
  pose proof (float_rsi_fold_no_loss (float_of_int 0) Hall) as Hloss.
  cbn [of_int binary64].
  change (float_of_int 0) with 0 in *.
  destruct (fold_left rsi_step (window_deltas prices period) (0, 0))
    as [g l].
  cbn [snd] in Hloss. subst l.
  destruct period as [|p]; [lia|].
  unfold rsi_finish, truediv_int. cbn [bind quot eqb of_int binary64].
  rewrite (float_zero_div Hpos). reflexivity.
Qed.

(** With no loss in the window and a period below 2^63 the function
    returns 100.0 exactly. *)
Lemma float_rsi_saturates_count (prices : list float) (period : nat) :
  (0 < period < length prices)%nat -> (Z.of_nat period < 2 ^ 63)%Z ->
  Forall (fun d => nonneg d = true) (window_deltas prices period) ->
  calculate_rsi prices period = Ok (Some 100).
Proof.
  intros Hp Hn Hall. apply float_rsi_saturates; try assumption.
  destruct period as [|n]; [lia|]. cbn [Z.of_nat] in *.
  destruct (float_of_count Hn) as [m [e [E _]]].
  rewrite FloatAxioms.ltb_spec, E. reflexivity.
Qed.

(** The int-to-float conversion of the counts in use is positive, and
    their smoothing factor exists. *)
Lemma float_of_count_pos (p : nat) :
  (0 < p <= 1024)%nat -> (0 <? float_of_int (Z.of_nat p)) = true.
Proof.
  intros Hp.
  assert (Hall : forallb (fun q => 0 <? float_of_int (Z.of_nat q))
                         (seq 1 1024) = true) by (vm_compute; reflexivity).
  rewrite forallb_forall in Hall. apply Hall, in_seq. lia.
Qed.

Lemma float_smoothing_defined (p : nat) :
  (p <= 1024)%nat ->
  eqb (add (of_int (Z.of_nat p)) (of_int 1)) (of_int (num:=float) 0) = false.
Proof.
  intros Hp.
  assert (Hall : forallb
            (fun q => negb (eqb (add (of_int (Z.of_nat q)) (of_int 1))
                                (of_int (num:=float) 0)))
            (seq 0 1025) = true) by (vm_compute; reflexivity).
  rewrite forallb_forall in Hall. apply negb_true_iff, Hall, in_seq. lia.
Qed.

(** With the periods 12, 26 and 9 and enough prices, [calculate_macd]
    returns two values: the three smoothing factors exist, the series
    are as long as the prices, and their last elements are in range. *)
Lemma float_macd_present (prices : list float) :
  (26 + 9 <= length prices)%nat ->
  exists m s, calculate_macd prices 12 26 9 = Ok (Some m, Some s).
Proof.
  intros Hl. unfold calculate_macd.
  replace (length prices <? 26 + 9)%nat with false
    by (symmetry; apply Nat.ltb_ge; lia).
  assert (H12 : exists k, smoothing (num:=float) 12 = Ok k)
    by (eexists; vm_compute; reflexivity).
  assert (H26 : exists k, smoothing (num:=float) 26 = Ok k)
    by (eexists; vm_compute; reflexivity).
  assert (H9 : exists k, smoothing (num:=float) 9 = Ok k)
    by (eexists; vm_compute; reflexivity).
  destruct H12 as [kf Hf], H26 as [ks Hs], H9 as [kg Hg].
  rewrite (@ema_ok _ _ prices _ _ Hf), (@ema_ok _ _ prices _ _ Hs).
  cbn [bind].
  set (L := map _ _).
  assert (LL : length L = length prices).
  { unfold L. rewrite length_map, length_combine.
    rewrite (ema_series_length ks prices).
    rewrite <- (ema_series_length kf prices) at 1.
    rewrite slice_from_whole, ema_series_length. lia. }
  rewrite (@ema_ok _ _ L _ _ Hg). cbn [bind].
  destruct (@getitem_last_in float L) as [m [Hm _]]; [lia|].
  destruct (@getitem_last_in float (ema_series kg L)) as [sg [Hsg _]];
    [rewrite ema_series_length; lia|].
  rewrite Hm, Hsg. cbn [bind]. eauto.
Qed.

(** C3 as the specification words it fails in three ways.  At
    [rounding_prices] the window has the delta [0.5 - 1 = -0.5] and the
    result is 100.0 all the same, [100/(1 + rs)] being far below half an
    ulp of 100.  At [overflow_prices] gains and losses are both
    infinite and the result is NaN, outside [0, 100].  With a period of
    0 and a price the division by the period raises.  And a price that
    is NaN gives NaN. *)
Lemma C3_rsi_spec_refuted :
  (nth_error (window_deltas rounding_prices 14) 0 = Some (-0.5)
   /\ calculate_rsi rounding_prices 14 = Ok (Some 100)
   /\ ~ (forall r, calculate_rsi rounding_prices 14 = Ok (Some r) ->
           ((r =? 100) = true
            <-> Forall (fun d => nonneg d = true)
                       (window_deltas rounding_prices 14))))
  /\ (length overflow_prices = 15%nat
      /\ ~ (exists r, calculate_rsi overflow_prices 14 = Ok (Some r)
                      /\ (0 <=? r) = true /\ (r <=? 100) = true))
  /\ calculate_rsi [1] 0 = Raise ZeroDivisionError
  /\ calculate_rsi [nan; 1] 1 = Ok (Some nan).
Proof.
  split; [|split; [split|split; [|reflexivity]]].
  - split; [vm_compute; reflexivity|].
    split; [vm_compute; reflexivity|].
    intros Hspec.
    assert (E : calculate_rsi rounding_prices 14 = Ok (Some 100))
      by (vm_compute; reflexivity).
    destruct (Hspec 100 E) as [Hall _].
    specialize (Hall ltac:(vm_compute; reflexivity)).
    assert (Hw : window_deltas rounding_prices 14
                 = -0.5 :: 1e18 :: repeat 0 12) by (vm_compute; reflexivity).
    rewrite Hw in Hall. inversion Hall as [|? ? Hd _].
    vm_compute in Hd. discriminate.
  - reflexivity.
  - intros [r [Er [Hlo _]]].
    assert (E : calculate_rsi overflow_prices 14 = Ok (Some nan))
      by (vm_compute; reflexivity).
    rewrite E in Er.
    apply (f_equal (fun x => match x with Ok (Some y) => y | _ => 0 end))
      in Er.
    subst r. vm_compute in Hlo. discriminate.
  - reflexivity.
Qed.

(** C5 as the specification words it, at [flat_prices]: both values are
    about 1.42e-14, not 0. *)
Lemma C5_constant_macd_not_zero :
  flat_prices = repeat (float_of_int 1002 / 10) 35
  /\ (exists m s,
        calculate_macd flat_prices 12 26 9 = Ok (Some m, Some s)
        /\ m = 0x1p-46 /\ (0 <? s) = true /\ (s <? m) = true)
  /\ ~ (exists m s,
          calculate_macd flat_prices 12 26 9 = Ok (Some m, Some s)
          /\ (m =? 0) = true /\ (s =? 0) = true).
Proof.
  assert (E : exists s, calculate_macd flat_prices 12 26 9
                        = Ok (Some 0x1p-46, Some s)
                        /\ (0 <? s) = true /\ (s <? 0x1p-46) = true).
  { eexists. repeat split; vm_compute; reflexivity. }
  destruct E as [s0 [E [Hs0 Hs1]]].
  split; [vm_compute; reflexivity|].
  split; [exists 0x1p-46, s0; auto|].
  intros [m [s [Em [Hm _]]]]. rewrite E in Em.
  apply (f_equal (fun r => match r with Ok (Some x, _) => x | _ => 0 end))
    in Em.
  subst m. vm_compute in Hm. discriminate.
Qed.

(** C3 (amended): [calculate_rsi(prices, period)] is absent exactly when
    [len(prices) <= period].  Otherwise, for a period from 1 to below
    2^63: in binary64 and on finite prices its result lies in [0, 100]
    unless the sum of the gains and the sum of the losses are both
    infinite, and then it is NaN; it is 100.0 exactly whenever all the
    [period] deltas of the window are non-negative (but not only then);
    and computed without rounding its result lies in [0, 100] and is
    100 exactly when all those deltas are non-negative. *)
Theorem C3_rsi_absent_range_saturation :
  (forall (num : Type) (arith : PyNum num) (prices : list num) period,
      calculate_rsi prices period = Ok None
      <-> (length prices <= period)%nat)
  /\ (forall (prices : list float) period (gains losses : float),
        (0 < period < length prices)%nat ->
        (Z.of_nat period < 2 ^ 63)%Z ->
        Forall (fun p => float_value p <> None)
               (lastn (period + 1) prices) ->
        fold_left rsi_step (window_deltas prices period) (0, 0)
        = (gains, losses) ->
        (~ (gains = infinity /\ losses = infinity) ->
         exists r, calculate_rsi prices period = Ok (Some r)
                   /\ (0 <=? r) = true /\ (r <=? 100) = true)
        /\ (gains = infinity -> losses = infinity ->
            calculate_rsi prices period = Ok (Some nan)))
  /\ (forall (prices : list float) period,
        (0 < period < length prices)%nat ->
        (Z.of_nat period < 2 ^ 63)%Z ->
        Forall (fun d => nonneg d = true) (window_deltas prices period) ->
        calculate_rsi prices period = Ok (Some 100))
  /\ (forall (prices : list Q) period,
        (0 < period < length prices)%nat ->
        exists r, calculate_rsi prices period = Ok (Some r)
                  /\ (0 <= r <= 100)%Q
                  /\ ((r == 100)%Q
                      <-> Forall (fun d => nonneg d = true)
                                 (window_deltas prices period))).
Proof.
  split; [intros; apply calculate_rsi_absent_iff|].
  split; [apply float_rsi_range|].
  split; [apply float_rsi_saturates_count|apply exact_rsi].
Qed.

(** C5 (amended): [calculate_macd(prices, 12, 26, 9)] is absent exactly
    when [len(prices) < slow + signal].  On a constant series of at
    least [slow + signal] prices [v], both returned values are 0 when
    computed without rounding; in binary64 they are 0.0 when the two
    EMAs reproduce [v] ([v*k + v*(1-k)] rounds to [v] for [k = 2/13] and
    [k = 2/27]) and [v - v] is [0.0]. *)
Theorem C5_macd_absent_and_constant :
  (forall (num : Type) (arith : PyNum num) (prices : list num)
          fast slow signal,
      calculate_macd prices fast slow signal = Ok (None, None)
      <-> (length prices < slow + signal)%nat)
  /\ (forall (prices : list float),
        (26 + 9 <= length prices)%nat ->
        exists m s, calculate_macd prices 12 26 9 = Ok (Some m, Some s))
  /\ (forall (v : float) n,
        (26 + 9 <= n)%nat ->
        ema_keeps 12 v -> ema_keeps 26 v -> v - v = 0 ->
        calculate_macd (repeat v n) 12 26 9 = Ok (Some 0, Some 0))
  /\ (forall (v : Q) n fast slow signal,
        (0 < n)%nat -> (slow + signal <= n)%nat ->
        exists m s,
          calculate_macd (repeat v n) fast slow signal = Ok (Some m, Some s)
          /\ (m == 0)%Q /\ (s == 0)%Q).
Proof.
  split; [intros; apply calculate_macd_absent_iff|].
  split; [apply float_macd_present|].
  split; [|apply exact_macd_constant].
  intros v n Hn Hf Hs Hz.
  assert (Hg : ema_keeps 9 (sub v v)).
  { cbn [sub binary64]. rewrite Hz. eexists. split; vm_compute; reflexivity. }
  rewrite (@calculate_macd_constant float binary64 v n 12 26 9
             ltac:(lia) Hn Hf Hs Hg).
  cbn [sub binary64]. now rewrite Hz.
Qed.
End Binary64Indicators.

(* ================================================================== *)
(** ** The moving average and the mean *)

Section MeanClaim.
Local Open Scope float_scope.

(** C7 as the specification words it fails in binary64.  The sum of
    [huge_prices] overflows: the result is infinite, and the mean is
    1e308.  In [absorbed_prices] the running sum [2^53] absorbs the two
    prices 1: the result is [2^51 + 0.5], and the mean is [2^51 + 1].
    With a period of 0 the division raises. *)
#[warnings="-inexact-float"]
Lemma C7_binary64_not_mean :
  (moving_average huge_prices 2 = Ok (Some infinity)
   /\ is_mean_of 1e308 huge_prices
   /\ ~ (exists m, moving_average huge_prices 2 = Ok (Some m)
                   /\ is_mean_of m (lastn 2 huge_prices)))
  /\ (moving_average absorbed_prices 4 = Ok (Some (0x1p51 + 0.5))
      /\ is_mean_of (0x1p51 + 1) absorbed_prices
      /\ ~ (exists m, moving_average absorbed_prices 4 = Ok (Some m)
                      /\ is_mean_of m (lastn 4 absorbed_prices)))
  /\ moving_average [1] 0 = Raise ZeroDivisionError.
Proof.
  assert (Mean : forall m l v vs,
             float_value m = Some v -> float_values l = Some vs ->
             (v == arithmetic_mean vs)%Q -> is_mean_of m l).
  { intros m l v vs Hv Hvs Hm. now exists v, vs. }
  assert (Res : forall (r : result (option float)) m x,
             r = Ok (Some x) -> r = Ok (Some m) -> m = x).
  { intros r m x E1 E2. rewrite E1 in E2.
    now apply (f_equal (fun r => match r with
                                 | Ok (Some y) => y
                                 | _ => 0
                                 end)) in E2. }
  split; [|split].
  - assert (E : moving_average huge_prices 2 = Ok (Some infinity))
      by (vm_compute; reflexivity).
    split; [exact E|].
    split; [eapply Mean; vm_compute; reflexivity|].
    intros [m [Em [v [vs [Hv _]]]]].
    rewrite (Res _ _ _ E Em) in Hv. vm_compute in Hv. discriminate.
  - assert (E : moving_average absorbed_prices 4
                = Ok (Some (0x1p51 + 0.5)))
      by (vm_compute; reflexivity).
    split; [exact E|].
    split; [eapply Mean; vm_compute; reflexivity|].
    intros [m [Em [v [vs [Hv [Hvs Hm]]]]]].
    rewrite (Res _ _ _ E Em) in Hv.
    vm_compute in Hv. injection Hv as <-.
    vm_compute in Hvs. injection Hvs as <-.
    vm_compute in Hm. discriminate.
  - reflexivity.
Qed.

(** C7 (amended): [moving_average(prices, period)] is absent when
    [len(prices) < period]; otherwise, for a period of at least 1, it is
    the sum from the left of the last [period] elements, divided by
    [period].  Computed without rounding this is the arithmetic mean of
    the last [period] elements, and with [len(prices) == period] the
    mean of all the elements. *)
Theorem C7_moving_average_is_mean :
  (forall (num : Type) (N : PyNum num) (prices : list num) (period : nat),
      (length prices < period -> moving_average prices period = Ok None)
      /\ (0 < period <= length prices ->
          moving_average prices period
          = Ok (Some (quot (fold_left add (lastn period prices) (of_int 0))
                           (of_int (Z.of_nat period))))))
  /\ (forall (prices : list Q) (period : nat),
        (0 < period <= length prices)%nat ->
        exists m, moving_average prices period = Ok (Some m)
                  /\ (m == arithmetic_mean (lastn period prices))%Q)
  /\ (forall (prices : list Q) (period : nat),
        (0 < period)%nat -> length prices = period ->
        exists m, moving_average prices period = Ok (Some m)
                  /\ (m == arithmetic_mean prices)%Q).
Proof.
  split; [|split].
  - intros num N prices period.
    split; [apply moving_average_short|apply moving_average_present].
  - apply exact_moving_average_mean.
  - intros prices period Hp Hl.
    destruct (@exact_moving_average_mean prices period) as [m [E Hm]]; [lia|].
    exists m. split; [exact E|]. now rewrite lastn_all in Hm by lia.
Qed.

End MeanClaim.

(* ================================================================== *)
(** ** The decision rule on binary64 *)

Section DecisionClaims.
Local Open Scope float_scope.

(** C2 (the code departs from it): with [ma20] absent the rule does not
    answer HOLD, it fails: [price > None] raises [TypeError], whatever
    the other arguments, as at
    [get_action(110.0, None, 30.0, 1.0, 0.5)].  With [ma20] present,
    an absent [rsi14], [macd] or [macd_signal] does give HOLD. *)
Theorem C2_absent_ma20_raises :
  get_action 110 None (Some 30) (Some 1) (Some 0.5) = Raise TypeError
  /\ (forall (price : float) rsi14 macd macd_signal,
        get_action price None rsi14 macd macd_signal = Raise TypeError)
  /\ (forall (price ma : float) rsi14 macd macd_signal,
        get_action price (Some ma) None macd macd_signal = Ok (HOLD, YELLOW)
        /\ get_action price (Some ma) rsi14 None macd_signal
           = Ok (HOLD, YELLOW)
        /\ get_action price (Some ma) rsi14 macd None = Ok (HOLD, YELLOW)).
Proof.
  split; [reflexivity|].
  split; [intros; apply get_action_ma20_absent|].
  intros. repeat split; apply get_action_other_absent; auto.
Qed.

(** C4: with the four indicators present, [get_action] returns BUY
    exactly when [price > ma] and [rsi < 35] and [macd > signal], SELL
    exactly when [price < ma] and [rsi > 65] and [macd < signal], and
    HOLD in every other case; (110, 100, 30, 1, 0.5) gives BUY and
    (90, 100, 70, -1, -0.5) gives SELL. *)
Theorem C4_decision_rule (price ma rsi macd signal : float) :
  let r := get_action price (Some ma) (Some rsi) (Some macd) (Some signal) in
  let buy :=
    (ma <? price) = true /\ (rsi <? 35) = true /\ (signal <? macd) = true in
  let sell :=
    (price <? ma) = true /\ (65 <? rsi) = true /\ (macd <? signal) = true in
  (r = Ok (BUY, GREEN) <-> buy)
  /\ (r = Ok (SELL, RED) <-> sell)
  /\ (r = Ok (HOLD, YELLOW) <-> ~ buy /\ ~ sell)
  /\ get_action 110 (Some 100) (Some 30) (Some 1) (Some 0.5)
     = Ok (BUY, GREEN)
  /\ get_action 90 (Some 100) (Some 70) (Some (-1)) (Some (-0.5))
     = Ok (SELL, RED).
Proof.
  intros r buy sell. subst r buy sell.
  rewrite get_action_present. unfold gtb. cbn [ltb of_int binary64].
  change (float_of_int 35) with 35. change (float_of_int 65) with 65.
  pose proof (@float_ltb_asym ma price) as Hasym.
  destruct (ma <? price) eqn:E1, (rsi <? 35) eqn:E2,
           (signal <? macd) eqn:E3;
    cbn [andb];
    try rewrite (Hasym eq_refl); cbn [andb];
    destruct (price <? ma) eqn:E4, (65 <? rsi) eqn:E5,
             (macd <? signal) eqn:E6;
    cbn [andb];
    (repeat split; try reflexivity; try discriminate;
     try tauto; try (intros [? [? ?]]; discriminate);
     try (intros [[? [? ?]] _]; discriminate);
     try (intros [_ [? [? ?]]]; discriminate);
     try (intros _; split; intros [? [? ?]]; discriminate);
     try (intros [Hb _]; exfalso; apply Hb; repeat split);
     try (intros [_ Hs]; exfalso; apply Hs; repeat split)).
Qed.
End DecisionClaims.

(* ================================================================== *)
(** ** The 35 rising prices *)

Section LinearPrices.
Local Open Scope float_scope.

(** C1 as the specification words it: MA20 = 115.5 and RSI14 = 100. *)
Lemma C1_spec_value_refuted :
  ~ (moving_average linear_prices 20 = Ok (Some 115.5)
     /\ calculate_rsi linear_prices 14 = Ok (Some 100)).
Proof.
  intros [Hma _].
  assert (E : moving_average linear_prices 20 = Ok (Some 124.5))
    by (vm_compute; reflexivity).
  rewrite E in Hma.
  apply (f_equal (fun r => match r with Ok (Some x) => x | _ => 0 end))
    in Hma.
  revert Hma. apply float_neq; vm_compute; reflexivity.
Qed.

(** C1 (amended): on the 35 prices 100, 101, ..., 134,
    [moving_average(prices, 20)] is 124.5, the mean of the last 20
    prices 115, ..., 134, and [calculate_rsi(prices, 14)] is 100.0. *)
Theorem C1_linear_prices :
  length linear_prices = 35%nat
  /\ getitem linear_prices 0 = Ok 100
  /\ getitem linear_prices (-1) = Ok 134
  /\ is_mean_of 124.5 (lastn 20 linear_prices)
  /\ moving_average linear_prices 20 = Ok (Some 124.5)
  /\ calculate_rsi linear_prices 14 = Ok (Some 100).
Proof.
  repeat split; try (vm_compute; reflexivity).
  eexists. eexists. repeat split; vm_compute; reflexivity.
Qed.
End LinearPrices.

(* ================================================================== *)
(** ** The theorems at concrete inputs *)

Section Instances.
Local Open Scope float_scope.

(** C7 at two prices against a period of 3, and at three prices. *)
Lemma C7_moving_average_witness :
  moving_average [1; 2] 3 = Ok None
  /\ moving_average [9; 1; 2; 6] 3 = Ok (Some ((0 + 1 + 2 + 6) / 3))
  /\ (exists m : Q, moving_average [9; 1; 2; 6]%Q 3 = Ok (Some m)
                    /\ (m == arithmetic_mean [1; 2; 6])%Q)
  /\ (exists m : Q, moving_average [1; 2; 6]%Q 3 = Ok (Some m)
                    /\ (m == 3)%Q).
Proof.
  destruct C7_moving_average_is_mean as [Hgen [Hmean Hall]].
  split; [apply (Hgen float binary64 [1; 2] 3%nat); simpl; lia|].
  split; [apply (Hgen float binary64 [9; 1; 2; 6] 3%nat); simpl; lia|].
  split; [apply (Hmean [9; 1; 2; 6]%Q 3%nat); simpl; lia|].
  destruct (Hall [1; 2; 6]%Q 3%nat) as [m [E Hm]]; [lia|reflexivity|].
  exists m. split; [exact E|]. rewrite Hm. reflexivity.
Defined.

(** C6 at the series 10, 11, 13 and the period 12. *)
Lemma C6_ema_witness :
  let series := [10; 11; 13] in
  let k := quot (of_int 2) (add (of_int 12) (of_int 1)) in
  exists out,
    ema series 12 = Ok out
    /\ length out = length series
    /\ nth_error out 0 = nth_error series 0
    /\ (forall i v p,
          nth_error series (S i) = Some v ->
          nth_error out i = Some p ->
          nth_error out (S i)
          = Some (add (mul v k) (mul p (sub (of_int 1) k))))
    /\ (forall x, series = [x] -> out = [x]).
Proof.
  exact (@C6_ema_recurrence float binary64 [10; 11; 13] 12
           ltac:(discriminate)).
Defined.

(** C10 at five prices and the period 2. *)
Lemma C10_rsi_window_witness :
  calculate_rsi [5; 4; 1; 2; 4] 2
  = calculate_rsi (slice_from (-3) [5; 4; 1; 2; 4]) 2.
Proof.
  apply (@C10_rsi_reads_window float binary64 [5; 4; 1; 2; 4] 2).
  simpl. lia.
Defined.

(** C8 at a capacity of 2: three appended prices, and a run of three
    fetched prices with one failure between them. *)
Lemma C8_rolling_buffer_witness :
  let cfg := {| symbol := "SOLEUR"; interval := 0.5; history := 2 |} in
  let fs := [Fetched 1; FetchFailed "timeout"; Fetched 2; Fetched 3] in
  let st := {| prices := [2; 3]; last_action := None |} in
  append_all 2 [1; 2; 3] [] = Ok [2; 3]
  /\ prices st = lastn 2 (fetched_prices fs)
  /\ (length (prices st) <= 2)%nat.
Proof.
  intros cfg fs st.
  destruct (C8_rolling_buffer cfg [1; 2; 3] fs) as [_ [_ [Hfull Hrun]]].
  split; [apply Hfull; reflexivity|].
  eapply Hrun. vm_compute. reflexivity.
Defined.

Lemma C9_fetch_failure_witness :
  (forall e, tick sample_config (FetchFailed e) initial
             = Returns (initial, retry_output sample_config e))
  /\ run sample_config (map (@FetchFailed float) ["timeout"%string; "HTTP 500"%string])
         initial
     = Returns (initial,
                flat_map (retry_output sample_config) ["timeout"%string; "HTTP 500"%string])
  /\ run sample_config
         (map (@FetchFailed float) ["timeout"%string; "HTTP 500"%string] ++ [Fetched 100])
         initial
     = ('(st', out) <~ run sample_config [Fetched 100] initial ;;
        Returns (st',
                 flat_map (retry_output sample_config) ["timeout"%string; "HTTP 500"%string]
                   ++ out)).
Proof.
  apply (proj1 (C9_fetch_failure_retries sample_config initial
                  ["timeout"%string; "HTTP 500"%string] [Fetched 100])).
  vm_compute. reflexivity.
Defined.

(** C3 at a short list, at the 35 rising prices, and without rounding at
    the prices 1, 2, 3, 2. *)
Lemma C3_rsi_witness :
  (calculate_rsi [1; 2] 3 = Ok None <-> (length [1; 2] <= 3)%nat)
  /\ (exists r, calculate_rsi [1; 2; 3; 2.5] 3 = Ok (Some r)
                /\ (0 <=? r) = true /\ (r <=? 100) = true)
  /\ calculate_rsi linear_prices 14 = Ok (Some 100)
  /\ (exists r,
        calculate_rsi (map inject_Z [1; 2; 3; 2]%Z) 3 = Ok (Some r)
        /\ (0 <= r <= 100)%Q
        /\ ((r == 100)%Q
            <-> Forall (fun d => nonneg d = true)
                       (window_deltas (map inject_Z [1; 2; 3; 2]%Z) 3))).
Proof.
  destruct C3_rsi_absent_range_saturation
    as [Habsent [Hrange [Hsat Hexact]]].
  split; [exact (Habsent float binary64 [1; 2] 3%nat)|].
  split; [|split].
  - apply (proj1 (Hrange [1; 2; 3; 2.5] 3%nat 2 0.5
                    ltac:(simpl; lia) ltac:(simpl; lia)
                    ltac:(repeat constructor; vm_compute; discriminate)
                    ltac:(vm_compute; reflexivity))).
    intros [Hg _]. revert Hg. apply float_neq; vm_compute; reflexivity.
  - apply Hsat.
    + simpl. lia.
    + simpl. lia.
    + assert (Hw : window_deltas linear_prices 14 = repeat 1 14)
        by (vm_compute; reflexivity).
      rewrite Hw. apply Forall_forall. intros d Hd.
      apply repeat_spec in Hd. subst d. vm_compute. reflexivity.
  - apply Hexact. simpl. lia.
Defined.

(** C5 at ten prices, at the 35 rising prices, at the constant series
    of 100.0, and without rounding at the constant series of 100.2. *)
Lemma C5_macd_witness :
  (calculate_macd (repeat 100 10) 12 26 9 = Ok (None, None)
   <-> (length (repeat 100 10) < 26 + 9)%nat)
  /\ (exists m s, calculate_macd linear_prices 12 26 9 = Ok (Some m, Some s))
  /\ calculate_macd (repeat 100 35) 12 26 9 = Ok (Some 0, Some 0)
  /\ (exists m s,
        calculate_macd (repeat (1002 # 10)%Q 35) 12 26 9
        = Ok (Some m, Some s)
        /\ (m == 0)%Q /\ (s == 0)%Q).
Proof.
  destruct C5_macd_absent_and_constant
    as [Habsent [Hpresent [Hfloat Hexact]]].
  split; [exact (Habsent float binary64 (repeat 100 10) 12%nat 26%nat 9%nat)|].
  split; [apply Hpresent; simpl; lia|].
  split.
  - apply Hfloat.
    + lia.
    + eexists. split; vm_compute; reflexivity.
    + eexists. split; vm_compute; reflexivity.
    + vm_compute. reflexivity.
  - apply Hexact; lia.
Defined.
End Instances.

(* ================================================================== *)
(** ** Further properties: sparkline, decision rule, indicators, loop *)

Section TerminalFacts.
Context {num : Type} `{PyNum num} `{PyTrunc num}.

Lemma py_min_repeat (v : num) n : py_min (repeat v (S n)) = Returns v.
Proof.
  unfold py_min. cbn [repeat]. f_equal.
  induction n as [|n IH]; [reflexivity|].
  cbn [repeat fold_left]. now destruct (ltb v v).
Qed.

Lemma py_max_repeat (v : num) n : py_max (repeat v (S n)) = Returns v.
Proof.
  unfold py_max. cbn [repeat]. f_equal.
  induction n as [|n IH]; [reflexivity|].
  cbn [repeat fold_left]. now destruct (gtb v v).
Qed.

Lemma sparkline_loop_length lo hi : forall (prices : list num) out,
  sparkline_loop lo hi prices = Returns out -> length out = length prices.
Proof.
  intros prices. induction prices as [|p rest IH]; intros out E; simpl in E.
  - now injection E as <-.
  - destruct (glyph lo hi p); [|discriminate]. cbn [and_then] in E.
    destruct (sparkline_loop lo hi rest) as [o|]; [|discriminate].
    cbn [and_then] in E. injection E as <-. simpl. f_equal. now apply IH.
Qed.

(** Whatever [sparkline] returns has one glyph per price. *)
Lemma sparkline_length (prices : list num) out :
  sparkline prices = Returns out -> length out = length prices.
Proof.
  unfold sparkline. destruct (py_min prices) as [lo|]; [|discriminate].
  destruct (py_max prices) as [hi|]; [|discriminate]. cbn [and_then].
  destruct (eqb hi lo).
  - intros E. injection E as <-. apply repeat_length.
  - apply sparkline_loop_length.
Qed.

(** X1: a history that holds one price, repeated, is drawn as the lowest
    glyph once per price: [sparkline] takes the [hi == lo] branch and
    never divides.  The price must equal itself, which excludes NaN. *)
Theorem sparkline_constant (v : num) n :
  0 < n -> eqb v v = true ->
  sparkline (repeat v n) = Returns (repeat 0x2581%N n).
Proof.
  intros Hn Hv. destruct n as [|n]; [lia|].
  unfold sparkline. rewrite py_min_repeat, py_max_repeat. cbn [and_then].
  rewrite Hv. now rewrite repeat_length.
Qed.
End TerminalFacts.

Section ExactTerminal.
Local Open Scope Q_scope.

Lemma exact_min_fold : forall (rest : list Q) (cur : Q),
  let m := fold_left (fun cur item => if ltb item cur then item else cur)
                     rest cur in
  m <= cur /\ (forall x, In x rest -> m <= x) /\ (m = cur \/ In m rest).
Proof.
  induction rest as [|y rest IH]; intros cur; cbn zeta.
  - simpl. split; [lra|]. split; [contradiction|]. now left.
  - cbn [fold_left].
    destruct (ltb y cur) eqn:E.
    + apply exact_ltb in E. destruct (IH y) as [H1 [H2 H3]].
      split; [lra|]. split.
      * intros x [->|Hx]; [assumption|now apply H2].
      * right. destruct H3 as [->|H3]; [now left|now right].
    + assert (cur <= y).
      { apply Qnot_lt_le. intros Hlt. apply exact_ltb in Hlt. congruence. }
      destruct (IH cur) as [H1 [H2 H3]].
      split; [assumption|]. split.
      * intros x [->|Hx]; [lra|now apply H2].
      * destruct H3 as [->|H3]; [now left|right; now right].
Qed.

Lemma exact_max_fold : forall (rest : list Q) (cur : Q),
  let m := fold_left (fun cur item => if gtb item cur then item else cur)
                     rest cur in
  cur <= m /\ (forall x, In x rest -> x <= m) /\ (m = cur \/ In m rest).
Proof.
  induction rest as [|y rest IH]; intros cur; cbn zeta.
  - simpl. split; [lra|]. split; [contradiction|]. now left.
  - cbn [fold_left].
    destruct (gtb y cur) eqn:E; unfold gtb in E.
    + apply exact_ltb in E. destruct (IH y) as [H1 [H2 H3]].
      split; [lra|]. split.
      * intros x [->|Hx]; [assumption|now apply H2].
      * right. destruct H3 as [->|H3]; [now left|now right].
    + assert (y <= cur).
      { apply Qnot_lt_le. intros Hlt. apply exact_ltb in Hlt. congruence. }
      destruct (IH cur) as [H1 [H2 H3]].
      split; [assumption|]. split.
      * intros x [->|Hx]; [lra|now apply H2].
      * destruct H3 as [->|H3]; [now left|right; now right].
Qed.

(** [min] and [max] of a list that is not empty are elements of it
    that bound the others. *)
Lemma exact_min_max (prices : list Q) :
  prices <> [] ->
  exists lo hi,
    py_min prices = Returns lo /\ py_max prices = Returns hi
    /\ In lo prices /\ In hi prices
    /\ (forall p, In p prices -> lo <= p <= hi).
Proof.
  destruct prices as [|x rest]; [contradiction|]. intros _.
  destruct (exact_min_fold rest x) as [L1 [L2 L3]].
  destruct (exact_max_fold rest x) as [U1 [U2 U3]].
  eexists. eexists. split; [reflexivity|]. split; [reflexivity|].
  split; [destruct L3 as [->|L3]; [now left|now right]|].
  split; [destruct U3 as [->|U3]; [now left|now right]|].
  intros p [<-|Hp]; split; auto.
Qed.

Lemma getitem_chars (i : Z) :
  (0 <= i <= 7)%Z -> getitem chars i = Ok (glyph_at i).
Proof.
  intros Hi.
  assert (Hc : (i = 0 \/ i = 1 \/ i = 2 \/ i = 3 \/ i = 4 \/ i = 5
                \/ i = 6 \/ i = 7)%Z) by lia.
  repeat (destruct Hc as [->|Hc]; [reflexivity|]). now subst.
Qed.

Lemma exact_trunc_floor (x : Q) :
  0 <= x -> to_int x = Returns (Qfloor x).
Proof.
  intros Hx. destruct x as [n d]. cbn [to_int exact_trunc Qnum Qden Qfloor].
  f_equal. apply Z.quot_div_nonneg; [|lia].
  unfold Qle in Hx. simpl in Hx. lia.
Qed.

Lemma exact_ratio (lo hi p : Q) :
  lo < hi -> lo <= p <= hi -> 0 <= (p - lo) / (hi - lo) * 7 <= 7.
Proof.
  intros Hlh [Hl Hh].
  assert (H0 : 0 <= (p - lo) / (hi - lo)) by (apply Qle_shift_div_l; lra).
  assert (H1 : (p - lo) / (hi - lo) <= 1) by (apply Qle_shift_div_r; lra).
  lra.
Qed.

Lemma exact_level_range (lo hi p : Q) :
  lo < hi -> lo <= p <= hi -> (0 <= level lo hi p <= 7)%Z.
Proof.
  intros Hlh Hp. destruct (exact_ratio Hlh Hp) as [H0 H7]. unfold level.
  split.
  - change 0%Z with (Qfloor 0). now apply Qfloor_resp_le.
  - change 7%Z with (Qfloor 7). now apply Qfloor_resp_le.
Qed.

Lemma exact_level_mono (lo hi p q : Q) :
  lo < hi -> p <= q -> (level lo hi p <= level lo hi q)%Z.
Proof.
  intros Hlh Hpq. unfold level. apply Qfloor_resp_le.
  assert ((p - lo) / (hi - lo) <= (q - lo) / (hi - lo)).
  { unfold Qdiv. apply Qmult_le_compat_r; [lra|].
    apply Qlt_le_weak, Qinv_lt_0_compat. lra. }
  lra.
Qed.

Lemma exact_level_lo (lo hi p : Q) :
  lo < hi -> p == lo -> level lo hi p = 0%Z.
Proof.
  intros Hlh Hp. unfold level.
  assert (E : (p - lo) / (hi - lo) * 7 == 0) by (rewrite Hp; field; lra).
  now rewrite E.
Qed.

Lemma exact_level_hi (lo hi p : Q) :
  lo < hi -> p == hi -> level lo hi p = 7%Z.
Proof.
  intros Hlh Hp. unfold level.
  assert (E : (p - lo) / (hi - lo) * 7 == 7) by (rewrite Hp; field; lra).
  now rewrite E.
Qed.

Lemma exact_glyph (lo hi p : Q) :
  lo < hi -> lo <= p <= hi ->
  glyph lo hi p = Returns (glyph_at (level lo hi p)).
Proof.
  intros Hlh Hp. unfold glyph, truediv.
  destruct (eqb (sub hi lo) (of_int 0)) eqn:E.
  { apply exact_eqb in E. cbn [sub exact of_int] in E.
    change (inject_Z 0) with 0 in E. lra. }
  cbn [lift and_then].
  change (of_int (Z.of_nat (length chars) - 1)) with 7.
  cbn [quot sub mul exact].
  rewrite exact_trunc_floor by (apply (exact_ratio Hlh Hp)).
  cbn [and_then]. fold (level lo hi p).
  rewrite getitem_chars by (apply exact_level_range; assumption).
  reflexivity.
Qed.

Lemma exact_sparkline_loop (lo hi : Q) : forall prices : list Q,
  lo < hi -> (forall p, In p prices -> lo <= p <= hi) ->
  sparkline_loop lo hi prices
  = Returns (map (fun p => glyph_at (level lo hi p)) prices).
Proof.
  intros prices.
  induction prices as [|p rest IH]; intros Hlh Hall; [reflexivity|].
  cbn [sparkline_loop map].
  rewrite exact_glyph by (auto; apply Hall; now left). cbn [and_then].
  rewrite IH by (auto; intros; apply Hall; now right). reflexivity.
Qed.

(** What [sparkline] computes without rounding. *)
Lemma exact_sparkline (prices : list Q) :
  prices <> [] ->
  exists lo hi,
    In lo prices /\ In hi prices
    /\ (forall p, In p prices -> lo <= p <= hi)
    /\ sparkline prices
       = Returns (if Qeq_bool hi lo then repeat 0x2581%N (length prices)
                  else map (fun p => glyph_at (level lo hi p)) prices).
Proof.
  intros Hne. destruct (exact_min_max Hne) as [lo [hi [El [Eh [Il [Ih Hb]]]]]].
  exists lo, hi. repeat (split; [assumption|]).
  unfold sparkline. rewrite El, Eh. cbn [and_then eqb exact].
  destruct (Qeq_bool hi lo) eqn:E; [reflexivity|].
  apply exact_sparkline_loop; [|assumption].
  assert (~ hi == lo) by (intros Hq; apply Qeq_bool_iff in Hq; congruence).
  destruct (Hb hi Ih). apply Qnot_le_lt. intros Hle. lra.
Qed.
End ExactTerminal.

Section ExactSparkline.
Local Open Scope Q_scope.

Lemma glyph_at_in_chars (i : Z) : (0 <= i <= 7)%Z -> In (glyph_at i) chars.
Proof.
  intros Hi.
  assert (Hc : (i = 0 \/ i = 1 \/ i = 2 \/ i = 3 \/ i = 4 \/ i = 5
                \/ i = 6 \/ i = 7)%Z) by lia.
  repeat (destruct Hc as [->|Hc]; [simpl; tauto|]). subst. simpl. tauto.
Qed.

Lemma glyph_at_mono (i j : Z) :
  (0 <= i <= j)%Z -> (glyph_at i <= glyph_at j)%N.
Proof. intros Hij. unfold glyph_at. lia. Qed.

(** X2: without rounding, [sparkline] of a list that is not empty returns
    one glyph per price, each one of the eight glyphs of [chars]. *)
Theorem sparkline_exact_total (prices : list Q) :
  prices <> [] ->
  exists out,
    sparkline prices = Returns out
    /\ length out = length prices
    /\ Forall (fun g => In g chars) out.
Proof.
  intros Hne. destruct (exact_sparkline Hne) as [lo [hi [Il [Ih [Hb E]]]]].
  eexists. split; [exact E|].
  split; [now apply sparkline_length in E|].
  destruct (Qeq_bool hi lo) eqn:Q.
  - apply Forall_forall. intros g Hg. apply repeat_spec in Hg. subst.
    now left.
  - assert (lo < hi).
    { assert (~ hi == lo) by (intros Hq; apply Qeq_bool_iff in Hq; congruence).
      destruct (Hb hi Ih). apply Qnot_le_lt. intros Hle. lra. }
    apply Forall_forall. intros g Hg. apply in_map_iff in Hg.
    destruct Hg as [p [<- Hp]].
    apply glyph_at_in_chars, exact_level_range; auto.
Qed.

(** X3: without rounding, a higher price never gets a lower glyph. *)
Theorem sparkline_exact_monotone (prices : list Q) out i j p q gi gj :
  sparkline prices = Returns out ->
  nth_error prices i = Some p -> nth_error prices j = Some q ->
  nth_error out i = Some gi -> nth_error out j = Some gj ->
  p <= q -> (gi <= gj)%N.
Proof.
  intros E Hp Hq Hgi Hgj Hpq.
  assert (Hne : prices <> []) by (intros ->; destruct i; discriminate).
  destruct (exact_sparkline Hne) as [lo [hi [Il [Ih [Hb E']]]]].
  rewrite E in E'. injection E' as ->.
  destruct (Qeq_bool hi lo) eqn:Q.
  - apply nth_error_In, repeat_spec in Hgi. apply nth_error_In, repeat_spec in Hgj.
    subst. lia.
  - assert (lo < hi).
    { assert (~ hi == lo) by (intros Hq'; apply Qeq_bool_iff in Hq'; congruence).
      destruct (Hb hi Ih). apply Qnot_le_lt. intros Hle. lra. }
    rewrite nth_error_map, Hp in Hgi. rewrite nth_error_map, Hq in Hgj.
    injection Hgi as <-. injection Hgj as <-.
    apply glyph_at_mono. split.
    + apply exact_level_range; [assumption|]. apply Hb. eapply nth_error_In; eauto.
    + now apply exact_level_mono.
Qed.

(** X4: without rounding, in a list with two different prices every
    lowest price gets the first glyph and every highest price the
    last. *)
Theorem sparkline_exact_extremes (prices : list Q) out a b i p g :
  sparkline prices = Returns out ->
  In a prices -> In b prices -> a < b ->
  nth_error prices i = Some p -> nth_error out i = Some g ->
  ((forall x, In x prices -> p <= x) -> g = 0x2581%N)
  /\ ((forall x, In x prices -> x <= p) -> g = 0x2588%N).
Proof.
  intros E Ha Hb' Hab Hp Hg.
  assert (Hne : prices <> []) by (intros ->; contradiction).
  destruct (exact_sparkline Hne) as [lo [hi [Il [Ih [Hb E']]]]].
  rewrite E in E'. injection E' as ->.
  assert (Hlh : lo < hi).
  { destruct (Hb a Ha), (Hb b Hb'). lra. }
  assert (Q : Qeq_bool hi lo = false).
  { destruct (Qeq_bool hi lo) eqn:Q; [|reflexivity].
    apply Qeq_bool_iff in Q. lra. }
  rewrite Q, nth_error_map, Hp in Hg. injection Hg as <-.
  assert (Ip : In p prices) by (eapply nth_error_In; eauto).
  destruct (Hb p Ip). split; intros Hext.
  - rewrite exact_level_lo; [reflexivity|assumption|].
    specialize (Hext lo Il). lra.
  - rewrite exact_level_hi; [reflexivity|assumption|].
    specialize (Hext hi Ih). lra.
Qed.
End ExactSparkline.

Section FloatSparkline.
Local Open Scope float_scope.

Lemma SFcompare_refl (x : spec_float) :
  x <> S754_nan -> SFcompare x x = Some Eq.
Proof.
  destruct x as [s|s| |s m e]; intros Hx; try reflexivity;
    try (destruct s; reflexivity); [contradiction|].
  simpl. rewrite Z.compare_refl, Pos.compare_cont_refl.
  now destruct s.
Qed.

(** A float that is not [==] to itself is NaN. *)
Lemma float_nan_eq (x : float) : (x =? x) = false -> x = nan.
Proof.
  intros E. apply Prim2SF_inj. change (Prim2SF nan) with S754_nan.
  rewrite FloatAxioms.eqb_spec in E. unfold SFeqb in E.
  destruct (Prim2SF x) as [s|s| |s m e] eqn:Hx; try reflexivity;
    rewrite SFcompare_refl in E by discriminate; discriminate.
Qed.

(** No comparison with NaN holds. *)
Lemma float_ltb_nan (y : float) : (y <? nan) = false /\ (nan <? y) = false.
Proof.
  rewrite !FloatAxioms.ltb_spec. change (Prim2SF nan) with S754_nan.
  unfold SFltb. now destruct (Prim2SF y) as [s|s| |s m e].
Qed.

Lemma float_min_nan (rest : list float) :
  py_min (nan :: rest) = Returns nan /\ py_max (nan :: rest) = Returns nan.
Proof.
  unfold py_min, py_max. split; f_equal.
  - induction rest as [|y rest IH]; [reflexivity|]. cbn [fold_left].
    cbn [ltb binary64]. now rewrite (proj1 (float_ltb_nan y)).
  - induction rest as [|y rest IH]; [reflexivity|]. cbn [fold_left].
    unfold gtb at 2. cbn [ltb binary64]. now rewrite (proj2 (float_ltb_nan y)).
Qed.

Lemma float_sparkline_nan (rest : list float) :
  sparkline (nan :: rest) = Fails ValueError.
Proof.
  unfold sparkline. destruct (float_min_nan rest) as [-> ->].
  cbn [and_then]. reflexivity.
Qed.

(** X5: in binary64, a history whose first price is NaN makes
    [sparkline] raise [ValueError] ([int] of a NaN), whatever follows. *)
Theorem sparkline_nan_first (x : float) (rest : list float) :
  (x =? x) = false -> sparkline (x :: rest) = Fails ValueError.
Proof.
  intros Hx. rewrite (float_nan_eq Hx). apply float_sparkline_nan.
Qed.

(** X6: [display] stops early on two histories: on an empty one it
    raises [IndexError] at [prices[-1]] before it prints anything, and
    in binary64 on one whose first price is NaN it prints the header
    and then raises the [ValueError] of [sparkline]. *)
Theorem display_stops_early (sym : string) (x : float) (rest : list float)
  (a : action) (c : color) (ma20 rsi14 macd macd_signal : option float) :
  display sym [] a c ma20 rsi14 macd macd_signal
  = ([], Some (Builtin IndexError))
  /\ ((x =? x) = false ->
      display sym (x :: rest) a c ma20 rsi14 macd macd_signal
      = ([LineHeader sym], Some ValueError)).
Proof.
  split; [reflexivity|]. intros Hx. rewrite (float_nan_eq Hx).
  unfold display.
  destruct (@getitem_last_in float (nan :: rest)) as [y [-> _]];
    [simpl; lia|].
  now rewrite float_sparkline_nan.
Qed.
End FloatSparkline.

Section DecisionExtras.
Context {num : Type} `{PyNum num}.

(** X7: with [ma20] given, [get_action] never raises, whatever else is
    absent, and the colour it returns is the one of its suggestion:
    green for BUY, red for SELL, yellow for HOLD. *)
Theorem get_action_returns_matching_color
  (price ma : num) (rsi14 macd macd_signal : option num) :
  exists a,
    get_action price (Some ma) rsi14 macd macd_signal = Ok (a, color_of a).
Proof.
  unfold get_action. cbn [gt_value lt_value bind].
  destruct (gtb price ma && buy_rest rsi14 macd macd_signal);
    [now exists BUY|].
  destruct (ltb price ma && sell_rest rsi14 macd macd_signal);
    [now exists SELL|now exists HOLD].
Qed.
End DecisionExtras.

Section FloatDecision.
Local Open Scope float_scope.

Lemma float_leb_not_gt (x y : float) : (x <=? y) = true -> (y <? x) = false.
Proof.
  rewrite FloatAxioms.leb_spec, FloatAxioms.ltb_spec. unfold SFleb, SFltb.
  rewrite (SFcompare_swap (Prim2SF x) (Prim2SF y)).
  now destruct (SFcompare (Prim2SF x) (Prim2SF y)) as [[| |]|].
Qed.

Lemma float_eqb_not_lt (x y : float) :
  (x =? y) = true -> (x <? y) = false /\ (y <? x) = false.
Proof.
  rewrite FloatAxioms.eqb_spec, !FloatAxioms.ltb_spec. unfold SFeqb, SFltb.
  rewrite (SFcompare_swap (Prim2SF x) (Prim2SF y)).
  now destruct (SFcompare (Prim2SF x) (Prim2SF y)) as [[| |]|].
Qed.

Lemma float_nan_not_lt (x y : float) :
  (x =? x) = false -> (x <? y) = false /\ (y <? x) = false.
Proof.
  intros Hx. rewrite (float_nan_eq Hx).
  destruct (float_ltb_nan y). now split.
Qed.

(** X8: in binary64, a price equal to the moving average, a MACD equal
    to its signal, or an RSI within [35, 65] gives HOLD, whatever the
    other values are. *)
Theorem get_action_neutral_is_hold (price ma rsi macd signal : float) :
  (price =? ma) = true
  \/ (macd =? signal) = true
  \/ ((35 <=? rsi) = true /\ (rsi <=? 65) = true) ->
  get_action price (Some ma) (Some rsi) (Some macd) (Some signal)
  = Ok (HOLD, YELLOW).
Proof.
  intros Hn. rewrite get_action_present. unfold gtb.
  cbn [ltb of_int binary64].
  change (float_of_int 35) with 35. change (float_of_int 65) with 65.
  destruct Hn as [Hn|[Hn|[Hlo Hhi]]].
  - destruct (float_eqb_not_lt Hn) as [-> ->]. reflexivity.
  - destruct (float_eqb_not_lt Hn) as [-> ->].
    now rewrite !andb_false_r.
  - rewrite (float_leb_not_gt Hlo), (float_leb_not_gt Hhi).
    now rewrite !andb_false_r.
Qed.

(** X9: in binary64, a NaN among the price and the four indicators
    gives HOLD. *)
Theorem get_action_nan_is_hold (price ma rsi macd signal : float) :
  (price =? price) = false \/ (ma =? ma) = false \/ (rsi =? rsi) = false
  \/ (macd =? macd) = false \/ (signal =? signal) = false ->
  get_action price (Some ma) (Some rsi) (Some macd) (Some signal)
  = Ok (HOLD, YELLOW).
Proof.
  intros Hn. rewrite get_action_present. unfold gtb.
  cbn [ltb of_int binary64].
  destruct Hn as [Hn|[Hn|[Hn|[Hn|Hn]]]].
  - destruct (float_nan_not_lt ma Hn) as [-> ->]. reflexivity.
  - destruct (float_nan_not_lt price Hn) as [-> ->]. reflexivity.
  - destruct (float_nan_not_lt (float_of_int 35) Hn) as [-> _].
    destruct (float_nan_not_lt (float_of_int 65) Hn) as [_ ->].
    now rewrite !andb_false_r.
  - destruct (float_nan_not_lt signal Hn) as [-> ->].
    now rewrite !andb_false_r.
  - destruct (float_nan_not_lt macd Hn) as [-> ->].
    now rewrite !andb_false_r.
Qed.
End FloatDecision.

Section IndicatorExtras.
Context {num : Type} `{PyNum num}.
Implicit Types (prices series old w : list num) (period : nat).

(** X10: [moving_average] reads the last [period] prices only: older
    prices in front of them change nothing. *)
Theorem moving_average_ignores_older old w period :
  period <= length w ->
  moving_average (old ++ w) period = moving_average w period.
Proof.
  intros Hl.
  rewrite (moving_average_window (old ++ w))
    by (rewrite length_app; lia).
  rewrite (moving_average_window w) by assumption.
  now rewrite lastn_app.
Qed.

(** X11: a period of 0 is an error, not an absent value:
    [moving_average] raises [ZeroDivisionError] on every list, and
    [calculate_rsi] on every list that is not empty. *)
Theorem period_zero_raises (p : num) prices :
  moving_average prices 0 = Raise ZeroDivisionError
  /\ calculate_rsi (p :: prices) 0 = Raise ZeroDivisionError
  /\ calculate_rsi (@nil num) 0 = Ok None.
Proof.
  split; [reflexivity|]. split; [|reflexivity].
  rewrite calculate_rsi_window by (simpl; lia).
  now destruct (fold_left _ _ _).
Qed.

Lemma last_default (l : list num) (d d' : num) :
  l <> [] -> last l d = last l d'.
Proof.
  induction l as [|x [|y l] IH]; intros Hne; [contradiction|reflexivity|].
  change (last (y :: l) d = last (y :: l) d'). apply IH. discriminate.
Qed.

Lemma ema_tail_app k : forall (a b : list num) prev,
  ema_tail k prev (a ++ b)
  = ema_tail k prev a ++ ema_tail k (last (ema_tail k prev a) prev) b.
Proof.
  induction a as [|v a IH]; intros b prev; [reflexivity|].
  cbn [app ema_tail]. rewrite IH. cbn [app]. f_equal.
  destruct (ema_tail k (ema_step k prev v) a) as [|n l] eqn:E;
    [reflexivity|].
  assert (E' : last (n :: l) (ema_step k prev v)
               = last (ema_step k prev v :: n :: l) prev).
  { transitivity (last (n :: l) prev); [|reflexivity].
    apply last_default. discriminate. }
  now rewrite E'.
Qed.

Lemma ema_series_prefix k (a b : list num) :
  firstn (length a) (ema_series k (a ++ b)) = ema_series k a.
Proof.
  destruct a as [|v a]; [reflexivity|].
  cbn [app ema_series length firstn]. f_equal.
  rewrite ema_tail_app.
  rewrite <- (ema_tail_length k a v) at 1.
  rewrite firstn_app, Nat.sub_diag, firstn_all. cbn [firstn].
  apply app_nil_r.
Qed.

(** X12: [ema] is causal: the outputs over a prefix of the series are
    the EMA of that prefix, whatever comes after it. *)
Theorem ema_of_prefix (a b : list num) period out :
  ema (a ++ b) period = Ok out ->
  ema a period = Ok (firstn (length a) out).
Proof.
  unfold ema. destruct (smoothing period) as [k|e]; [|discriminate].
  cbn [bind]. rewrite !ema_loop_series. intros E.
  apply (f_equal (fun r => match r with Ok x => x | _ => [] end)) in E.
  subst out. now rewrite ema_series_prefix.
Qed.

Lemma nth_error_combine_inv (A B : Type) : forall (a : list A) (b : list B) i x y,
  nth_error (combine a b) i = Some (x, y) ->
  nth_error a i = Some x /\ nth_error b i = Some y.
Proof.
  induction a as [|u a IH]; intros [|v b] [|i] x y E; simpl in E;
    try discriminate.
  - injection E as -> ->. now split.
  - simpl. now apply IH.
Qed.

Lemma nth_error_last_default (A : Type) (l : list A) :
  l <> [] -> exists x, nth_error l (length l - 1) = Some x
                       /\ getitem l (-1) = Ok x.
Proof.
  intros Hne.
  destruct (@getitem_from_end A 1 l) as [x [Hx E]].
  { destruct l; [contradiction|simpl; lia]. }
  exists x. split; [|exact Hx].
  unfold lastn in E.
  destruct (nth_error l (length l - 1)) as [y|] eqn:Hy.
  - rewrite (skipn_nth_error _ _ Hy) in E. congruence.
  - apply nth_error_None in Hy. destruct l; [contradiction|simpl in Hy; lia].
Qed.

(** What [calculate_macd] returns when it is not absent. *)
Lemma calculate_macd_unfold prices fast slow signal kf ks kg :
  prices <> [] -> slow + signal <= length prices ->
  smoothing fast = Ok kf -> smoothing slow = Ok ks ->
  smoothing signal = Ok kg ->
  let line :=
    map (fun fs => sub (fst fs) (snd fs))
        (combine (ema_series kf prices) (ema_series ks prices)) in
  exists f s g,
    nth_error (ema_series kf prices) (length prices - 1) = Some f
    /\ nth_error (ema_series ks prices) (length prices - 1) = Some s
    /\ nth_error (ema_series kg line) (length prices - 1) = Some g
    /\ length line = length prices
    /\ calculate_macd prices fast slow signal = Ok (Some (sub f s), Some g).
Proof.
  intros Hne Hl Hf Hs Hg line.
  assert (Hn : 0 < length prices) by (destruct prices; [contradiction|simpl; lia]).
  assert (LL : length line = length prices).
  { unfold line. rewrite length_map, length_combine, !ema_series_length. lia. }
  destruct (@nth_error_last_default num line) as [m [Nm Gm]].
  { intros E. rewrite E in LL. simpl in LL. lia. }
  destruct (@nth_error_last_default num (ema_series kg line)) as [g [Ng Gg]].
  { intros E. apply (f_equal (@length num)) in E.
    rewrite ema_series_length in E. simpl in E. lia. }
  rewrite ema_series_length, LL in Ng. rewrite LL in Nm.
  unfold line in Nm. rewrite nth_error_map in Nm.
  destruct (nth_error (combine _ _) _) as [[f s]|] eqn:Nc; [|discriminate].
  injection Nm as <-. apply nth_error_combine_inv in Nc. destruct Nc as [Nf Ns].
  exists f, s, g. repeat (split; [assumption|]).
  unfold calculate_macd.
  replace (length prices <? slow + signal) with false
    by (symmetry; apply Nat.ltb_ge; lia).
  unfold ema. rewrite Hf, Hs, Hg. cbn [bind]. rewrite !ema_loop_series.
  cbn [bind].
  rewrite (ema_series_length ks prices).
  assert (Hsl : slice_from (- Z.of_nat (length prices)) (ema_series kf prices)
                = ema_series kf prices).
  { rewrite <- (ema_series_length kf prices) at 1. apply slice_from_whole. }
  rewrite !Hsl. fold line.
  rewrite ema_loop_series. cbn [bind]. rewrite Gm, Gg. reflexivity.
Qed.

(** X13: with enough prices (and at least one), the MACD line returned is
    the last fast EMA minus the last slow EMA over all the prices (the
    trailing slice drops nothing), and the signal is the last value of
    the EMA of the whole series of those differences. *)
Theorem calculate_macd_is_last_difference prices fast slow signal kf ks kg :
  prices <> [] -> slow + signal <= length prices ->
  smoothing fast = Ok kf -> smoothing slow = Ok ks ->
  smoothing signal = Ok kg ->
  let line :=
    map (fun fs => sub (fst fs) (snd fs))
        (combine (ema_series kf prices) (ema_series ks prices)) in
  exists f s g,
    nth_error (ema_series kf prices) (length prices - 1) = Some f
    /\ nth_error (ema_series ks prices) (length prices - 1) = Some s
    /\ nth_error (ema_series kg line) (length prices - 1) = Some g
    /\ length line = length prices
    /\ calculate_macd prices fast slow signal = Ok (Some (sub f s), Some g).
Proof. apply calculate_macd_unfold. Qed.

(** X14: when [slow + signal] is 0 the absence test lets an empty list
    through, and the function raises [IndexError] at its first [[-1]]
    instead of returning the absent pair. *)
Theorem calculate_macd_empty fast k0 kf :
  smoothing fast = Ok kf -> smoothing 0 = Ok k0 ->
  calculate_macd (@nil num) fast 0 0 = Raise IndexError.
Proof.
  intros Hf H0. unfold calculate_macd, ema. rewrite Hf, H0. reflexivity.
Qed.
End IndicatorExtras.

Section ExactIndicators.
Local Open Scope Q_scope.

Lemma exact_count_succ (n : nat) :
  inject_Z (Z.of_nat (S n)) == inject_Z (Z.of_nat n) + 1.
Proof. rewrite Nat2Z.inj_succ. unfold Z.succ. now rewrite inject_Z_plus. Qed.

Lemma exact_sum_bounds (lo hi : Q) : forall (l : list Q) (acc : Q),
  (forall x, In x l -> lo <= x <= hi) ->
  acc + inject_Z (Z.of_nat (length l)) * lo <= fold_left Qplus l acc
  /\ fold_left Qplus l acc <= acc + inject_Z (Z.of_nat (length l)) * hi.
Proof.
  induction l as [|x l IH]; intros acc Hb.
  - simpl. change (inject_Z 0) with 0. lra.
  - cbn [fold_left length]. rewrite exact_count_succ.
    destruct (IH (acc + x) (fun y Hy => Hb y (or_intror Hy))) as [L U].
    destruct (Hb x (or_introl eq_refl)). lra.
Qed.

(** X15: without rounding, the moving average lies between any two
    bounds of the last [period] prices. *)
Theorem moving_average_exact_bounds (prices : list Q) (period : nat) lo hi :
  (0 < period <= length prices)%nat ->
  (forall p, In p (lastn period prices) -> lo <= p <= hi) ->
  exists m, moving_average prices period = Ok (Some m) /\ lo <= m <= hi.
Proof.
  intros [Hp Hl] Hb. rewrite moving_average_window by assumption.
  unfold truediv_int.
  assert (Hn : length (lastn period prices) = period)
    by (rewrite lastn_length; lia).
  destruct period as [|n]; [lia|]. cbn [bind].
  eexists. split; [reflexivity|]. cbn [quot exact of_int].
  pose proof (exact_of_nat_pos n) as HP.
  destruct (exact_sum_bounds (lastn (S n) prices) 0 Hb) as [L U].
  rewrite Hn in L, U. unfold sum.
  change (@add Q exact) with Qplus. change (of_int 0) with 0.
  split; [apply Qle_shift_div_l|apply Qle_shift_div_r]; lra.
Qed.

Lemma exact_smoothing_range (p : nat) :
  (0 < p)%nat -> 0 < 2 / (inject_Z (Z.of_nat p) + 1) <= 1.
Proof.
  intros Hp. destruct p as [|n]; [lia|].
  pose proof (exact_of_nat_pos n).
  assert (1 <= inject_Z (Z.of_nat (S n))).
  { rewrite exact_count_succ. pose proof (exact_of_nat_nonneg n). lra. }
  split; [apply Qlt_shift_div_l|apply Qle_shift_div_r]; lra.
Qed.

Lemma exact_ema_step_bounds (k prev v lo hi : Q) :
  0 <= k <= 1 -> lo <= prev <= hi -> lo <= v <= hi ->
  lo <= ema_step k prev v <= hi.
Proof.
  intros Hk Hp Hv. unfold ema_step. cbn [add mul sub of_int exact].
  change (inject_Z 1) with 1. nra.
Qed.

Lemma exact_ema_tail_bounds (k lo hi : Q) : forall (series : list Q) prev,
  0 <= k <= 1 -> lo <= prev <= hi ->
  (forall x, In x series -> lo <= x <= hi) ->
  forall y, In y (ema_tail k prev series) -> lo <= y <= hi.
Proof.
  induction series as [|v rest IH]; intros prev Hk Hp Hb y Hy;
    [contradiction|].
  cbn [ema_tail] in Hy.
  assert (Hs : lo <= ema_step k prev v <= hi)
    by (apply exact_ema_step_bounds; auto; apply Hb; now left).
  destruct Hy as [<-|Hy]; [assumption|].
  apply (IH (ema_step k prev v)); auto. intros x Hx. apply Hb. now right.
Qed.

(** X16: without rounding and for a period of at least 1, every output
    of [ema] lies between any two bounds of its inputs. *)
Theorem ema_exact_bounds (series : list Q) (period : nat) lo hi :
  (0 < period)%nat ->
  (forall x, In x series -> lo <= x <= hi) ->
  exists out, ema series period = Ok out
              /\ forall y, In y out -> lo <= y <= hi.
Proof.
  intros Hp Hb. rewrite exact_ema. eexists. split; [reflexivity|].
  destruct (exact_smoothing_range Hp) as [K0 K1].
  destruct series as [|v rest]; [contradiction|].
  cbn [ema_series]. intros y [<-|Hy]; [apply Hb; now left|].
  revert y Hy. apply exact_ema_tail_bounds.
  - lra.
  - apply Hb. now left.
  - intros x Hx. apply Hb. now right.
Qed.
End ExactIndicators.

Section ExactMacd.
Local Open Scope Q_scope.

Lemma Forall2_nth_error (A B : Type) (R : A -> B -> Prop) :
  forall (l1 : list A) (l2 : list B) i x y,
  Forall2 R l1 l2 ->
  nth_error l1 i = Some x -> nth_error l2 i = Some y -> R x y.
Proof.
  intros l1 l2 i x y HR. revert i.
  induction HR as [|u v l1 l2 Huv HR IH]; intros [|i] E1 E2; simpl in *;
    try discriminate.
  - congruence.
  - now apply (IH i).
Qed.

Lemma exact_ema_tail_affine (k a c : Q) :
  forall (s1 s2 : list Q) (p1 p2 : Q),
  p1 == a * p2 + c ->
  Forall2 (fun x y => x == a * y + c) s1 s2 ->
  Forall2 (fun x y => x == a * y + c) (ema_tail k p1 s1) (ema_tail k p2 s2).
Proof.
  intros s1 s2 p1 p2 Hp HR. revert p1 p2 Hp.
  induction HR as [|u v l1 l2 Huv HR IH]; intros p1 p2 Hp; [constructor|].
  cbn [ema_tail].
  assert (Hs : ema_step k p1 u == a * ema_step k p2 v + c).
  { unfold ema_step. cbn [add mul sub of_int exact].
    rewrite Hp, Huv. change (inject_Z 1) with 1. ring. }
  constructor; [exact Hs|]. now apply IH.
Qed.

Lemma exact_ema_series_affine (k a c : Q) (s1 s2 : list Q) :
  Forall2 (fun x y => x == a * y + c) s1 s2 ->
  Forall2 (fun x y => x == a * y + c) (ema_series k s1) (ema_series k s2).
Proof.
  intros HR. destruct HR as [|u v l1 l2 Huv HR]; [constructor|].
  cbn [ema_series]. constructor; [assumption|].
  now apply exact_ema_tail_affine.
Qed.

Lemma exact_line_affine (a c : Q) : forall (f1 f2 s1 s2 : list Q),
  Forall2 (fun x y => x == a * y + c) f1 f2 ->
  Forall2 (fun x y => x == a * y + c) s1 s2 ->
  Forall2 (fun x y => x == a * y + 0)
    (map (fun fs => sub (fst fs) (snd fs)) (combine f1 s1))
    (map (fun fs => sub (fst fs) (snd fs)) (combine f2 s2)).
Proof.
  intros f1 f2 s1 s2 HF. revert s1 s2.
  induction HF as [|u v l1 l2 Huv HF IH]; intros s1 s2 HS; [constructor|].
  destruct HS as [|u' v' m1 m2 Huv' HS]; [constructor|].
  cbn [combine map fst snd]. constructor; [|now apply IH].
  cbn [sub exact]. rewrite Huv, Huv'. ring.
Qed.

Lemma affine_map (a c : Q) (l : list Q) :
  Forall2 (fun x y => x == a * y + c) (map (fun p => a * p + c) l) l.
Proof. induction l; constructor; [reflexivity|assumption]. Qed.

(** X17: without rounding, replacing every price [p] by [a*p + c]
    multiplies the MACD line and its signal by [a]: a shift of the
    prices changes nothing, a change of unit scales both. *)
Theorem calculate_macd_exact_affine (prices : list Q) (a c : Q)
  (fast slow signal : nat) :
  prices <> [] -> (slow + signal <= length prices)%nat ->
  exists m s m' s',
    calculate_macd prices fast slow signal = Ok (Some m, Some s)
    /\ calculate_macd (map (fun p => a * p + c) prices) fast slow signal
       = Ok (Some m', Some s')
    /\ m' == a * m /\ s' == a * s.
Proof.
  intros Hne Hl.
  set (prices' := map (fun p => a * p + c) prices).
  assert (Hne' : prices' <> []).
  { unfold prices'. destruct prices; [contradiction|discriminate]. }
  assert (Hl' : (slow + signal <= length prices')%nat).
  { unfold prices'. now rewrite length_map. }
  destruct (@calculate_macd_unfold Q exact prices fast slow
              signal _ _ _ Hne Hl
              (exact_smoothing fast) (exact_smoothing slow)
              (exact_smoothing signal))
    as [f [s [g [Nf [Ns [Ng [_ E]]]]]]].
  destruct (@calculate_macd_unfold Q exact prices' fast slow
              signal _ _ _ Hne' Hl'
              (exact_smoothing fast) (exact_smoothing slow)
              (exact_smoothing signal))
    as [f' [s' [g' [Nf' [Ns' [Ng' [_ E']]]]]]].
  exists (sub f s), g, (sub f' s'), g'.
  split; [exact E|]. split; [exact E'|].
  assert (Hlen : length prices' = length prices)
    by (unfold prices'; apply length_map).
  rewrite Hlen in Nf', Ns', Ng'.
  pose proof (affine_map a c prices) as HP. fold prices' in HP.
  pose proof (exact_ema_series_affine
                (2 / (inject_Z (Z.of_nat fast) + 1)) HP) as HF.
  pose proof (exact_ema_series_affine
                (2 / (inject_Z (Z.of_nat slow) + 1)) HP) as HS.
  pose proof (exact_line_affine HF HS) as HL.
  pose proof (exact_ema_series_affine
                (2 / (inject_Z (Z.of_nat signal) + 1)) HL) as HG.
  pose proof (Forall2_nth_error _ HF Nf' Nf) as Rf.
  pose proof (Forall2_nth_error _ HS Ns' Ns) as Rs.
  pose proof (Forall2_nth_error _ HG Ng' Ng) as Rg.
  cbn beta in Rf, Rs, Rg. cbn [sub exact].
  split; [rewrite Rf, Rs; ring|rewrite Rg; ring].
Qed.
End ExactMacd.

Section ExactRsi.
Local Open Scope Q_scope.

Lemma exact_rsi_fold_sums : forall (ds : list Q) (g l : Q),
  fst (fold_left rsi_step ds (g, l)) == g + total_gain ds
  /\ snd (fold_left rsi_step ds (g, l)) == l + total_loss ds.
Proof.
  induction ds as [|d rest IH]; intros g l.
  - simpl. split; ring.
  - cbn [fold_left total_gain total_loss fold_right].
    fold (total_gain rest). fold (total_loss rest).
    unfold rsi_step at 2 4, gtb. cbn [ltb exact]. change (of_int 0) with 0.
    destruct (Qle_bool d 0); cbn [negb].
    + destruct (IH g (sub l d)) as [Hg Hl]. rewrite Hg, Hl.
      cbn [sub exact]. split; ring.
    + destruct (IH (add g d) l) as [Hg Hl]. rewrite Hg, Hl.
      cbn [add exact]. split; ring.
Qed.

Lemma exact_total_nonneg (ds : list Q) :
  0 <= total_gain ds /\ 0 <= total_loss ds.
Proof.
  induction ds as [|d rest [Hg Hl]]; [simpl; split; lra|].
  cbn [total_gain total_loss fold_right].
  fold (total_gain rest). fold (total_loss rest).
  destruct (Qle_bool d 0) eqn:E.
  - apply Qle_bool_iff in E. split; lra.
  - assert (0 < d).
    { apply Qnot_le_lt. intros Hle. apply Qle_bool_iff in Hle. congruence. }
    split; lra.
Qed.

(** The value after the loop when there was a loss. *)
Lemma exact_rsi_finish_value (g l : Q) (p : nat) :
  0 <= g -> 0 < l ->
  exists r, rsi_finish (g, l) (S p) = Ok (Some r)
            /\ r == 100 * g / (g + l).
Proof.
  intros Hg Hl. unfold rsi_finish, truediv_int. cbn [bind].
  pose proof (exact_of_nat_pos p) as HP.
  set (P := of_int (Z.of_nat (S p))) in *. change (0 < P) in HP.
  cbn [quot exact].
  assert (Hal : 0 < l / P) by (apply Qlt_shift_div_l; lra).
  assert (Hag : 0 <= g / P) by (apply Qle_shift_div_l; lra).
  destruct (eqb (l / P) (of_int 0)) eqn:E.
  { apply exact_eqb in E. change (of_int 0) with 0 in E. lra. }
  unfold truediv. rewrite E. cbn [bind quot add sub exact of_int].
  set (rs := (g / P) / (l / P)).
  assert (Hrs : 0 <= rs) by (apply Qle_shift_div_l; lra).
  change (inject_Z 1) with 1. change (inject_Z 100) with 100.
  change (inject_Z 0) with 0.
  destruct (eqb (1 + rs) 0) eqn:E1.
  { apply exact_eqb in E1. lra. }
  cbn [bind]. eexists. split; [reflexivity|].
  unfold rs. field. repeat split; lra.
Qed.

(** X18: without rounding, when the window has a loss the RSI is
    [100 * G / (G + L)], [G] being the sum of the gains of the window
    and [L] the sum of its losses; so it is 0 exactly when the window
    has no gain. *)
Theorem calculate_rsi_exact_formula (prices : list Q) (period : nat) :
  (0 < period < length prices)%nat ->
  let G := total_gain (window_deltas prices period) in
  let L := total_loss (window_deltas prices period) in
  0 < L ->
  exists r, calculate_rsi prices period = Ok (Some r)
            /\ r == 100 * G / (G + L)
            /\ (r == 0 <-> G == 0).
Proof.
  intros [Hp Hlen] G L HL. rewrite calculate_rsi_window by lia.
  destruct (exact_rsi_fold_sums (window_deltas prices period) 0 0)
    as [Eg El].
  destruct (exact_total_nonneg (window_deltas prices period)) as [HG _].
  fold G in Eg, HG. fold L in El.
  change (of_int 0) with 0.
  destruct (fold_left rsi_step (window_deltas prices period) (0, 0))
    as [g l]. cbn [fst snd] in *.
  destruct period as [|p]; [lia|].
  destruct (@exact_rsi_finish_value g l p) as [r [Er Hr]]; try lra.
  exists r. split; [exact Er|].
  assert (Hf : r == 100 * G / (G + L)).
  { rewrite Hr. assert (g == G) as -> by lra. assert (l == L) as -> by lra.
    reflexivity. }
  split; [exact Hf|]. rewrite Hf. split.
  - intros Hz.
    assert (H1 : 100 * G / (G + L) * (G + L) == 100 * G) by (field; lra).
    rewrite Hz in H1. lra.
  - intros Hz. rewrite Hz. field. lra.
Qed.
End ExactRsi.

Section LoopExtras.
Context {num : Type} `{PyNum num} `{PyTrunc num}.
Implicit Types (cfg : config num) (st : state num) (fs : list (fetch num))
  (out : list (output num)).

Lemma action_eqb_eq (a b : action) : action_eqb a b = true <-> a = b.
Proof. destruct a, b; simpl; split; intros E; congruence. Qed.

(** What a turn that fetched a price did: it is still collecting, or it
    displayed the suggestion computed from the new buffer. *)
Lemma tick_fetched cfg price st st' out :
  tick cfg (Fetched price) st = Returns (st', out) ->
  append_price (history cfg) price (prices st) = Ok (prices st')
  /\ ((shown out = [] /\ bells out = 0
       /\ sleeps out = [interval cfg]
       /\ last_action st' = last_action st
       /\ (moving_average (prices st') 20 = Ok None
           \/ calculate_rsi (prices st') 14 = Ok None
           \/ exists m s, calculate_macd (prices st') 12 26 9 = Ok (m, s)
                          /\ (m = None \/ s = None))
       /\ forall sym b a c x1 x2 x3 x4,
            ~ In (Display sym b a c x1 x2 x3 x4) out)
      \/ (exists ma rsi m s act col,
            moving_average (prices st') 20 = Ok (Some ma)
            /\ calculate_rsi (prices st') 14 = Ok (Some rsi)
            /\ calculate_macd (prices st') 12 26 9 = Ok (Some m, Some s)
            /\ get_action price (Some ma) (Some rsi) (Some m) (Some s)
               = Ok (act, col)
            /\ shown out = [act]
            /\ bells out = changes (last_action st) [act]
            /\ sleeps out = [interval cfg]
            /\ last_action st' = Some act
            /\ forall sym b a c x1 x2 x3 x4,
                 In (Display sym b a c x1 x2 x3 x4) out ->
                 Display sym b a c x1 x2 x3 x4
                 = Display (symbol cfg) (prices st') act col ma rsi m s)).
Proof.
  intros E. pose proof (tick_sleeps _ _ _ E) as Hs. revert E.
  cbn [tick]. rewrite ?Hs. intros E.
  destruct (append_price _ _ _) as [buf|]; [|discriminate].
  cbn [lift and_then] in E.
  destruct (moving_average buf 20) as [ma|] eqn:Ema; [|discriminate].
  cbn [lift and_then] in E.
  destruct (calculate_rsi buf 14) as [rsi|] eqn:Ersi; [|discriminate].
  cbn [lift and_then] in E.
  destruct (calculate_macd buf 12 26 9) as [[m sg]|] eqn:Emacd;
    [|discriminate].
  cbn [lift and_then] in E.
  assert (Hcollect :
    (ma = None \/ rsi = None \/ m = None \/ sg = None) ->
    moving_average buf 20 = Ok None
    \/ calculate_rsi buf 14 = Ok None
    \/ exists m0 s0, calculate_macd buf 12 26 9 = Ok (m0, s0)
                     /\ (m0 = None \/ s0 = None)).
  { rewrite Ema, Ersi, Emacd. intros [->|[->|Hn]]; [now left|right; now left|].
    right; right. now exists m, sg. }
  destruct ma as [ma|]; [destruct rsi as [rsi|];
    [destruct m as [m|]; [destruct sg as [sg|]|]|]|].
  2-5: (injection E as <- <-; cbn [prices last_action];
        split; [reflexivity|]; left; repeat (split; [reflexivity|]);
        split; [apply Hcollect; tauto|];
        intros sym0 b0 a0 c0 x1 x2 x3 x4 Hin; simpl in Hin;
        intuition discriminate).
  clear Hcollect.
  destruct (get_action _ _ _ _ _) as [[act col]|] eqn:Eact; [|discriminate].
  cbn [lift and_then] in E.
  destruct (display _ _ _ _ _ _ _ _) as [ls [fl|]]; [discriminate|].
  cbn [and_then] in E. injection E as <- <-. cbn [prices last_action].
  split; [reflexivity|]. right.
  exists ma, rsi, m, sg, act, col.
  rewrite Ema, Ersi, Emacd.
  repeat (split; [reflexivity|]). split; [exact Eact|].
  unfold action_changed. cbn [changes].
  destruct (last_action st) as [b|] eqn:Elast.
  - destruct (action_eqb act b) eqn:Eab; cbn [negb app].
    + apply action_eqb_eq in Eab. subst b.
      repeat (split; [reflexivity|]).
      intros sym b a c x1 x2 x3 x4 Hin; simpl in Hin.
      intuition (try discriminate; now symmetry).
    + repeat (split; [reflexivity|]).
      intros sym b0 a c x1 x2 x3 x4 Hin; simpl in Hin.
      intuition (try discriminate; now symmetry).
  - cbn [app]. repeat (split; [reflexivity|]).
    intros sym b0 a c x1 x2 x3 x4 Hin; simpl in Hin.
    intuition (try discriminate; now symmetry).
Qed.
End LoopExtras.

Section TraceFacts.
Context {num : Type}.
Implicit Types (o : list (output num)).

Lemma shown_app o1 o2 : shown (o1 ++ o2) = shown o1 ++ shown o2.
Proof.
  induction o1 as [|x o1 IH]; [reflexivity|].
  destruct x; simpl; rewrite IH; reflexivity.
Qed.

Lemma bells_app o1 o2 : bells (o1 ++ o2) = bells o1 + bells o2.
Proof.
  induction o1 as [|x o1 IH]; [reflexivity|].
  destruct x; simpl; rewrite IH; reflexivity.
Qed.

Lemma sleeps_app o1 o2 : sleeps (o1 ++ o2) = sleeps o1 ++ sleeps o2.
Proof.
  induction o1 as [|x o1 IH]; [reflexivity|].
  destruct x; simpl; rewrite IH; reflexivity.
Qed.

Lemma last_cons (A : Type) : forall (l : list A) (x d : A),
  last (x :: l) d = last l x.
Proof.
  induction l as [|y l IH]; intros x d; [reflexivity|].
  change (last (y :: l) d = last (y :: l) x). now rewrite !IH.
Qed.

Lemma changes_app : forall (l1 l2 : list action) (last0 : option action),
  changes last0 (l1 ++ l2)
  = changes last0 l1 + changes (last (map Some l1) last0) l2.
Proof.
  induction l1 as [|a l1 IH]; intros l2 last0; [reflexivity|].
  cbn [app changes map]. rewrite IH, Nat.add_assoc, last_cons.
  reflexivity.
Qed.

Lemma last_map_app (l1 l2 : list action) (d : option action) :
  last (map Some (l1 ++ l2)) d = last (map Some l2) (last (map Some l1) d).
Proof.
  rewrite map_app. revert d.
  induction (map Some l1) as [|x l IH]; intros d; [reflexivity|].
  cbn [app]. now rewrite !last_cons, IH.
Qed.
End TraceFacts.

Section RunFacts.
Context {num : Type} `{PyNum num} `{PyTrunc num}.
Implicit Types (cfg : config num) (st : state num) (fs : list (fetch num))
  (out : list (output num)).

(** The newest price is the last element of the buffer. *)
Lemma lastn_snoc_last (h : nat) (l : list num) (x : num) :
  0 < h -> getitem (lastn h (l ++ [x])) (-1) = Ok x.
Proof.
  intros Hh. unfold lastn. rewrite length_app. simpl.
  rewrite skipn_app.
  replace (length l + 1 - h - length l) with 0 by lia.
  apply getitem_last.
Qed.

Lemma tick_trace cfg f st st' out :
  length (prices st) <= history cfg ->
  tick cfg f st = Returns (st', out) ->
  length (prices st') <= history cfg
  /\ sleeps out = [interval cfg]
  /\ bells out = changes (last_action st) (shown out)
  /\ last_action st' = last (map Some (shown out)) (last_action st)
  /\ (history cfg < 26 + 9 -> shown out = [])
  /\ Forall (display_sound cfg) out.
Proof.
  intros Hl E. destruct f as [price|e].
  2:{ pose proof (tick_sleeps _ _ _ E) as Hs. cbn [tick] in E.
      rewrite Hs in E. injection E as <- <-.
      repeat split; try assumption; try reflexivity.
      repeat constructor. }
  destruct (tick_fetched _ _ _ E) as [Hb Hcase].
  rewrite append_price_ok in Hb by assumption.
  apply (f_equal (fun r => match r with Ok x => x | _ => [] end)) in Hb.
  assert (Hlen : length (prices st') <= history cfg)
    by (rewrite <- Hb, lastn_length; lia).
  split; [exact Hlen|].
  destruct Hcase as [[Hs [Hbell [Hsl [Hla [_ Hno]]]]]|
                     [ma [rsi [m [s [act [col Hd]]]]]]].
  - rewrite Hs, Hbell, Hsl, Hla. repeat (split; [reflexivity|]).
    apply Forall_forall. intros o Ho. destruct o; try exact I.
    now apply Hno in Ho.
  - destruct Hd as [Ema [Ersi [Emacd [Eact [Hs [Hbell [Hsl [Hla Hin]]]]]]]].
    assert (H35 : 26 + 9 <= length (prices st')).
    { destruct (Nat.lt_ge_cases (length (prices st')) (26 + 9)) as [Hlt|];
        [|assumption].
      rewrite (calculate_macd_short _ 12 26 9 Hlt) in Emacd. discriminate. }
    rewrite Hs, Hbell, Hsl, Hla. repeat (split; [reflexivity|]).
    split; [intros Hh; lia|].
    apply Forall_forall. intros o Ho. destruct o; try exact I.
    apply Hin in Ho.
    apply (f_equal (fun o => match o with
                             | Display sy b a c x1 x2 x3 x4 =>
                               Some (sy, b, a, c, (x1, x2, x3, x4))
                             | _ => None
                             end)) in Ho.
    injection Ho as -> -> -> -> -> -> -> ->.
    cbn [display_sound]. repeat (split; [assumption || reflexivity|]).
    split; [lia|]. repeat (split; [assumption|]).
    exists price. split; [|assumption].
    rewrite <- Hb. apply lastn_snoc_last. lia.
Qed.

Lemma run_trace cfg fs : forall st st' out,
  length (prices st) <= history cfg ->
  run cfg fs st = Returns (st', out) ->
  length (prices st') <= history cfg
  /\ sleeps out = repeat (interval cfg) (length fs)
  /\ bells out = changes (last_action st) (shown out)
  /\ last_action st' = last (map Some (shown out)) (last_action st)
  /\ (history cfg < 26 + 9 -> shown out = [])
  /\ Forall (display_sound cfg) out.
Proof.
  induction fs as [|f rest IH]; intros st st' out Hl E.
  - injection E as <- <-. repeat split; try assumption; try reflexivity.
    constructor.
  - cbn [run] in E.
    apply and_then_returns in E. destruct E as [[st1 o1] [E1 E]].
    apply and_then_returns in E. destruct E as [[st2 o2] [E2 E]].
    injection E as <- <-.
    destruct (@tick_trace cfg f st st1 o1 Hl E1) as [L1 [S1 [B1 [A1 [N1 D1]]]]].
    destruct (IH _ _ _ L1 E2) as [L2 [S2 [B2 [A2 [N2 D2]]]]].
    split; [exact L2|].
    rewrite sleeps_app, bells_app, shown_app, changes_app, last_map_app.
    rewrite S1, S2, B1, B2, A2, A1.
    repeat (split; [reflexivity|]).
    split; [intros Hh; now rewrite N1, N2|].
    apply Forall_app. now split.
Qed.
End RunFacts.

Section RunExtras.
Context {num : Type} `{PyNum num} `{PyTrunc num}.
Implicit Types (cfg : config num) (st : state num) (fs : list (fetch num))
  (out : list (output num)).

Lemma soleur_helper_trace cfg fs st' out :
  soleur_helper cfg fs = Returns (st', out) ->
  exists out', out = PrintStarting (symbol cfg) (interval cfg) :: out'
               /\ run cfg fs initial = Returns (st', out').
Proof.
  unfold soleur_helper. intros E.
  apply and_then_returns in E. destruct E as [[st1 o1] [E E1]].
  injection E1 as <- <-. now exists o1.
Qed.

Lemma run_trace_initial cfg fs st' out :
  run cfg fs initial = Returns (st', out) ->
  sleeps out = repeat (interval cfg) (length fs)
  /\ bells out = changes None (shown out)
  /\ last_action st' = last (map Some (shown out)) None
  /\ (history cfg < 26 + 9 -> shown out = [])
  /\ Forall (display_sound cfg) out.
Proof.
  intros E.
  apply (@run_trace num _ _ cfg fs initial st' out (Nat.le_0_l _)) in E.
  tauto.
Qed.

(** X19: the loop sleeps exactly once per turn, for the configured
    interval, whether the fetch failed, data is still being collected
    or a suggestion was displayed. *)
Theorem soleur_helper_sleeps_every_turn cfg fs st' out :
  soleur_helper cfg fs = Returns (st', out) ->
  sleeps out = repeat (interval cfg) (length fs).
Proof.
  intros E. apply soleur_helper_trace in E. destruct E as [out' [-> E']].
  apply run_trace_initial in E'.
  now destruct E' as [S _].
Qed.

(** X20: with a history capacity below 35 the loop never displays a
    suggestion and never rings the bell: the buffer cannot hold the 35
    prices the MACD needs. *)
Theorem soleur_helper_small_history cfg fs st' out :
  history cfg < 35 ->
  soleur_helper cfg fs = Returns (st', out) ->
  shown out = [] /\ bells out = 0 /\ last_action st' = None.
Proof.
  intros Hh E. apply soleur_helper_trace in E. destruct E as [out' [-> E']].
  apply run_trace_initial in E'.
  destruct E' as [_ [B [A [N _]]]].
  cbn [shown bells]. rewrite A, B, (N Hh). now repeat split.
Qed.

(** X21: the bell rings exactly when the displayed suggestion differs
    from the one displayed before it (the first one always rings), and
    the loop remembers the last suggestion it displayed. *)
Theorem soleur_helper_bell_on_change cfg fs st' out :
  soleur_helper cfg fs = Returns (st', out) ->
  bells out = changes None (shown out)
  /\ last_action st' = last (map Some (shown out)) None.
Proof.
  intros E. apply soleur_helper_trace in E. destruct E as [out' [-> E']].
  apply run_trace_initial in E'.
  destruct E' as [_ [B [A _]]].
  cbn [shown bells]. now split.
Qed.

(** X22: every suggestion displayed comes with the history it was
    computed from: at least 35 and at most [history] prices, whose
    moving average, RSI and MACD are the values shown, and the
    suggestion and colour are those of [get_action] at the newest
    price. *)
Theorem soleur_helper_displays_are_sound cfg fs st' out
  sym b a c ma rsi m s :
  soleur_helper cfg fs = Returns (st', out) ->
  In (Display sym b a c ma rsi m s) out ->
  sym = symbol cfg
  /\ 35 <= length b <= history cfg
  /\ moving_average b 20 = Ok (Some ma)
  /\ calculate_rsi b 14 = Ok (Some rsi)
  /\ calculate_macd b 12 26 9 = Ok (Some m, Some s)
  /\ exists price, getitem b (-1) = Ok price
                   /\ get_action price (Some ma) (Some rsi) (Some m) (Some s)
                      = Ok (a, c).
Proof.
  intros E Hin. apply soleur_helper_trace in E. destruct E as [out' [-> E']].
  apply run_trace_initial in E'.
  destruct E' as [_ [_ [_ [_ D]]]].
  destruct Hin as [Hin|Hin]; [discriminate|].
  rewrite Forall_forall in D. exact (D _ Hin).
Qed.
End RunExtras.

Section ExactLoop.
Implicit Types (cfg : config Q) (st : state Q) (fs : list (fetch Q))
  (out : list (output Q)).

Lemma exact_moving_average_20 (l : list Q) :
  (20 <= length l -> exists m, moving_average l 20 = Ok (Some m))
  /\ (length l < 20 -> moving_average l 20 = Ok None).
Proof.
  split; [|apply moving_average_short].
  intros Hl. rewrite moving_average_window by assumption.
  eexists. reflexivity.
Qed.

Lemma exact_macd_present (l : list Q) :
  26 + 9 <= length l ->
  exists m s, calculate_macd l 12 26 9 = Ok (Some m, Some s).
Proof.
  intros Hl.
  assert (Hne : l <> []) by (intros ->; simpl in Hl; lia).
  destruct (@calculate_macd_unfold Q exact l 12 26 9 _ _ _
              Hne Hl (exact_smoothing 12) (exact_smoothing 26)
              (exact_smoothing 9))
    as [f [s [g [_ [_ [_ [_ E]]]]]]].
  eauto.
Qed.

(** Without rounding [time.sleep] accepts every length from 0 to below
    2^63 nanoseconds. *)
Lemma exact_sleep (x : Q) :
  (0 <= x)%Q -> (x * inject_Z (10 ^ 9) < inject_Z (2 ^ 63))%Q ->
  sleep x = Returns tt.
Proof.
  intros H0 Hmax. unfold sleep.
  replace (eqb x x) with true
    by (symmetry; apply exact_eqb; reflexivity).
  cbn [negb].
  replace (ltb (mul x (of_int (10 ^ 9))) (of_int (- 2 ^ 63))) with false.
  2:{ symmetry. apply not_true_is_false. intros E. apply exact_ltb in E.
      cbn [mul of_int exact] in E.
      assert (0 <= x * inject_Z (10 ^ 9))%Q
        by (apply Qmult_le_0_compat; [assumption|discriminate]).
      assert (inject_Z (- 2 ^ 63) < 0)%Q by reflexivity. lra. }
  replace (ltb (of_int (2 ^ 63)) (mul x (of_int (10 ^ 9)))) with false.
  2:{ symmetry. apply not_true_is_false. intros E. apply exact_ltb in E.
      cbn [mul of_int exact] in E. lra. }
  replace (ltb x (of_int 0)) with false.
  2:{ symmetry. apply not_true_is_false. intros E. apply exact_ltb in E.
      cbn [of_int exact] in E. change (inject_Z 0) with 0%Q in E. lra. }
  replace (eqb (mul x (of_int (10 ^ 9))) (of_int (2 ^ 63))) with false.
  2:{ symmetry. apply not_true_is_false. intros E. apply exact_eqb in E.
      cbn [mul of_int exact] in E. lra. }
  reflexivity.
Qed.

(** Without rounding [display] raises on no history but the empty one. *)
Lemma exact_display_returns (sym : string) (b : list Q) (a : action)
  (c : color) (ma20 rsi14 macd macd_signal : option Q) :
  b <> [] ->
  exists ls, display sym b a c ma20 rsi14 macd macd_signal = (ls, None).
Proof.
  intros Hne.
  assert (Hl : 1 <= length b) by (destruct b; [congruence | simpl; lia]).
  destruct (@getitem_from_end _ 1 b) as [x [Hx _]]; [lia|].
  destruct (exact_sparkline Hne) as [lo [hi [_ [_ [_ Es]]]]].
  unfold display. change (- Z.of_nat 1)%Z with (-1)%Z in Hx.
  rewrite Hx, Es. eauto.
Qed.

(** Without rounding and with an interval [time.sleep] accepts, a turn
    always ends, and it displays a suggestion exactly when the buffer
    has reached 35 prices. *)
Lemma exact_tick cfg f st :
  sleep (interval cfg) = Returns tt ->
  length (prices st) <= history cfg ->
  exists st' out,
    tick cfg f st = Returns (st', out)
    /\ length (prices st')
       = match f with
         | Fetched _ => Nat.min (length (prices st) + 1) (history cfg)
         | FetchFailed _ => length (prices st)
         end
    /\ length (shown out)
       = match f with
         | Fetched _ => if 35 <=? length (prices st') then 1 else 0
         | FetchFailed _ => 0
         end.
Proof.
  intros Hs Hl. destruct f as [price|e]; cbn [tick]; rewrite ?Hs.
  2:{ eexists. eexists. split; [reflexivity|]. now split. }
  rewrite append_price_ok by assumption. cbn [lift and_then].
  set (buf := lastn (history cfg) (prices st ++ [price])).
  assert (Lb : length buf = Nat.min (length (prices st) + 1) (history cfg)).
  { unfold buf. rewrite lastn_length, length_app. simpl. lia. }
  destruct (Nat.lt_ge_cases (length buf) 35) as [Hlt|Hge].
  - assert (Em : calculate_macd buf 12 26 9 = Ok (None, None))
      by (apply calculate_macd_short; simpl; lia).
    assert (Ema : exists ma, moving_average buf 20 = Ok ma).
    { destruct (exact_moving_average_20 buf) as [H1 H2].
      destruct (Nat.lt_ge_cases (length buf) 20) as [Hsh|Hsh].
      - eexists. apply (H2 Hsh).
      - destruct (H1 Hsh) as [m Hm]. eauto. }
    assert (Ersi : exists r, calculate_rsi buf 14 = Ok r).
    { destruct (Nat.le_gt_cases (length buf) 14) as [Hsh|Hsh].
      - eexists. apply (calculate_rsi_short _ Hsh).
      - destruct (@exact_rsi buf 14) as [r [Hr _]]; [lia|]. eauto. }
    destruct Ema as [ma ->], Ersi as [rsi ->]. rewrite Em.
    cbn [lift and_then].
    eexists. eexists. split.
    + destruct ma, rsi; reflexivity.
    + cbn [prices shown length]. split; [exact Lb|].
      now replace (35 <=? length buf) with false
        by (symmetry; apply Nat.leb_gt; lia).
  - destruct (exact_moving_average_20 buf) as [[ma ->] _]; [lia|].
    destruct (@exact_rsi buf 14) as [rsi [-> _]]; [lia|].
    destruct (@exact_macd_present buf) as [m [s ->]]; [simpl; lia|].
    cbn [lift and_then].
    assert (Ea : exists a c, get_action price (Some ma) (Some rsi) (Some m)
                                        (Some s) = Ok (a, c)).
    { rewrite get_action_present.
      destruct (_ && _); [eauto|]. destruct (_ && _); eauto. }
    destruct Ea as [a [c ->]]. cbn [lift and_then].
    assert (Hne : buf <> []) by (intros E0; rewrite E0 in Hge; simpl in Hge; lia).
    destruct (@exact_display_returns (symbol cfg) buf a c (Some ma) (Some rsi)
                (Some m) (Some s) Hne) as [ls ->].
    cbn [and_then].
    eexists. eexists. split; [reflexivity|].
    cbn [prices]. split; [exact Lb|].
    replace (35 <=? length buf) with true
      by (symmetry; apply Nat.leb_le; lia).
    rewrite shown_app. now destruct (action_changed _ _).
Qed.

Lemma exact_run cfg fs : forall st,
  sleep (interval cfg) = Returns tt ->
  length (prices st) <= history cfg ->
  exists st' out,
    run cfg fs st = Returns (st', out)
    /\ length (shown out)
       = if history cfg <? 35 then 0
         else (length (prices st) + length (fetched_prices fs) - 34)
              - (length (prices st) - 34).
Proof.
  induction fs as [|f rest IH]; intros st Hs Hl.
  - eexists. eexists. split; [reflexivity|]. simpl.
    destruct (history cfg <? 35); lia.
  - destruct (@exact_tick cfg f st Hs Hl) as [st1 [o1 [E1 [L1 S1]]]].
    assert (Hl1 : length (prices st1) <= history cfg)
      by (destruct f; lia).
    destruct (IH st1 Hs Hl1) as [st2 [o2 [E2 S2]]].
    exists st2, (o1 ++ o2). cbn [run]. rewrite E1. cbn [and_then].
    rewrite E2. cbn [and_then]. split; [reflexivity|].
    rewrite shown_app, length_app, S1, S2.
    destruct f as [price|e]; cbn [fetched_prices length].
    + rewrite L1.
      destruct (history cfg <? 35) eqn:Hh.
      * apply Nat.ltb_lt in Hh.
        replace (35 <=? Nat.min (length (prices st) + 1) (history cfg))
          with false by (symmetry; apply Nat.leb_gt; lia).
        reflexivity.
      * apply Nat.ltb_ge in Hh.
        destruct (35 <=? Nat.min (length (prices st) + 1) (history cfg))
          eqn:H35; [apply Nat.leb_le in H35|apply Nat.leb_gt in H35]; lia.
    + rewrite L1. destruct (history cfg <? 35); lia.
Qed.

(** X23: computed without rounding and with an interval that
    [time.sleep] accepts (from 0 to below 2^63 nanoseconds), the loop
    never raises, whatever the fetches do: no indicator, no decision,
    no [display] and no [sleep] does; and it displays one suggestion
    for each price fetched from the 35th on when its history holds at
    least 35 prices (and none below that). *)
Theorem soleur_helper_exact_never_raises cfg fs :
  (0 <= interval cfg)%Q ->
  (interval cfg * inject_Z (10 ^ 9) < inject_Z (2 ^ 63))%Q ->
  exists st' out,
    soleur_helper cfg fs = Returns (st', out)
    /\ length (shown out)
       = if history cfg <? 35 then 0 else length (fetched_prices fs) - 34.
Proof.
  intros H0 Hmax.
  destruct (@exact_run cfg fs initial (exact_sleep H0 Hmax) (Nat.le_0_l _))
    as [st' [out [E S]]].
  unfold soleur_helper. rewrite E. cbn [and_then].
  eexists. eexists. split; [reflexivity|].
  cbn [shown]. rewrite S. cbn [initial prices length].
  destruct (history cfg <? 35); lia.
Qed.

End ExactLoop.

Section ExactDisplay.
Local Open Scope Q_scope.

(** X24: computed without rounding, [display] completes on every
    history that is not empty, whichever indicators are absent: it
    prints the header, a sparkline with one glyph per price, the newest
    price, the lines of the indicators that are present and the
    suggestion. *)
Theorem display_exact_completes (sym : string) (b : list Q)
  (a : action) (c : color) (ma20 rsi14 macd macd_signal : option Q) :
  b <> [] ->
  exists glyphs older latest,
    display sym b a c ma20 rsi14 macd macd_signal
    = ([LineHeader sym; LineHistory glyphs; LinePrice latest]
         ++ indicator_lines ma20 rsi14 macd macd_signal
         ++ [LineSuggestion c a],
       None)
    /\ length glyphs = length b
    /\ b = older ++ [latest].
Proof.
  intros Hne.
  assert (Hl : (1 <= length b)%nat)
    by (destruct b; [congruence | simpl; lia]).
  destruct (@getitem_from_end _ 1 b) as [x [Hx E]]; [lia|].
  destruct (lastn_split 1 b) as [pre Hpre].
  destruct (exact_sparkline Hne) as [lo [hi [_ [_ [_ Es]]]]].
  eexists. exists pre, x. unfold display.
  change (- Z.of_nat 1)%Z with (-1)%Z in Hx. rewrite Hx, Es.
  split; [reflexivity|]. split; [now apply sparkline_length in Es|].
  rewrite E in Hpre. unfold lastn in Hpre.
  rewrite Nat.sub_0_r, skipn_all in Hpre. exact Hpre.
Qed.
End ExactDisplay.


(* ================================================================== *)
(** ** Further properties at concrete inputs *)

Section FloatInstances.
Local Open Scope float_scope.

Lemma sparkline_constant_witness :
  sparkline (repeat 100 3) = Returns (repeat 0x2581%N 3).
Proof.
  apply (@sparkline_constant float binary64 binary64_trunc 100 3).
  - lia.
  - vm_compute. reflexivity.
Defined.

Lemma sparkline_nan_first_witness :
  sparkline [nan; 1; 2] = Fails ValueError.
Proof.
  apply (@sparkline_nan_first nan [1; 2]). vm_compute. reflexivity.
Defined.

Lemma display_stops_early_witness :
  display "SOLEUR" [] HOLD YELLOW (Some 1) None None None
  = ([], Some (Builtin IndexError))
  /\ display "SOLEUR" [nan; 1; 2] HOLD YELLOW (Some 1) None None None
     = ([LineHeader "SOLEUR"], Some ValueError).
Proof.
  destruct (@display_stops_early "SOLEUR" nan [1; 2] HOLD YELLOW
              (Some 1) None None None) as [Hempty Hnan].
  split; [exact Hempty|]. apply Hnan. vm_compute. reflexivity.
Defined.

Lemma get_action_neutral_witness :
  get_action 110 (Some 100) (Some 50) (Some 1) (Some 0.5)
  = Ok (HOLD, YELLOW).
Proof.
  apply (@get_action_neutral_is_hold 110 100 50 1 0.5).
  right. right. split; vm_compute; reflexivity.
Defined.

Lemma get_action_nan_witness :
  get_action 110 (Some 100) (Some nan) (Some 1) (Some 0.5)
  = Ok (HOLD, YELLOW).
Proof.
  apply (@get_action_nan_is_hold 110 100 nan 1 0.5).
  right. right. left. vm_compute. reflexivity.
Defined.

Lemma moving_average_ignores_older_witness :
  moving_average ([9; 9] ++ [1; 2; 6]) 3 = moving_average [1; 2; 6] 3.
Proof.
  apply (@moving_average_ignores_older float binary64 [9; 9] [1; 2; 6] 3).
  simpl. lia.
Defined.

Lemma ema_of_prefix_witness :
  let k := quot (of_int 2) (add (of_int 12) (of_int 1)) in
  ema [10; 11] 12 = Ok (firstn 2 (ema_series k [10; 11; 13])).
Proof.
  intros k.
  apply (@ema_of_prefix float binary64 [10; 11] [13] 12
           (ema_series k [10; 11; 13])).
  vm_compute. reflexivity.
Defined.

Lemma calculate_macd_last_difference_witness :
  let kf := quot (of_int 2) (add (of_int 12) (of_int 1)) in
  let ks := quot (of_int 2) (add (of_int 26) (of_int 1)) in
  let kg := quot (of_int 2) (add (of_int 9) (of_int 1)) in
  let line :=
    map (fun fs => sub (fst fs) (snd fs))
        (combine (ema_series kf linear_prices)
                 (ema_series ks linear_prices)) in
  exists f s g,
    nth_error (ema_series kf linear_prices) (length linear_prices - 1)
    = Some f
    /\ nth_error (ema_series ks linear_prices) (length linear_prices - 1)
       = Some s
    /\ nth_error (ema_series kg line) (length linear_prices - 1) = Some g
    /\ length line = length linear_prices
    /\ calculate_macd linear_prices 12 26 9 = Ok (Some (sub f s), Some g).
Proof.
  intros kf ks kg.
  apply (@calculate_macd_is_last_difference float binary64 linear_prices
           12 26 9 kf ks kg).
  - discriminate.
  - simpl. lia.
  - vm_compute. reflexivity.
  - vm_compute. reflexivity.
  - vm_compute. reflexivity.
Defined.

Lemma calculate_macd_empty_witness :
  calculate_macd (@nil float) 12 0 0 = Raise IndexError.
Proof.
  eapply (@calculate_macd_empty float binary64 12); vm_compute; reflexivity.
Defined.
End FloatInstances.

Section ExactInstances.
Local Open Scope Q_scope.

Lemma sparkline_exact_total_witness :
  exists out,
    sparkline [1; 3; 2] = Returns out
    /\ length out = length [1; 3; 2]
    /\ Forall (fun g => In g chars) out.
Proof. apply (@sparkline_exact_total [1; 3; 2]). discriminate. Defined.

Lemma sparkline_exact_monotone_witness :
  sparkline [1; 3; 2] = Returns [0x2581; 0x2588; 0x2584]%N
  /\ (0x2581 <= 0x2584)%N.
Proof.
  assert (E : sparkline [1; 3; 2] = Returns [0x2581; 0x2588; 0x2584]%N)
    by (vm_compute; reflexivity).
  split; [exact E|].
  apply (@sparkline_exact_monotone [1; 3; 2] [0x2581; 0x2588; 0x2584]%N
           0 2 1 2 0x2581%N 0x2584%N E); try reflexivity.
  unfold Qle. simpl. lia.
Defined.

Lemma sparkline_exact_extremes_witness :
  ((forall x, In x [1; 3; 2] -> 1 <= x) -> 0x2581%N = 0x2581%N)
  /\ ((forall x, In x [1; 3; 2] -> x <= 1) -> 0x2581%N = 0x2588%N).
Proof.
  apply (@sparkline_exact_extremes [1; 3; 2] [0x2581; 0x2588; 0x2584]%N
           1 3 0 1 0x2581%N).
  - vm_compute. reflexivity.
  - simpl. tauto.
  - simpl. tauto.
  - reflexivity.
  - reflexivity.
  - reflexivity.
Defined.

Lemma moving_average_exact_bounds_witness :
  exists m, moving_average [1; 2; 6; 3] 3 = Ok (Some m) /\ 2 <= m <= 6.
Proof.
  apply (@moving_average_exact_bounds [1; 2; 6; 3] 3 2 6).
  - simpl. lia.
  - intros p Hp. simpl in Hp.
    destruct Hp as [<-|[<-|[<-|[]]]]; split; unfold Qle; simpl; lia.
Defined.

Lemma ema_exact_bounds_witness :
  exists out, ema [1; 2; 6] 3 = Ok out
              /\ forall y, In y out -> 1 <= y <= 6.
Proof.
  apply (@ema_exact_bounds [1; 2; 6] 3 1 6).
  - lia.
  - intros p Hp. simpl in Hp.
    destruct Hp as [<-|[<-|[<-|[]]]]; split; unfold Qle; simpl; lia.
Defined.

Lemma calculate_macd_exact_affine_witness :
  let prices := map (fun k => inject_Z (100 + Z.of_nat k)) (seq 0 35) in
  exists m s m' s',
    calculate_macd prices 12 26 9 = Ok (Some m, Some s)
    /\ calculate_macd (map (fun p => 2 * p + 5) prices) 12 26 9
       = Ok (Some m', Some s')
    /\ m' == 2 * m /\ s' == 2 * s.
Proof.
  intros prices.
  apply (@calculate_macd_exact_affine prices 2 5 12 26 9).
  - discriminate.
  - simpl. lia.
Defined.

Lemma calculate_rsi_exact_formula_witness :
  let G := total_gain (window_deltas [1; 2; 3; 2] 3) in
  let L := total_loss (window_deltas [1; 2; 3; 2] 3) in
  exists r, calculate_rsi [1; 2; 3; 2] 3 = Ok (Some r)
            /\ r == 100 * G / (G + L)
            /\ (r == 0 <-> G == 0).
Proof.
  intros G L.
  apply (@calculate_rsi_exact_formula [1; 2; 3; 2] 3).
  - simpl. lia.
  - vm_compute. reflexivity.
Defined.

Lemma display_exact_completes_witness :
  exists glyphs older latest,
    display "SOLEUR" [1; 3; 2] HOLD YELLOW (Some 2) None (Some 1) None
    = ([LineHeader "SOLEUR"; LineHistory glyphs; LinePrice latest;
        LineMA20 2; LineSuggestion YELLOW HOLD],
       None)
    /\ length glyphs = 3%nat
    /\ [1; 3; 2] = older ++ [latest].
Proof.
  apply (@display_exact_completes "SOLEUR" [1; 3; 2] HOLD YELLOW
           (Some 2) None (Some 1) None).
  discriminate.
Defined.
End ExactInstances.

Section LoopInstances.

Ltac find_display := repeat first [left; reflexivity | right].


Lemma soleur_helper_sleeps_witness :
  exists st' out,
    soleur_helper sample_config sample_fetches = Returns (st', out)
    /\ sleeps out = repeat 0.5%float 36.
Proof.
  eexists. eexists. split; [vm_compute; reflexivity|].
  apply (@soleur_helper_sleeps_every_turn float binary64 binary64_trunc
           sample_config sample_fetches
           {| prices := linear_prices; last_action := Some HOLD |}).
  vm_compute. reflexivity.
Defined.

Lemma soleur_helper_small_history_witness :
  exists st' out,
    soleur_helper small_config sample_fetches = Returns (st', out)
    /\ shown out = [] /\ bells out = 0 /\ last_action st' = None.
Proof.
  eexists. eexists. split; [vm_compute; reflexivity|].
  apply (@soleur_helper_small_history float binary64 binary64_trunc
           small_config sample_fetches).
  - simpl. lia.
  - vm_compute. reflexivity.
Defined.

Lemma soleur_helper_bell_witness :
  exists st' out,
    soleur_helper sample_config sample_fetches = Returns (st', out)
    /\ bells out = changes None (shown out)
    /\ last_action st' = last (map Some (shown out)) None.
Proof.
  eexists. eexists. split; [vm_compute; reflexivity|].
  apply (@soleur_helper_bell_on_change float binary64 binary64_trunc
           sample_config sample_fetches).
  vm_compute. reflexivity.
Defined.

Lemma soleur_helper_displays_witness :
  exists st' out a c ma rsi m s,
    soleur_helper sample_config sample_fetches = Returns (st', out)
    /\ In (Display "SOLEUR" linear_prices a c ma rsi m s) out
    /\ moving_average linear_prices 20 = Ok (Some ma)
    /\ calculate_rsi linear_prices 14 = Ok (Some rsi)
    /\ calculate_macd linear_prices 12 26 9 = Ok (Some m, Some s)
    /\ get_action (float_of_int 134) (Some ma) (Some rsi) (Some m) (Some s)
       = Ok (a, c).
Proof.
  do 8 eexists.
  split; [vm_compute; reflexivity|].
  split; [vm_compute; find_display|].
  edestruct (@soleur_helper_displays_are_sound float binary64 binary64_trunc
               sample_config sample_fetches)
    as [_ [_ [Hma [Hrsi [Hmacd [price [Hp Hact]]]]]]].
  - vm_compute. reflexivity.
  - vm_compute. find_display.
  - vm_compute in Hp. injection Hp as <-.
    repeat (split; [eassumption|]). exact Hact.
Defined.
Lemma soleur_helper_exact_never_raises_witness :
  exists st' out,
    soleur_helper exact_config
      [Fetched 100%Q; FetchFailed "timeout"; Fetched 101%Q]
    = Returns (st', out)
    /\ length (shown out) = 0.
Proof.
  apply (@soleur_helper_exact_never_raises exact_config
           [Fetched 100%Q; FetchFailed "timeout"; Fetched 101%Q]).
  - discriminate.
  - reflexivity.
Defined.
End LoopInstances.
